(** * OBForceField: minimizer, line searches and the UFF force field

    A shallow embedding of [src/obminimize.cpp], of the UFF force field
    ([forcefielduff.cpp]) and of the host side of the OpenCL electrostatic
    term ([electro_opencl.cpp]), together with the properties of the
    specification that concern them and further properties of the code.

    Numbers.  A C++ [double] that is known to be finite is an element of [R];
    rounding and overflow are not modelled.  Where the source tests
    [isfinite] on a value returned by a geometric helper, that value has type
    [double] below, which adds one element for NaN and the infinities; the
    vectors of the conjugate-gradient direction array, where a division by
    zero produces NaN, have the type [Direction]. *)

From Stdlib Require Import Reals Lra List Ascii String ZArith Bool Lia Arith.
Import ListNotations.

Open Scope R_scope.

(** ** Comparisons on reals as booleans *)

Definition Rltb (a b : R) : bool := if Rlt_dec a b then true else false.
Definition Rgtb (a b : R) : bool := Rltb b a.
Definition Rneqb (a b : R) : bool := if Req_dec_T a b then false else true.

(** [IsNear] and [IsNearZero] of openbabel/obutil.h:
    [fabs(a - b) < epsilon] and [fabs(a) < epsilon] (default 2e-6). *)
Definition IsNear (a b epsilon : R) : bool := Rltb (Rabs (a - b)) epsilon.
Definition IsNearZero (a epsilon : R) : bool := Rltb (Rabs a) epsilon.
Definition IsNearZero_default : R := 0.000002.

(** Units of openbabel (forcefield.h, obutil.h). *)
Definition KCAL_TO_KJ : R := 4.1868.
Definition DEG_TO_RAD : R := PI / 180.
Definition RAD_TO_DEG : R := 180 / PI.

(** ** Eigen::Vector3d *)

Module Vector3d.

Record t : Type := mk { x : R; y : R; z : R }.

Definition Zero : t := mk 0 0 0.
Definition add (a b : t) : t := mk (x a + x b) (y a + y b) (z a + z b).
Definition sub (a b : t) : t := mk (x a - x b) (y a - y b) (z a - z b).
Definition scale (a : t) (s : R) : t := mk (x a * s) (y a * s) (z a * s).
Definition dot (a b : t) : R := x a * x b + y a * y b + z a * z b.
Definition cross (a b : t) : t :=
  mk (y a * z b - z a * y b) (z a * x b - x a * z b) (x a * y b - y a * x b).
Definition squaredNorm (a : t) : R := dot a a.
Definition norm (a : t) : R := sqrt (squaredNorm a).
(** [normalize] divides the vector by its norm. *)
Definition normalize (a : t) : t := mk (x a / norm a) (y a / norm a) (z a / norm a).

End Vector3d.

Definition Vec : Type := Vector3d.t.

(** ** The [double] values on which the source tests [isfinite] *)

Inductive double : Type :=
| Finite (r : R)
| NonFinite.

Definition isfinite (d : double) : bool :=
  match d with Finite _ => true | NonFinite => false end.

(** A product with a NaN or infinite factor is never finite. *)
Definition dmul (a b : double) : double :=
  match a, b with
  | Finite u, Finite v => Finite (u * v)
  | _, _ => NonFinite
  end.

(** A quotient by zero is NaN or infinite. *)
Definition ddiv (a b : double) : double :=
  match a, b with
  | Finite u, Finite v => if Rneqb v 0 then Finite (u / v) else NonFinite
  | _, _ => NonFinite
  end.

(** [acos] of math.h: NaN outside [-1, 1]. *)
Definition dacos (a : double) : double :=
  match a with
  | Finite u => if Rltb u (-1) || Rltb 1 u then NonFinite else Finite (acos u)
  | NonFinite => NonFinite
  end.

(** The value of a [double] after the source has replaced a non-finite one
    by [fallback]. *)
Definition finite_or (d : double) (fallback : R) : R :=
  match d with Finite r => r | NonFinite => fallback end.

(** [l[i] = v] on a vector; the source never writes out of range. *)
Fixpoint set_nth {A : Type} (i : nat) (v : A) (l : list A) : list A :=
  match l, i with
  | [], _ => []
  | _ :: l', O => v :: l'
  | a :: l', S i' => a :: set_nth i' v l'
  end.

(** Conversion of an [int] to [size_t] (64 bits) before the [%] of the
    conjugate-gradient reset test. *)
Definition to_size_t (c : Z) : Z := (c mod 2 ^ 64)%Z.

(** ** The minimizer of obminimize.cpp *)

Section Minimizer.

(** Modelled from the spec: the function aggregator (OBFunction, whose
    source is obfunction.cpp).  It owns the position and gradient arrays;
    [Compute(Value)] recomputes only the scalar sum, [Compute(Gradients)]
    additionally refills the gradient array.  The energy and the gradient
    are functions of the positions. *)
Variable energy : list Vec -> R.
Variable gradient : list Vec -> list Vec.
Variable HasAnalyticalGradients : bool.

(** The enumerator [LineSearchType::Newton2Num]; every other value of
    [d->linesearch] selects the simple search. *)
Variable Newton2Num : Z.

Record OBFunction : Type := mkFunction {
  m_positions : list Vec;
  m_gradients : list Vec;
  m_value : R
}.

Inductive Computation : Type := Value | Gradients.

Definition SetPositions (p : list Vec) (f : OBFunction) : OBFunction :=
  mkFunction p (m_gradients f) (m_value f).

Definition Compute (c : Computation) (f : OBFunction) : OBFunction :=
  match c with
  | Value => mkFunction (m_positions f) (m_gradients f) (energy (m_positions f))
  | Gradients =>
      mkFunction (m_positions f) (gradient (m_positions f)) (energy (m_positions f))
  end.

Record OBMinimizePrivate : Type := mkPrivate {
  econv : R;
  e_n1 : R;
  cstep : Z;
  nsteps : Z;
  grad1 : list Vec;
  linesearch : Z
}.

Record OBMinimize : Type := mkMinimize {
  m_function : OBFunction;
  d : OBMinimizePrivate
}.

Definition GetPositions (m : OBMinimize) : list Vec := m_positions (m_function m).
Definition GetGradients (m : OBMinimize) : list Vec := m_gradients (m_function m).

(** *** LineSearchTakeStep

    [positions[c] = origCoords[c] + direction[c] * step] for every
    [c < direction.size()]; positions past the direction array are left
    as they are. *)
Fixpoint LineSearchTakeStep (origCoords direction : list Vec) (step : R)
         (positions : list Vec) : list Vec :=
  match direction, origCoords, positions with
  | dc :: direction', oc :: origCoords', _ :: positions' =>
      Vector3d.add oc (Vector3d.scale dc step)
        :: LineSearchTakeStep origCoords' direction' step positions'
  | _, _, _ => positions
  end.

(** The positions reached from [origCoords] by the step [step]. *)
Definition stepped (origCoords direction : list Vec) (step : R) : list Vec :=
  LineSearchTakeStep origCoords direction step origCoords.

Definition TakeStepAndCompute (origCoords direction : list Vec) (step : R)
           (f : OBFunction) : OBFunction :=
  Compute Value
    (SetPositions (LineSearchTakeStep origCoords direction step (m_positions f)) f).

(** *** Newton2NumLineSearch

    The [while (true)] loop leaves through [newton++ > 3] on its fifth
    pass or through [denom == 0]; [k] counts the refinements still
    allowed, [k = 4 - newton]. *)
Fixpoint Newton2Num_loop (k : nat) (origCoords direction : list Vec) (max_scl : R)
         (step opt_step opt_e : R) (f : OBFunction) : R * R * OBFunction :=
  let f1 := TakeStepAndCompute origCoords direction step f in
  let e1 := m_value f1 in
  let opt_step' := if Rltb e1 opt_e then step else opt_step in
  let opt_e' := if Rltb e1 opt_e then e1 else opt_e in
  match k with
  | O => (opt_step', opt_e', f1)
  | S k' =>
      let delta := step * 0.001 in
      let f2 := TakeStepAndCompute origCoords direction (step + delta) f1 in
      let e2 := m_value f2 in
      let f3 := TakeStepAndCompute origCoords direction (step + delta * 2.0) f2 in
      let e3 := m_value f3 in
      let denom := e3 - 2.0 * e2 + e1 in
      if Rneqb denom 0.0 then
        let step1 := Rabs (step - delta * (e2 - e1) / denom) in
        let step2 := if Rgtb step1 max_scl then max_scl else step1 in
        Newton2Num_loop k' origCoords direction max_scl step2 opt_step' opt_e' f3
      else (opt_step', opt_e', f3)
  end.

Definition Newton2Num_scale (direction : list Vec) : R :=
  let sum := fold_left (fun s v => s + Vector3d.squaredNorm v) direction 0.0 in
  let scale := sqrt sum in
  if IsNearZero scale IsNearZero_default then 1.0e-70 else scale.

Definition Newton2NumLineSearch (direction : list Vec) (m : OBMinimize)
  : R * OBMinimize :=
  let def_step := 0.025 in
  let max_step := 5.0 in
  let scale := Newton2Num_scale direction in
  let step := def_step / scale in
  let max_scl := max_step / scale in
  let origCoords := GetPositions m in
  let '(opt_step, opt_e, f1) :=
    Newton2Num_loop 4 origCoords direction max_scl step 0.0 (e_n1 (d m)) (m_function m) in
  let '(opt_step, f2) :=
    if Rneqb opt_step 0.0 then (opt_step, f1)
    else
      let step := 0.001 * def_step / scale in
      let f2 := TakeStepAndCompute origCoords direction step f1 in
      ((if Rltb (m_value f2) opt_e then step else opt_step), f2) in
  let f3 := SetPositions (LineSearchTakeStep origCoords direction opt_step (m_positions f2)) f2 in
  (opt_step * scale, mkMinimize f3 (d m)).

(** *** LineSearch (the simple trust-region search) *)

Definition trustRadius : R := 0.3.
Definition trustRadius2 : R := 0.9.

(** The displacement added to one atom in one trial. *)
Definition LineSearch_tempStep (dc : Vec) (step : R) : Vec :=
  let tempStep := Vector3d.scale dc step in
  if Rgtb (Vector3d.squaredNorm tempStep) trustRadius2
  then Vector3d.scale (Vector3d.normalize tempStep) trustRadius
  else tempStep.

(** The loop over [c < currentCoords.size()].  The test
    [isfinite(direction[c].squaredNorm())] holds for every vector over [R]. *)
Fixpoint LineSearch_move (currentCoords direction : list Vec) (step : R) : list Vec :=
  match currentCoords, direction with
  | cc :: currentCoords', dc :: direction' =>
      Vector3d.add cc (LineSearch_tempStep dc step)
        :: LineSearch_move currentCoords' direction' step
  | _, _ => currentCoords
  end.

(** [n] trial iterations remain; the source runs ten. *)
Fixpoint LineSearch_loop (n : nat) (direction : list Vec) (e1 step alpha : R)
         (f : OBFunction) : R * OBFunction :=
  match n with
  | O => (alpha, f)
  | S n' =>
      let lastStep := m_positions f in
      let f1 := Compute Value (SetPositions (LineSearch_move lastStep direction step) f) in
      let e2 := m_value f1 in
      if IsNear e2 e1 0.001 then (alpha, f1)
      else if Rgtb e2 e1 then
        LineSearch_loop n' direction e1 (step * 0.1) alpha (SetPositions lastStep f1)
      else if Rltb e2 e1 then
        let step' := step * 2.15 in
        LineSearch_loop n' direction e2 (if Rgtb step' 1.0 then 1.0 else step')
                        (alpha + step) f1
      else LineSearch_loop n' direction e1 step alpha f1
  end.

Definition LineSearch (direction : list Vec) (m : OBMinimize) : R * OBMinimize :=
  let f0 := Compute Value (m_function m) in
  let '(alpha, f) := LineSearch_loop 10 direction (m_value f0) 0.2 0.0 f0 in
  (alpha, mkMinimize f (d m)).

(** The [switch (d->linesearch)] of the optimizers. *)
Definition perform_linesearch (direction : list Vec) (m : OBMinimize) : R * OBMinimize :=
  if Z.eqb (linesearch (d m)) Newton2Num
  then Newton2NumLineSearch direction m
  else LineSearch direction m.

Definition set_function (f : OBFunction) (m : OBMinimize) : OBMinimize :=
  mkMinimize f (d m).
Definition set_e_n1 (e : R) (m : OBMinimize) : OBMinimize :=
  mkMinimize (m_function m)
    (mkPrivate (econv (d m)) e (cstep (d m)) (nsteps (d m)) (grad1 (d m)) (linesearch (d m))).
Definition set_cstep (c : Z) (m : OBMinimize) : OBMinimize :=
  mkMinimize (m_function m)
    (mkPrivate (econv (d m)) (e_n1 (d m)) c (nsteps (d m)) (grad1 (d m)) (linesearch (d m))).
Definition set_grad1 (g : list Vec) (m : OBMinimize) : OBMinimize :=
  mkMinimize (m_function m)
    (mkPrivate (econv (d m)) (e_n1 (d m)) (cstep (d m)) (nsteps (d m)) g (linesearch (d m))).
Definition initialize (steps : Z) (conv : R) (m : OBMinimize) : OBMinimize :=
  mkMinimize (m_function m)
    (mkPrivate conv (e_n1 (d m)) 0 steps (grad1 (d m)) (linesearch (d m))).

(** *** Steepest descent *)

Definition SteepestDescentInitialize (steps : Z) (conv : R) (m : OBMinimize)
  : OBMinimize :=
  let m1 := initialize steps conv m in
  let m2 := set_function (Compute Gradients (m_function m1)) m1 in
  set_e_n1 (m_value (m_function m2)) m2.

(** One pass of the [for] loop; [Some b] is [return b]. *)
Definition SteepestDescent_step (m : OBMinimize) : option bool * OBMinimize :=
  let m1 := set_cstep (cstep (d m) + 1) m in
  let '(_, m2) := perform_linesearch (GetGradients m1) m1 in
  let m3 := set_function (Compute Gradients (m_function m2)) m2 in
  let e_n2 := m_value (m_function m3) in
  if IsNear e_n2 (e_n1 (d m3)) (econv (d m3)) then (Some false, m3)
  else if Z.eqb (nsteps (d m3)) (cstep (d m3)) then (Some false, m3)
  else (None, set_e_n1 e_n2 m3).

Fixpoint SteepestDescentTakeNSteps (n : nat) (m : OBMinimize) : bool * OBMinimize :=
  match n with
  | O => (true, m)
  | S n' =>
      match SteepestDescent_step m with
      | (Some b, m') => (b, m')
      | (None, m') => SteepestDescentTakeNSteps n' m'
      end
  end.

Definition SteepestDescent (steps : Z) (conv : R) (m : OBMinimize) : OBMinimize :=
  snd (SteepestDescentTakeNSteps (Z.to_nat steps) (SteepestDescentInitialize steps conv m)).

(** *** Conjugate gradients *)

Definition ConjugateGradientsInitialize (steps : Z) (conv : R) (m : OBMinimize)
  : OBMinimize :=
  let m1 := initialize steps conv m in
  let m2 := set_function (Compute Gradients (m_function m1)) m1 in
  let m3 := set_e_n1 (m_value (m_function m2)) m2 in
  let m4 := set_grad1 (map (fun _ => Vector3d.Zero) (GetPositions m3)) m3 in
  let '(_, m5) := perform_linesearch (GetGradients m4) m4 in
  let m6 := set_function (Compute Gradients (m_function m5)) m5 in
  let e_n2 := m_value (m_function m6) in
  set_e_n1 e_n2 (set_grad1 (GetGradients m6) m6).

(** A vector of the direction array.  [beta = g2g2 / g1g1] is infinite or
    NaN when the stored vector is zero, and [grad2 += beta * grad1] then
    leaves NaN in [grad2]: the second constructor is a vector on which
    [isfinite(v.squaredNorm())] fails. *)
Inductive Direction : Type :=
| FiniteVec (v : Vec)
| NonFiniteVec.

(** What both line searches make of an entry of the direction array:
    [Newton2NumLineSearch] overwrites an entry that is not finite with
    [Vector3d::Zero()] before it uses the array, [LineSearch] leaves the
    atom of such an entry where it is, as a zero entry does. *)
Definition finite_direction (v : Direction) : Vec :=
  match v with
  | FiniteVec u => u
  | NonFiniteVec => Vector3d.Zero
  end.

(** The body of the loop over [idx] once [grad2] has been read: the
    Fletcher-Reeves update, skipped when [cstep % size == 0].  A NaN or an
    infinity in [grad2] or in the stored vector leaves one in the sum. *)
Definition CG_atom_direction (c N : Z) (grad2 stored : Direction) : Direction :=
  if negb (Z.eqb (to_size_t c mod N) 0) then
    match grad2, stored with
    | FiniteVec g2, FiniteVec g1 =>
        let g2g2 := Vector3d.dot g2 g2 in
        let g1g1 := Vector3d.dot g1 g1 in
        match ddiv (Finite g2g2) (Finite g1g1) with
        | Finite beta => FiniteVec (Vector3d.add g2 (Vector3d.scale g1 beta))
        | NonFinite => NonFiniteVec
        end
    | _, _ => NonFiniteVec
    end
  else grad2.

(** The loop over [idx < positions.size()]; the local [grad2] keeps its
    previous contents when the function has no analytical gradients. *)
Fixpoint CG_direction_loop (idxs : list nat) (c N : Z) (gradients : list Vec)
         (grad2 : Direction) (d_grad1 : list Direction)
  : Direction * list Direction :=
  match idxs with
  | [] => (grad2, d_grad1)
  | idx :: idxs' =>
      let grad2a :=
        if HasAnalyticalGradients then FiniteVec (nth idx gradients Vector3d.Zero)
        else grad2 in
      let grad2b :=
        CG_atom_direction c N grad2a (nth idx d_grad1 (FiniteVec Vector3d.Zero)) in
      CG_direction_loop idxs' c N gradients grad2b (set_nth idx grad2b d_grad1)
  end.

(** The search direction of the step that makes the step count [c]. *)
Definition CG_direction (c : Z) (grad2 : Direction) (m : OBMinimize)
  : Direction * list Direction :=
  let size := List.length (GetPositions m) in
  CG_direction_loop (seq 0 size) c (Z.of_nat size) (GetGradients m) grad2
                    (map FiniteVec (grad1 (d m))).

(** One pass of the [for] loop.  [d->grad1] holds the direction array
    during the line search, as the line search reads it, and the gradient
    array from "save the direction" on. *)
Definition ConjugateGradients_step (grad2 : Direction) (m : OBMinimize)
  : option bool * Direction * OBMinimize :=
  let m1 := set_cstep (cstep (d m) + 1) m in
  let '(grad2', direction) := CG_direction (cstep (d m1)) grad2 m1 in
  let m2 := set_grad1 (map finite_direction direction) m1 in
  let '(_, m3) := perform_linesearch (grad1 (d m2)) m2 in
  let m4 := set_grad1 (GetGradients m3) m3 in
  let m5 := set_function (Compute Gradients (m_function m4)) m4 in
  let e_n2 := m_value (m_function m5) in
  if IsNear e_n2 (e_n1 (d m5)) (econv (d m5)) then (Some false, grad2', m5)
  else if Z.eqb (nsteps (d m5)) (cstep (d m5)) then (Some false, grad2', m5)
  else (None, grad2', set_e_n1 e_n2 m5).

(** The direction array of the step that starts in [m], as the loop over
    [idx] leaves it: the count it tests is [d->cstep] after [d->cstep++]. *)
Definition ConjugateGradients_step_direction (grad2 : Direction) (m : OBMinimize)
  : list Direction :=
  let m1 := set_cstep (cstep (d m) + 1) m in
  snd (CG_direction (cstep (d m1)) grad2 m1).

(** [grad2] is the uninitialised local of the source. *)
Fixpoint ConjugateGradientsTakeNSteps (n : nat) (grad2 : Direction) (m : OBMinimize)
  : bool * OBMinimize :=
  match n with
  | O => (true, m)
  | S n' =>
      match ConjugateGradients_step grad2 m with
      | (Some b, _, m') => (b, m')
      | (None, grad2', m') => ConjugateGradientsTakeNSteps n' grad2' m'
      end
  end.

Definition ConjugateGradients (steps : Z) (conv : R) (grad2 : Direction) (m : OBMinimize)
  : OBMinimize :=
  snd (ConjugateGradientsTakeNSteps (Z.to_nat steps) grad2
         (ConjugateGradientsInitialize steps conv m)).

End Minimizer.

(** ** Failure of a pointer dereference

    [GetParameterUFF], [OBMol::GetAtom] and [OBMol::GetBond] return a null
    pointer when there is nothing to return.  A pointer is an [option]; the
    source dereferences without a test, so that a null pointer stops the
    evaluation with [NullDeref]. *)

Inductive result (A : Type) : Type :=
| Ok (a : A)
| NullDeref.

Arguments Ok {A} a.
Arguments NullDeref {A}.

Definition bind {A B : Type} (r : result A) (k : A -> result B) : result B :=
  match r with
  | Ok a => k a
  | NullDeref => NullDeref
  end.

Definition deref {A : Type} (p : option A) : result A :=
  match p with
  | Some a => Ok a
  | None => NullDeref
  end.

Notation "x <- e ;; k" := (bind e (fun x => k))
  (at level 61, e at next level, right associativity).
Notation "' p <- e ;; k" := (bind e (fun p => k))
  (at level 61, p pattern, e at next level, right associativity).

(** A loop whose body pushes the records it returns; [continue] is the
    empty list. *)
Fixpoint for_each {A B : Type} (body : A -> result (list B)) (l : list A)
  : result (list B) :=
  match l with
  | [] => Ok []
  | x :: l' =>
      r <- body x ;;
      rs <- for_each body l' ;;
      Ok (r ++ rs)
  end.

(** ** Molecules, as the force field reads them from openbabel

    An atom pointer is the atom's index ([GetIdx], from 1).  The angle,
    torsion and pair iterators are the lists the molecule hands out. *)

Record OBAtom : Type := mkAtom {
  GetAtomicNum : nat;
  GetType : string;
  GetPartialCharge : R
}.

Record OBBond : Type := mkBond {
  GetBeginAtom : nat;
  GetEndAtom : nat;
  GetBondOrder : nat;
  IsAromatic : bool;
  IsAmide : bool
}.

Record OBMol : Type := mkMol {
  mol_atoms : list OBAtom;
  mol_bonds : list OBBond;
  mol_angles : list (nat * nat * nat);
  mol_torsions : list (nat * nat * nat * nat);
  mol_pairs : list (nat * nat)
}.

Definition NumAtoms (mol : OBMol) : nat := List.length (mol_atoms mol).

(** [mol->GetAtom(idx)]: the atom pointer, null when [idx] is out of range. *)
Definition GetAtom (mol : OBMol) (idx : nat) : option nat :=
  if (1 <=? idx)%nat && (idx <=? NumAtoms mol)%nat then Some idx else None.

(** The atom behind a pointer. *)
Definition atom (mol : OBMol) (a : nat) : result OBAtom :=
  match a with
  | O => NullDeref
  | S i => deref (nth_error (mol_atoms mol) i)
  end.

Definition bond_joins (a b : nat) (bd : OBBond) : bool :=
  (Nat.eqb (GetBeginAtom bd) a && Nat.eqb (GetEndAtom bd) b)
  || (Nat.eqb (GetBeginAtom bd) b && Nat.eqb (GetEndAtom bd) a).

(** [mol->GetBond(a, b)]. *)
Definition GetBond (mol : OBMol) (a b : nat) : option OBBond :=
  find (bond_joins a b) (mol_bonds mol).

(** [FOR_NBORS_OF_ATOM]: the other ends of the bonds of [a], in bond order. *)
Definition neighbors (mol : OBMol) (a : nat) : list nat :=
  flat_map (fun bd =>
              if Nat.eqb (GetBeginAtom bd) a then [GetEndAtom bd]
              else if Nat.eqb (GetEndAtom bd) a then [GetBeginAtom bd]
              else [])
           (mol_bonds mol).

(** [a->IsConnected(b)] of openbabel: [b] is a neighbor of [a], a 1-2 pair. *)
Definition IsConnected (mol : OBMol) (a b : nat) : bool :=
  existsb (Nat.eqb b) (neighbors mol a).

(** [a->IsOneThree(b)] of openbabel: a neighbor of [a] is a neighbor of [b],
    a 1-3 pair (two bonds through a common vertex). *)
Definition IsOneThree (mol : OBMol) (a b : nat) : bool :=
  existsb (fun n1 => existsb (Nat.eqb n1) (neighbors mol b)) (neighbors mol a).

(** The pair of atoms, in either order, is neither bonded nor 1-3. *)
Definition not_12_13 (mol : OBMol) (a b : nat) : Prop :=
  IsConnected mol a b = false /\ IsOneThree mol a b = false
  /\ IsConnected mol b a = false /\ IsOneThree mol b a = false.

(** Every bond of the molecule joins two of its atoms. *)
Definition atom_in_range (mol : OBMol) (a : nat) : bool :=
  (1 <=? a)%nat && (a <=? NumAtoms mol)%nat.
Definition bonds_in_range (mol : OBMol) : bool :=
  forallb (fun bd => atom_in_range mol (GetBeginAtom bd)
                     && atom_in_range mol (GetEndAtom bd))
          (mol_bonds mol).

(** [EQn(a, b, n)] is [!strncmp(a, b, n)]: the first [n] characters agree. *)
Definition EQn (a b : string) (n : nat) : bool :=
  String.eqb (substring 0 n a) (substring 0 n b).

(** An OBBitVec is the list of its set bits. *)
Definition OBBitVec : Type := list nat.
Definition BitIsOn (bv : OBBitVec) (i : nat) : bool := existsb (Nat.eqb i) bv.

(** ** The UFF parameter table *)

Record OBFFParameter : Type := mkParameter {
  _a : string;
  _dpar : list R;
  _ipar : list Z
}.

Definition dpar (p : OBFFParameter) (k : nat) : R := nth k (_dpar p) 0.
Definition ipar (p : OBFFParameter) (k : nat) : Z := nth k (_ipar p) 0%Z.

Fixpoint GetParameterUFF (a : string) (parameter : list OBFFParameter)
  : option OBFFParameter :=
  match parameter with
  | [] => None
  | p :: parameter' =>
      if String.eqb a (_a p) then Some p else GetParameterUFF a parameter'
  end.

(** ** Interaction records *)

Module BondCalc.
Record t : Type := mk { a : nat; b : nat; bt : R; r0 : R; kb : R }.
End BondCalc.

Module AngleCalc.
Record t : Type := mk {
  a : nat; b : nat; c : nat; coord : Z;
  zi : R; zk : R; theta0 : R; cosT0 : R;
  c0 : R; c1 : R; c2 : R; ka : R }.
End AngleCalc.

Module TorsionCalc.
Record t : Type := mk {
  a : nat; b : nat; c : nat; d : nat;
  n : Z; tt : R; V : R; cosNPhi0 : R }.
End TorsionCalc.

Module OOPCalc.
Record t : Type := mk {
  a : nat; b : nat; c : nat; d : nat;
  c0 : R; c1 : R; c2 : R; koop : R }.
End OOPCalc.

Module VDWCalc.
Record t : Type := mk {
  a : nat; b : nat; Ra : R; ka : R; Rb : R; kb : R; kab : R }.
End VDWCalc.

Module EleCalc.
Record t : Type := mk { a : nat; b : nat; qq : R }.
End EleCalc.

(** ** The UFF force field: state *)

Record OBForceFieldUFF : Type := mkUFF {
  _mol : OBMol;
  _ffparams : list OBFFParameter;
  HasGroups : bool;
  _intraGroup : list OBBitVec;
  _interGroup : list OBBitVec;
  _interGroups : list (OBBitVec * OBBitVec);
  _bondcalculations : list BondCalc.t;
  _anglecalculations : list AngleCalc.t;
  _torsioncalculations : list TorsionCalc.t;
  _oopcalculations : list OOPCalc.t;
  _vdwcalculations : list VDWCalc.t;
  _electrostaticcalculations : list EleCalc.t;
  ff_positions : list Vec;
  ff_gradients : list Vec;
  m_terms : Z;
  IsCutOffEnabled : bool;
  VDWPairs : OBBitVec;
  ElePairs : OBBitVec
}.

Definition set_calculations (bl : list BondCalc.t) (al : list AngleCalc.t)
           (tl : list TorsionCalc.t) (ol : list OOPCalc.t) (vl : list VDWCalc.t)
           (ff : OBForceFieldUFF) : OBForceFieldUFF :=
  mkUFF (_mol ff) (_ffparams ff) (HasGroups ff) (_intraGroup ff) (_interGroup ff)
        (_interGroups ff) bl al tl ol vl (_electrostaticcalculations ff)
        (ff_positions ff) (ff_gradients ff) (m_terms ff) (IsCutOffEnabled ff)
        (VDWPairs ff) (ElePairs ff).

Definition set_electrostaticcalculations (el : list EleCalc.t) (ff : OBForceFieldUFF)
  : OBForceFieldUFF :=
  mkUFF (_mol ff) (_ffparams ff) (HasGroups ff) (_intraGroup ff) (_interGroup ff)
        (_interGroups ff) (_bondcalculations ff) (_anglecalculations ff)
        (_torsioncalculations ff) (_oopcalculations ff) (_vdwcalculations ff) el
        (ff_positions ff) (ff_gradients ff) (m_terms ff) (IsCutOffEnabled ff)
        (VDWPairs ff) (ElePairs ff).

(** ** The UFF force field: SetupCalculations *)

Definition CalculateBondDistance (i j : OBFFParameter) (bondorder : R) : R :=
  let ri := dpar i 0 in
  let rj := dpar j 0 in
  let chiI := dpar i 8 in
  let chiJ := dpar j 8 in
  let rbo := -0.1332 * (ri + rj) * ln bondorder in
  let ren := ri * rj * ((sqrt chiI - sqrt chiJ) ^ 2) / (chiI * ri + chiJ * rj) in
  ri + rj + rbo - ren.

(** The bond order of the bond, 1.5 if aromatic, 1.41 if amide. *)
Definition effective_bond_order (bd : OBBond) : R :=
  let bondorder := INR (GetBondOrder bd) in
  let bondorder := if IsAromatic bd then 1.5 else bondorder in
  if IsAmide bd then 1.41 else bondorder.

(** Some intra-group holds all of the atoms. *)
Definition in_one_intraGroup (ff : OBForceFieldUFF) (idxs : list nat) : bool :=
  existsb (fun g => forallb (BitIsOn g) idxs) (_intraGroup ff).

(** The pair is in one inter-group or across one pair of inter-groups. *)
Definition in_interGroups (ff : OBForceFieldUFF) (a b : nat) : bool :=
  existsb (fun g => BitIsOn g a && BitIsOn g b) (_interGroup ff)
  || existsb (fun gs => (BitIsOn (fst gs) a && BitIsOn (snd gs) b)
                        || (BitIsOn (fst gs) b && BitIsOn (snd gs) a))
             (_interGroups ff).

(** The parameter of the type of atom [a]: a possibly null pointer. *)
Definition parameter_of (ff : OBForceFieldUFF) (a : nat) : result (option OBFFParameter) :=
  ta <- atom (_mol ff) a ;;
  Ok (GetParameterUFF (GetType ta) (_ffparams ff)).

Definition setup_bond (ff : OBForceFieldUFF) (bond : OBBond) : result (list BondCalc.t) :=
  let a := GetBeginAtom bond in
  let b := GetEndAtom bond in
  if HasGroups ff && negb (in_one_intraGroup ff [a; b]) then Ok []
  else
    let bondorder := effective_bond_order bond in
    pa <- parameter_of ff a ;;
    pb <- parameter_of ff b ;;
    parameterA <- deref pa ;;
    parameterB <- deref pb ;;
    let r0 := CalculateBondDistance parameterA parameterB bondorder in
    let kb := (0.5 * KCAL_TO_KJ * 664.12 * dpar parameterA 5 * dpar parameterB 5)
              / (r0 * r0 * r0) in
    Ok [BondCalc.mk a b bondorder r0 kb].

Definition setup_angle (ff : OBForceFieldUFF) (angle : nat * nat * nat)
  : result (list AngleCalc.t) :=
  let mol := _mol ff in
  let '(i0, i1, i2) := angle in
  b <- deref (GetAtom mol (i0 + 1)) ;;
  a <- deref (GetAtom mol (i1 + 1)) ;;
  c <- deref (GetAtom mol (i2 + 1)) ;;
  if HasGroups ff && negb (in_one_intraGroup ff [a; b; c]) then Ok []
  else
    pa <- parameter_of ff a ;;
    pb <- parameter_of ff b ;;
    pc <- parameter_of ff c ;;
    parameterB <- deref pb ;;
    parameterA <- deref pa ;;
    parameterC <- deref pc ;;
    let coord := ipar parameterB 0 in
    let zi := dpar parameterA 5 in
    let zk := dpar parameterC 5 in
    let theta0 := dpar parameterB 1 in
    let cosT0 := cos (theta0 * DEG_TO_RAD) in
    let sinT0 := sin (theta0 * DEG_TO_RAD) in
    let c2 := 1.0 / (4.0 * sinT0 * sinT0) in
    let c1 := -4.0 * c2 * cosT0 in
    let c0 := c2 * (2.0 * cosT0 * cosT0 + 1.0) in
    bondAB <- deref (GetBond mol a b) ;;
    let rab := CalculateBondDistance parameterA parameterB (effective_bond_order bondAB) in
    bondBC <- deref (GetBond mol b c) ;;
    let rbc := CalculateBondDistance parameterB parameterC (effective_bond_order bondBC) in
    let rac := sqrt (rab * rab + rbc * rbc - 2.0 * rab * rbc * cosT0) in
    let ka := (644.12 * KCAL_TO_KJ) * (zi * zk / (rac ^ 5)) in
    let ka := ka * (3.0 * rab * rbc * (1.0 - cosT0 * cosT0) - rac * rac * cosT0) in
    Ok [AngleCalc.mk a b c coord zi zk theta0 cosT0 c0 c1 c2 ka].

(** The chalcogens of the torsion exceptions: O, and S, Se, Te, Po. *)
Definition is_oxygen (num : nat) : bool := Nat.eqb num 8.
Definition is_heavy_group6 (num : nat) : bool :=
  Nat.eqb num 16 || Nat.eqb num 34 || Nat.eqb num 52 || Nat.eqb num 84.
Definition is_group6 (num : nat) : bool := is_oxygen num || is_heavy_group6 num.

(** What survives from one torsion to the next: [torsioncalc.n],
    [torsioncalc.V] and the local [phi0]. *)
Record torsion_locals : Type := mkTorsionLocals {
  loc_n : Z;
  loc_V : R;
  loc_phi0 : R
}.

(** [parameter->_ipar[0] == k] on a possibly null pointer. *)
Definition coordination_is (p : option OBFFParameter) (k : Z) : result bool :=
  q <- deref p ;;
  Ok (Z.eqb (ipar q 0) k).

(** [x && y], [y] evaluated only when [x] holds. *)
Definition and_then (x : result bool) (y : result bool) : result bool :=
  bx <- x ;;
  if bx then y else Ok false.

(** [x || y], [y] evaluated only when [x] fails. *)
Definition or_else (x : result bool) (y : result bool) : result bool :=
  bx <- x ;;
  if bx then Ok true else y.

(** The decision table of the torsion setup. *)
Definition torsion_table (parameterB parameterC : option OBFFParameter)
           (bnum cnum : nat) (torsiontype : R) (loc : torsion_locals)
  : result torsion_locals :=
  sp3sp3 <- and_then (coordination_is parameterB 3) (coordination_is parameterC 3) ;;
  if sp3sp3 then
    pB <- deref parameterB ;;
    pC <- deref parameterC ;;
    let phi0 := 60.0 in
    let n := 3%Z in
    let vi := dpar pB 6 in
    let vj := dpar pC 6 in
    let '(vi, n, phi0) :=
      if is_oxygen bnum then (2.0, 2%Z, 90.0)
      else if is_heavy_group6 bnum then (6.8, 2%Z, 90.0)
      else (vi, n, phi0) in
    let '(vj, n, phi0) :=
      if is_oxygen cnum then (2.0, 2%Z, 90.0)
      else if is_heavy_group6 cnum then (6.8, 2%Z, 90.0)
      else (vj, n, phi0) in
    Ok (mkTorsionLocals n (0.5 * KCAL_TO_KJ * sqrt (vi * vj)) phi0)
  else
    sp2sp2 <- and_then (coordination_is parameterB 2) (coordination_is parameterC 2) ;;
    if sp2sp2 then
      pB <- deref parameterB ;;
      pC <- deref parameterC ;;
      Ok (mkTorsionLocals 2
            (0.5 * KCAL_TO_KJ * 5.0 * sqrt (dpar pB 7 * dpar pC 7)
             * (1.0 + 4.18 * ln torsiontype))
            180.0)
    else
      mixed <- or_else
                 (and_then (coordination_is parameterB 2) (coordination_is parameterC 3))
                 (and_then (coordination_is parameterB 3) (coordination_is parameterC 2)) ;;
      if mixed then
        pB <- deref parameterB ;;
        pC <- deref parameterC ;;
        let phi0 := 0.0 in
        let n := 6%Z in
        let '(n, phi0) :=
          if Z.eqb (ipar pC 0) 3 && is_group6 cnum then (2%Z, 90.0) else (n, phi0) in
        let '(n, phi0) :=
          if Z.eqb (ipar pB 0) 3 && is_group6 bnum then (2%Z, 90.0) else (n, phi0) in
        Ok (mkTorsionLocals n (0.5 * KCAL_TO_KJ * 1.0) phi0)
      else Ok loc.

(** One pass of the torsion loop: the record pushed, if any, and the
    locals left for the next pass. *)
Definition setup_torsion (ff : OBForceFieldUFF) (loc : torsion_locals)
           (t : nat * nat * nat * nat)
  : result (list TorsionCalc.t * torsion_locals) :=
  let mol := _mol ff in
  let '(i0, i1, i2, i3) := t in
  a <- deref (GetAtom mol (i0 + 1)) ;;
  b <- deref (GetAtom mol (i1 + 1)) ;;
  c <- deref (GetAtom mol (i2 + 1)) ;;
  d <- deref (GetAtom mol (i3 + 1)) ;;
  if HasGroups ff && negb (in_one_intraGroup ff [a; b; c; d]) then Ok ([], loc)
  else
    bc <- deref (GetBond mol b c) ;;
    let torsiontype := effective_bond_order bc in
    parameterB <- parameter_of ff b ;;
    parameterC <- parameter_of ff c ;;
    tb <- atom mol b ;;
    tc <- atom mol c ;;
    loc' <- torsion_table parameterB parameterC (GetAtomicNum tb) (GetAtomicNum tc)
                          torsiontype loc ;;
    if IsNearZero (loc_V loc') IsNearZero_default then Ok ([], loc')
    else
      let cosNPhi0 := cos (IZR (loc_n loc') * DEG_TO_RAD * loc_phi0 loc') in
      Ok ([TorsionCalc.mk a b c d (loc_n loc') torsiontype (loc_V loc') cosNPhi0], loc').

Fixpoint setup_torsions (ff : OBForceFieldUFF) (loc : torsion_locals)
         (ts : list (nat * nat * nat * nat)) : result (list TorsionCalc.t) :=
  match ts with
  | [] => Ok []
  | t :: ts' =>
      '(r, loc') <- setup_torsion ff loc t ;;
      rs <- setup_torsions ff loc' ts' ;;
      Ok (r ++ rs)
  end.

(** The elements that have an inversion term. *)
Definition oop_element (num : nat) : bool :=
  Nat.eqb num 6 || Nat.eqb num 7 || Nat.eqb num 8 || Nat.eqb num 15
  || Nat.eqb num 33 || Nat.eqb num 51 || Nat.eqb num 83.

Definition oop_type_NO (ty : string) : bool :=
  EQn ty "N_3" 3 || EQn ty "N_2" 3 || EQn ty "N_R" 3 || EQn ty "O_2" 3 || EQn ty "O_R" 3.

Definition oop_type_P (ty : string) : bool :=
  EQn ty "P_3+3" 5 || EQn ty "As3+3" 5 || EQn ty "Sb3+3" 5 || EQn ty "Bi3+3" 5.

Definition oop_type_C (ty : string) : bool :=
  EQn ty "C_2" 3 || EQn ty "C_R" 3.

(** The atom passes the element switch and the type tests of the OOP loop. *)
Definition oop_whitelisted (atm : OBAtom) : bool :=
  oop_element (GetAtomicNum atm)
  && (oop_type_NO (GetType atm) || oop_type_P (GetType atm) || oop_type_C (GetType atm)).

(** The loop over the neighbors: [a] is the first, [c] the second, [d] the
    last of the others; one of them stays null with fewer than three. *)
Definition oop_neighbors (nbrs : list nat) : option (nat * nat * nat) :=
  match nbrs with
  | a :: c :: d :: rest => Some (a, c, last rest d)
  | _ => None
  end.

Definition oop_phi (ty : string) : R :=
  if EQn ty "P_3+3" 5 then 84.4339 * DEG_TO_RAD
  else if EQn ty "As3+3" 5 then 86.9735 * DEG_TO_RAD
  else if EQn ty "Sb3+3" 5 then 87.7047 * DEG_TO_RAD
  else 90.0 * DEG_TO_RAD.

(** [c0], [c1], [c2] and [koop] before the division by three.  The carbon
    types get theirs after the group test, the others before it. *)
Definition oop_coefficients (ff : OBForceFieldUFF) (ty : string) (a c d : nat)
  : result (R * R * R * R) :=
  if oop_type_C ty then
    ta <- atom (_mol ff) a ;;
    tc <- atom (_mol ff) c ;;
    td <- atom (_mol ff) d ;;
    let koop :=
      if EQn (GetType ta) "O_2" 3 || EQn (GetType tc) "O_2" 3 || EQn (GetType td) "O_2" 3
      then 50.0 * KCAL_TO_KJ else 6.0 * KCAL_TO_KJ in
    Ok (1.0, -1.0, 0.0, koop)
  else if oop_type_NO ty then Ok (1.0, -1.0, 0.0, 6.0 * KCAL_TO_KJ)
  else
    let phi := oop_phi ty in
    let c1 := -4.0 * cos phi in
    let c2 := 1.0 in
    let c0 := -1.0 * c1 * cos phi + c2 * cos (2.0 * phi) in
    Ok (c0, c1, c2, 22.0 * KCAL_TO_KJ).

(** One pass of the loop over the atoms: the OOP records of center [b]. *)
Definition setup_oop (ff : OBForceFieldUFF) (b : nat) : result (list OOPCalc.t) :=
  tb <- atom (_mol ff) b ;;
  if negb (oop_whitelisted tb) then Ok []
  else
    match oop_neighbors (neighbors (_mol ff) b) with
    | None => Ok []
    | Some (a, c, d) =>
        if HasGroups ff && negb (in_one_intraGroup ff [a; b; c; d]) then Ok []
        else
          '(c0, c1, c2, koop) <- oop_coefficients ff (GetType tb) a c d ;;
          let koop := koop / 3.0 in
          Ok [OOPCalc.mk a b c d c0 c1 c2 koop;
              OOPCalc.mk d b c a c0 c1 c2 koop;
              OOPCalc.mk a b d c c0 c1 c2 koop]
    end.

Definition setup_vdw (ff : OBForceFieldUFF) (p : nat * nat) : result (list VDWCalc.t) :=
  let mol := _mol ff in
  a <- deref (GetAtom mol (fst p)) ;;
  b <- deref (GetAtom mol (snd p)) ;;
  if HasGroups ff && negb (in_interGroups ff a b) then Ok []
  else if IsConnected mol a b then Ok []
  else if IsOneThree mol a b then Ok []
  else
    pa <- parameter_of ff a ;;
    pb <- parameter_of ff b ;;
    parameterA <- deref pa ;;
    parameterB <- deref pb ;;
    let Ra := dpar parameterA 2 in
    let ka := dpar parameterA 3 in
    let Rb := dpar parameterB 2 in
    let kb := dpar parameterB 3 in
    let kab := KCAL_TO_KJ * sqrt (ka * kb) in
    let ka := sqrt (Ra * Rb) in
    Ok [VDWCalc.mk a b Ra ka Rb kb kab].

(** [SetupCalculations]: every list is cleared and rebuilt; the only
    [return] is [return true].  [loc0] is what the uninitialised
    [torsioncalc] and [phi0 = 0.0] hold before the first torsion. *)
Definition SetupCalculations (loc0 : torsion_locals) (ff : OBForceFieldUFF)
  : result (bool * OBForceFieldUFF) :=
  let mol := _mol ff in
  bl <- for_each (setup_bond ff) (mol_bonds mol) ;;
  al <- for_each (setup_angle ff) (mol_angles mol) ;;
  tl <- setup_torsions ff loc0 (mol_torsions mol) ;;
  ol <- for_each (setup_oop ff) (seq 1 (NumAtoms mol)) ;;
  vl <- for_each (setup_vdw ff) (mol_pairs mol) ;;
  Ok (true, set_calculations bl al tl ol vl ff).

Definition setup_electrostatic (ff : OBForceFieldUFF) (p : nat * nat)
  : result (list EleCalc.t) :=
  let mol := _mol ff in
  a <- deref (GetAtom mol (fst p)) ;;
  b <- deref (GetAtom mol (snd p)) ;;
  if HasGroups ff && negb (in_interGroups ff a b) then Ok []
  else if IsConnected mol a b then Ok []
  else if IsOneThree mol a b then Ok []
  else
    ta <- atom mol a ;;
    tb <- atom mol b ;;
    let qq := KCAL_TO_KJ * 332.0637 * GetPartialCharge ta * GetPartialCharge tb in
    if Rneqb qq 0 then Ok [EleCalc.mk a b qq] else Ok [].

Definition SetupElectrostatics (ff : OBForceFieldUFF) : result (bool * OBForceFieldUFF) :=
  el <- for_each (setup_electrostatic ff) (mol_pairs (_mol ff)) ;;
  Ok (true, set_electrostaticcalculations el ff).

(** ** The UFF force field: energy terms *)

Section UFFEnergy.

(** The geometric helpers of OBVectorMath: the distance or the angle (in
    degrees, possibly not finite) and the derivative vectors. *)
Variable VectorBondDerivative : Vec -> Vec -> R * Vec * Vec.
Variable VectorDistanceDerivative : Vec -> Vec -> R * Vec * Vec.
Variable VectorAngle : Vec -> Vec -> double.
Variable VectorAngleDerivative : Vec -> Vec -> Vec -> double * Vec * Vec * Vec.
Variable VectorTorsionDerivative :
  Vec -> Vec -> Vec -> Vec -> double * Vec * Vec * Vec * Vec.
Variable VectorOOP : Vec -> Vec -> Vec -> Vec -> double.
Variable VectorOOPDerivative :
  Vec -> Vec -> Vec -> Vec -> double * Vec * Vec * Vec * Vec.

(** The bits of [m_terms]. *)
Variables BondTerm AngleTerm TorsionTerm OOPTerm VDWTerm : Z.

(** [GetPositions()[idx]] and [GetGradients()[idx] += F]. *)
Definition position (positions : list Vec) (idx : nat) : Vec :=
  nth idx positions Vector3d.Zero.
Definition add_gradient (idx : nat) (F : Vec) (g : list Vec) : list Vec :=
  set_nth idx (Vector3d.add (nth idx g Vector3d.Zero) F) g.

(** The loop of a term: energies are summed, gradients accumulated. *)
Definition sum_terms {A : Type} (term : A -> list Vec -> R * list Vec)
           (calcs : list A) (g : list Vec) : R * list Vec :=
  fold_left (fun acc i => let '(e, g') := term i (snd acc) in (fst acc + e, g'))
            calcs (0.0, g).

(** *** Bond stretching *)

Definition bond_term (gradients : bool) (positions : list Vec) (i : BondCalc.t)
           (g : list Vec) : R * list Vec :=
  let idxA := (BondCalc.a i - 1)%nat in
  let idxB := (BondCalc.b i - 1)%nat in
  let pa := position positions idxA in
  let pb := position positions idxB in
  if gradients then
    let '(rab, Fa, Fb) := VectorBondDerivative pa pb in
    let delta := rab - BondCalc.r0 i in
    let e := BondCalc.kb i * (delta * delta) in
    let dE := 2.0 * BondCalc.kb i * delta in
    (e, add_gradient idxB (Vector3d.scale Fb dE)
          (add_gradient idxA (Vector3d.scale Fa dE) g))
  else
    let rab := Vector3d.norm (Vector3d.sub pa pb) in
    let delta := rab - BondCalc.r0 i in
    (BondCalc.kb i * (delta * delta), g).

Definition E_Bond (gradients : bool) (ff : OBForceFieldUFF) (g : list Vec)
  : R * list Vec :=
  sum_terms (bond_term gradients (ff_positions ff)) (_bondcalculations ff) g.

(** *** Angle bending *)

Definition angle_energy (i : AngleCalc.t) (theta : R) : R :=
  let cosT := cos theta in
  let ka := AngleCalc.ka i in
  if Z.eqb (AngleCalc.coord i) 1 then ka * (1.0 + cosT)
  else if Z.eqb (AngleCalc.coord i) 2 then
    (ka / 4.5) * (1.0 + (1.0 + cosT) * (4.0 * cosT))
  else if Z.eqb (AngleCalc.coord i) 4 || Z.eqb (AngleCalc.coord i) 6 then
    ka * (1.0 + cosT) * cosT * cosT
  else
    ka * (AngleCalc.c0 i + AngleCalc.c1 i * cosT
          + AngleCalc.c2 i * (2.0 * cosT * cosT - 1.0)).

Definition angle_dE (i : AngleCalc.t) (theta : R) : R :=
  let cosT := cos theta in
  let sinT := sin theta in
  let ka := AngleCalc.ka i in
  if Z.eqb (AngleCalc.coord i) 1 then - (ka * sinT)
  else if Z.eqb (AngleCalc.coord i) 2 then
    - (ka * 4.0 / 4.5) * (sinT + sin (2.0 * theta))
  else if Z.eqb (AngleCalc.coord i) 4 || Z.eqb (AngleCalc.coord i) 6 then
    - (ka * cosT * (2.0 + 3.0 * cosT) * sinT)
  else
    - (ka * (AngleCalc.c1 i * sinT + 2.0 * AngleCalc.c2 i * sin (2.0 * theta))).

(** [theta] after [if (!isfinite(theta)) theta = 0.0]. *)
Definition angle_theta (raw : double) : R :=
  finite_or (dmul raw (Finite DEG_TO_RAD)) 0.0.

Definition angle_term (gradients : bool) (positions : list Vec) (i : AngleCalc.t)
           (g : list Vec) : R * list Vec :=
  let idxA := (AngleCalc.a i - 1)%nat in
  let idxB := (AngleCalc.b i - 1)%nat in
  let idxC := (AngleCalc.c i - 1)%nat in
  let pa := position positions idxA in
  let pb := position positions idxB in
  let pc := position positions idxC in
  if gradients then
    let '(raw, Fa, Fb, Fc) := VectorAngleDerivative pa pb pc in
    let theta := angle_theta raw in
    let dE := angle_dE i theta in
    (angle_energy i theta,
     add_gradient idxC (Vector3d.scale Fc dE)
       (add_gradient idxB (Vector3d.scale Fb dE)
          (add_gradient idxA (Vector3d.scale Fa dE) g)))
  else
    let ab := Vector3d.sub pa pb in
    let bc := Vector3d.sub pc pb in
    let theta := angle_theta (VectorAngle ab bc) in
    (angle_energy i theta, g).

Definition E_Angle (gradients : bool) (ff : OBForceFieldUFF) (g : list Vec)
  : R * list Vec :=
  sum_terms (angle_term gradients (ff_positions ff)) (_anglecalculations ff) g.

(** *** Torsion *)

Definition torsion_energy (i : TorsionCalc.t) (tor : R) : R :=
  let cosine := cos (tor * IZR (TorsionCalc.n i)) in
  TorsionCalc.V i * (1.0 - TorsionCalc.cosNPhi0 i * cosine).

Definition torsion_dE (i : TorsionCalc.t) (tor : R) : R :=
  - (TorsionCalc.V i * IZR (TorsionCalc.n i) * TorsionCalc.cosNPhi0 i
     * sin (IZR (TorsionCalc.n i) * tor)).

(** With gradients: [if (!isfinite(tor)) tor = 1.0e-3; tor *= DEG_TO_RAD]. *)
Definition torsion_tor_gradients (raw : double) : R :=
  finite_or raw 0.001 * DEG_TO_RAD.

(** Without gradients: the angle between the two normals, from [acos]. *)
Definition torsion_acos (pa pb pc pd : Vec) : R * double :=
  let vab := Vector3d.sub pa pb in
  let vbc := Vector3d.sub pb pc in
  let vcd := Vector3d.sub pc pd in
  let abbc := Vector3d.cross vab vbc in
  let bccd := Vector3d.cross vbc vcd in
  let dotAbbcBccd := Vector3d.dot abbc bccd in
  (dotAbbcBccd,
   dacos (ddiv (Finite dotAbbcBccd)
               (Finite (Vector3d.norm abbc * Vector3d.norm bccd)))).

(** [tor] after the test [IsNearZero(dotAbbcBccd) || !isfinite(tor)]. *)
Definition torsion_tor_value (dotAbbcBccd : R) (tor : double) : R :=
  match tor with
  | NonFinite => 0.001
  | Finite t =>
      if IsNearZero dotAbbcBccd IsNearZero_default then 0.001
      else if Rgtb dotAbbcBccd 0.0 then - t
      else t
  end.

Definition torsion_term (gradients : bool) (positions : list Vec) (i : TorsionCalc.t)
           (g : list Vec) : R * list Vec :=
  let idxA := (TorsionCalc.a i - 1)%nat in
  let idxB := (TorsionCalc.b i - 1)%nat in
  let idxC := (TorsionCalc.c i - 1)%nat in
  let idxD := (TorsionCalc.d i - 1)%nat in
  let pa := position positions idxA in
  let pb := position positions idxB in
  let pc := position positions idxC in
  let pd := position positions idxD in
  if gradients then
    let '(raw, Fa, Fb, Fc, Fd) := VectorTorsionDerivative pa pb pc pd in
    let tor := torsion_tor_gradients raw in
    let dE := torsion_dE i tor in
    (torsion_energy i tor,
     add_gradient idxD (Vector3d.scale Fd dE)
       (add_gradient idxC (Vector3d.scale Fc dE)
          (add_gradient idxB (Vector3d.scale Fb dE)
             (add_gradient idxA (Vector3d.scale Fa dE) g))))
  else
    let '(dotAbbcBccd, raw) := torsion_acos pa pb pc pd in
    (torsion_energy i (torsion_tor_value dotAbbcBccd raw), g).

Definition E_Torsion (gradients : bool) (ff : OBForceFieldUFF) (g : list Vec)
  : R * list Vec :=
  sum_terms (torsion_term gradients (ff_positions ff)) (_torsioncalculations ff) g.

(** *** Out-of-plane bending *)

Definition oop_energy (i : OOPCalc.t) (angle : R) : R :=
  OOPCalc.koop i
  * (OOPCalc.c0 i + OOPCalc.c1 i * cos angle + OOPCalc.c2 i * cos (2.0 * angle)).

Definition oop_dE (i : OOPCalc.t) (angle : R) : R :=
  OOPCalc.koop i
  * (OOPCalc.c1 i * sin angle + 2.0 * OOPCalc.c2 i * sin (2.0 * angle)).

(** [angle] after [if (!isfinite(angle)) angle = 0.0]. *)
Definition oop_angle (raw : double) : R :=
  finite_or (dmul raw (Finite DEG_TO_RAD)) 0.0.

Definition oop_term (gradients : bool) (positions : list Vec) (i : OOPCalc.t)
           (g : list Vec) : R * list Vec :=
  let idxA := (OOPCalc.a i - 1)%nat in
  let idxB := (OOPCalc.b i - 1)%nat in
  let idxC := (OOPCalc.c i - 1)%nat in
  let idxD := (OOPCalc.d i - 1)%nat in
  let pa := position positions idxA in
  let pb := position positions idxB in
  let pc := position positions idxC in
  let pd := position positions idxD in
  if gradients then
    let '(raw, Fa, Fb, Fc, Fd) := VectorOOPDerivative pa pb pc pd in
    let angle := oop_angle raw in
    let dE := oop_dE i angle in
    (oop_energy i angle,
     add_gradient idxD (Vector3d.scale Fd dE)
       (add_gradient idxC (Vector3d.scale Fc dE)
          (add_gradient idxB (Vector3d.scale Fb dE)
             (add_gradient idxA (Vector3d.scale Fa dE) g))))
  else
    let angle := oop_angle (VectorOOP pa pb pc pd) in
    (oop_energy i angle, g).

Definition E_OOP (gradients : bool) (ff : OBForceFieldUFF) (g : list Vec)
  : R * list Vec :=
  sum_terms (oop_term gradients (ff_positions ff)) (_oopcalculations ff) g.

(** *** Non-bonded terms *)

(** The distance of a pair and its derivative vectors, with
    [if (IsNearZero(rab, 1.0e-3)) rab = 1.0e-3]. *)
Definition pair_distance (gradients : bool) (pa pb : Vec) : R * Vec * Vec :=
  let '(rab, Fa, Fb) :=
    if gradients then VectorDistanceDerivative pa pb
    else (Vector3d.norm (Vector3d.sub pa pb), Vector3d.Zero, Vector3d.Zero) in
  ((if IsNearZero rab 0.001 then 0.001 else rab), Fa, Fb).

Definition vdw_term (gradients : bool) (positions : list Vec) (i : VDWCalc.t)
           (g : list Vec) : R * list Vec :=
  let idxA := (VDWCalc.a i - 1)%nat in
  let idxB := (VDWCalc.b i - 1)%nat in
  let '(rab, Fa, Fb) :=
    pair_distance gradients (position positions idxA) (position positions idxB) in
  let term := VDWCalc.ka i / rab in
  let term6 := term * term * term in
  let term6 := term6 * term6 in
  let term12 := term6 * term6 in
  let e := VDWCalc.kab i * (term12 - 2.0 * term6) in
  if gradients then
    let term13 := term * term12 in
    let term7 := term * term6 in
    let dE := VDWCalc.kab i * 12.0 * (term7 / VDWCalc.ka i - term13 / VDWCalc.ka i) in
    (e, add_gradient idxB (Vector3d.scale Fb dE)
          (add_gradient idxA (Vector3d.scale Fa dE) g))
  else (e, g).

(** The cut-off test on record number [j]: a record whose bit is not set
    is skipped. *)
Definition with_cutoff {A : Type} (enabled : bool) (pairs : OBBitVec)
           (term : A -> list Vec -> R * list Vec) (ji : nat * A) (g : list Vec)
  : R * list Vec :=
  if enabled && negb (BitIsOn pairs (fst ji)) then (0.0, g) else term (snd ji) g.

Definition numbered {A : Type} (l : list A) : list (nat * A) :=
  combine (seq 0 (List.length l)) l.

Definition E_VDW (gradients : bool) (ff : OBForceFieldUFF) (g : list Vec)
  : R * list Vec :=
  sum_terms (with_cutoff (IsCutOffEnabled ff) (VDWPairs ff)
                         (vdw_term gradients (ff_positions ff)))
            (numbered (_vdwcalculations ff)) g.

Definition electrostatic_term (gradients : bool) (positions : list Vec)
           (i : EleCalc.t) (g : list Vec) : R * list Vec :=
  let idxA := (EleCalc.a i - 1)%nat in
  let idxB := (EleCalc.b i - 1)%nat in
  let '(rab, Fa, Fb) :=
    pair_distance gradients (position positions idxA) (position positions idxB) in
  let e := EleCalc.qq i / rab in
  if gradients then
    let rab2 := rab * rab in
    let dE := - (EleCalc.qq i / rab2) in
    (e, add_gradient idxB (Vector3d.scale Fb dE)
          (add_gradient idxA (Vector3d.scale Fa dE) g))
  else (e, g).

Definition E_Electrostatic (gradients : bool) (ff : OBForceFieldUFF) (g : list Vec)
  : R * list Vec :=
  sum_terms (with_cutoff (IsCutOffEnabled ff) (ElePairs ff)
                         (electrostatic_term gradients (ff_positions ff)))
            (numbered (_electrostaticcalculations ff)) g.

(** *** Energy *)

(** [m_terms & Term]. *)
Definition term_enabled (ff : OBForceFieldUFF) (term : Z) : bool :=
  negb (Z.eqb (Z.land (m_terms ff) term) 0).

Definition ClearGradients (g : list Vec) : list Vec :=
  map (fun _ => Vector3d.Zero) g.

(** The total energy and the gradient array it leaves.  The call of
    [E_Electrostatic] is commented out in the source. *)
Definition Energy (gradients : bool) (ff : OBForceFieldUFF) : R * list Vec :=
  let energy := 0.0 in
  let g := if gradients then ClearGradients (ff_gradients ff) else ff_gradients ff in
  let '(energy, g) :=
    if term_enabled ff BondTerm
    then E_Bond gradients ff g
    else (energy, g) in
  let '(energy, g) :=
    if term_enabled ff AngleTerm
    then let '(e, g') := E_Angle gradients ff g in (energy + e, g')
    else (energy, g) in
  let '(energy, g) :=
    if term_enabled ff TorsionTerm
    then let '(e, g') := E_Torsion gradients ff g in (energy + e, g')
    else (energy, g) in
  let '(energy, g) :=
    if term_enabled ff OOPTerm
    then let '(e, g') := E_OOP gradients ff g in (energy + e, g')
    else (energy, g) in
  let '(energy, g) :=
    if term_enabled ff VDWTerm
    then let '(e, g') := E_VDW gradients ff g in (energy + e, g')
    else (energy, g) in
  (energy, g).

End UFFEnergy.

(** ** The bond and pair terms as functions of the distance

    What [E_Bond], [E_VDW] and [E_Electrostatic] compute for one record
    once [rab] is known. *)

Definition bond_energy (i : BondCalc.t) (rab : R) : R :=
  let delta := rab - BondCalc.r0 i in
  BondCalc.kb i * (delta * delta).

Definition bond_dE (i : BondCalc.t) (rab : R) : R :=
  let delta := rab - BondCalc.r0 i in
  2.0 * BondCalc.kb i * delta.

Definition vdw_energy (i : VDWCalc.t) (rab : R) : R :=
  let term := VDWCalc.ka i / rab in
  let term6 := term * term * term in
  let term6 := term6 * term6 in
  let term12 := term6 * term6 in
  VDWCalc.kab i * (term12 - 2.0 * term6).

Definition vdw_dE (i : VDWCalc.t) (rab : R) : R :=
  let term := VDWCalc.ka i / rab in
  let term6 := term * term * term in
  let term6 := term6 * term6 in
  let term12 := term6 * term6 in
  let term13 := term * term12 in
  let term7 := term * term6 in
  VDWCalc.kab i * 12.0 * (term7 / VDWCalc.ka i - term13 / VDWCalc.ka i).

Definition electrostatic_energy (i : EleCalc.t) (rab : R) : R :=
  EleCalc.qq i / rab.

Definition electrostatic_dE (i : EleCalc.t) (rab : R) : R :=
  let rab2 := rab * rab in
  - (EleCalc.qq i / rab2).

(** [if (IsNearZero(rab, 1.0e-3)) rab = 1.0e-3]. *)
Definition clamp_distance (rab : R) : R :=
  if IsNearZero rab 0.001 then 0.001 else rab.

(** ** The UFF force field: ParseParamFile and SetTypes

    Both read UFF.prm line by line.  The file is the list of the lines that
    [getline] delivers, or nothing when [OpenDatafile] fails.  [tokenize]
    (openbabel), [atof] (libc) and the SMARTS matcher are not part of the
    sources: they are parameters. *)

Definition set_ffparams (params : list OBFFParameter) (ff : OBForceFieldUFF)
  : OBForceFieldUFF :=
  mkUFF (_mol ff) params (HasGroups ff) (_intraGroup ff) (_interGroup ff)
        (_interGroups ff) (_bondcalculations ff) (_anglecalculations ff)
        (_torsioncalculations ff) (_oopcalculations ff) (_vdwcalculations ff)
        (_electrostaticcalculations ff) (ff_positions ff) (ff_gradients ff) (m_terms ff)
        (IsCutOffEnabled ff) (VDWPairs ff) (ElePairs ff).

(** The [switch] on the third character of the atom type. *)
Definition coordination_of_char (coord : Ascii.ascii) : Z :=
  if Ascii.eqb coord "1"%char then 1
  else if Ascii.eqb coord "2"%char || Ascii.eqb coord "R"%char then 2
  else if Ascii.eqb coord "3"%char then 3
  else if Ascii.eqb coord "4"%char then 4
  else if Ascii.eqb coord "5"%char then 5
  else if Ascii.eqb coord "6"%char then 6
  else if Ascii.eqb coord "7"%char then 7
  else 1.

(** [vs[1][2]]: the third character, the terminator (which falls to the
    default of the switch) for a type of two characters; undefined for a
    shorter one, where the evaluation stops as it does at a null pointer. *)
Definition third_char (ty : string) : result Ascii.ascii :=
  match String.get 2 ty with
  | Some c => Ok c
  | None => if Nat.eqb (String.length ty) 2 then Ok Ascii.zero else NullDeref
  end.

Section ParamFile.

Variable tokenize : string -> list string.
Variable atof : string -> R.

(** One pass of the [while (ifs.getline(...))] loop: the entry pushed, if
    any. *)
Definition parse_param_line (buffer : string) : result (list OBFFParameter) :=
  let vs := tokenize buffer in
  if (List.length vs <? 13)%nat then Ok []
  else if EQn buffer "param" 5 then
    let ty := nth 1 vs EmptyString in
    coord <- third_char ty ;;
    Ok [mkParameter ty (map (fun k => atof (nth k vs EmptyString)) (seq 2 11))
                    [coordination_of_char coord]]
  else Ok [].

(** The function ends with [return 0]. *)
Definition ParseParamFile (file : option (list string)) (ff : OBForceFieldUFF)
  : result (bool * OBForceFieldUFF) :=
  match file with
  | None => Ok (false, ff)
  | Some lines =>
      entries <- for_each parse_param_line lines ;;
      Ok (false, set_ffparams (_ffparams ff ++ entries) ff)
  end.

End ParamFile.

Section AtomTyping.

Variable tokenize : string -> list string.

(** [OBSmartsPattern]: [Init] parses a SMARTS string, [Match] followed by
    [GetMapList] gives the maps of the pattern onto the molecule (none
    when there is no match). *)
Variable OBSmartsPattern : Type.
Variable Init : string -> option OBSmartsPattern.
Variable Match : OBSmartsPattern -> OBMol -> list (list nat).

(** [vs[k]] past the end of the vector is undefined: the evaluation stops. *)
Definition token (vs : list string) (k : nat) : result string :=
  deref (nth_error vs k).

(** The first loop: the rules of the "atom" lines, or nothing when a
    pattern does not parse ([return false]). *)
Fixpoint read_type_rules (lines : list string)
  : result (option (list (OBSmartsPattern * string))) :=
  match lines with
  | [] => Ok (Some [])
  | buffer :: lines' =>
      if EQn buffer "atom" 4 then
        let vs := tokenize buffer in
        smarts <- token vs 1 ;;
        match Init smarts with
        | Some sp =>
            ty <- token vs 2 ;;
            rest <- read_type_rules lines' ;;
            Ok (option_map (cons (sp, ty)) rest)
        | None => Ok None
        end
      else read_type_rules lines'
  end.

Definition SetType (ty : string) (atm : OBAtom) : OBAtom :=
  mkAtom (GetAtomicNum atm) ty (GetPartialCharge atm).

(** [GetAtom(...)->SetType(type)] on the first atom of the map [j]. *)
Definition set_atom_type (ty : string) (mol : OBMol) (j : list nat) : result OBMol :=
  first <- deref (nth_error j 0) ;;
  a <- deref (GetAtom mol first) ;;
  atm <- atom mol a ;;
  Ok (mkMol (set_nth (a - 1) (SetType ty atm) (mol_atoms mol))
            (mol_bonds mol) (mol_angles mol) (mol_torsions mol) (mol_pairs mol)).

Fixpoint set_atom_types (ty : string) (mol : OBMol) (mlist : list (list nat))
  : result OBMol :=
  match mlist with
  | [] => Ok mol
  | j :: mlist' =>
      mol' <- set_atom_type ty mol j ;;
      set_atom_types ty mol' mlist'
  end.

(** The atom [a] is the first atom of one of the maps. *)
Definition typed_by (mlist : list (list nat)) (a : nat) : bool :=
  existsb (fun j => match j with
                    | first :: _ => Nat.eqb first a
                    | [] => false
                    end) mlist.

(** The second loop: the rules are applied in the order of the file. *)
Fixpoint apply_type_rules (rules : list (OBSmartsPattern * string)) (mol : OBMol)
  : result OBMol :=
  match rules with
  | [] => Ok mol
  | (sp, ty) :: rules' =>
      mol' <- set_atom_types ty mol (Match sp mol) ;;
      apply_type_rules rules' mol'
  end.

Definition SetTypes (file : option (list string)) (mol : OBMol) : result (bool * OBMol) :=
  match file with
  | None => Ok (false, mol)
  | Some lines =>
      rules <- read_type_rules lines ;;
      match rules with
      | None => Ok (false, mol)
      | Some rules' =>
          mol' <- apply_type_rules rules' mol ;;
          Ok (true, mol')
      end
  end.

End AtomTyping.

Arguments read_type_rules tokenize {OBSmartsPattern} Init lines.
Arguments apply_type_rules {OBSmartsPattern} Match rules mol.
Arguments SetTypes tokenize {OBSmartsPattern} Init Match file mol.

(** ** The host side of the OpenCL electrostatic term (electro_opencl.cpp) *)

(** [a->IsOneFour(b)] of openbabel: a neighbor of [a] is bonded to a
    neighbor of [b]. *)
Definition IsOneFour (mol : OBMol) (a b : nat) : bool :=
  existsb (fun n1 => existsb (fun n2 => IsConnected mol n1 n2) (neighbors mol b))
          (neighbors mol a).

Record MMFF94ElectroTermOpenCL : Type := mkElectroTerm {
  m_selfPairs : list (nat * nat);
  m_oneFourPairs : list (nat * nat)
}.

(** The pairs [(i, j)] in the order of the double loop. *)
Definition index_pairs (numAtoms : nat) : list (nat * nat) :=
  flat_map (fun i => map (fun j => (i, j)) (seq 0 numAtoms)) (seq 0 numAtoms).

(** The body of the double loop.  [mol.GetAtom(i+1)] is not null for
    [i < numAtoms]; the atom pointers are the indices [i + 1], [j + 1]. *)
Definition InitSelfPairs_body (mol : OBMol) (term : MMFF94ElectroTermOpenCL)
           (ij : nat * nat) : MMFF94ElectroTermOpenCL :=
  let '(i, j) := ij in
  if Nat.eqb i j then mkElectroTerm (m_selfPairs term ++ [(i, j)]) (m_oneFourPairs term)
  else
    let a := (i + 1)%nat in
    let b := (j + 1)%nat in
    if IsConnected mol a b
    then mkElectroTerm (m_selfPairs term ++ [(i, j)]) (m_oneFourPairs term)
    else if IsOneThree mol a b
    then mkElectroTerm (m_selfPairs term ++ [(i, j)]) (m_oneFourPairs term)
    else if IsOneFour mol a b
    then mkElectroTerm (m_selfPairs term) (m_oneFourPairs term ++ [(i, j)])
    else term.

Definition InitSelfPairs (mol : OBMol) (term : MMFF94ElectroTermOpenCL)
  : MMFF94ElectroTermOpenCL :=
  fold_left (InitSelfPairs_body mol) (index_pairs (NumAtoms mol)) term.

(** The pairs that [InitSelfPairs] files under [m_selfPairs], and under
    [m_oneFourPairs]. *)
Definition self_kind (mol : OBMol) (ij : nat * nat) : bool :=
  Nat.eqb (fst ij) (snd ij)
  || IsConnected mol (fst ij + 1) (snd ij + 1)
  || IsOneThree mol (fst ij + 1) (snd ij + 1).
Definition one_four_kind (mol : OBMol) (ij : nat * nat) : bool :=
  negb (self_kind mol ij) && IsOneFour mol (fst ij + 1) (snd ij + 1).

(** How a function ends: it returns, [std::vector::at] throws
    [std::out_of_range], or its behaviour is undefined: [operator[]] is
    used past the end of a vector, or control flows off the end of a
    function that returns a value. *)
Inductive outcome (A : Type) : Type :=
| Returns (a : A)
| Throws
| Undefined.

Arguments Returns {A} a.
Arguments Throws {A}.
Arguments Undefined {A}.

Definition and_also {A B : Type} (o : outcome A) (k : A -> outcome B) : outcome B :=
  match o with
  | Returns a => k a
  | Throws => Throws
  | Undefined => Undefined
  end.

(** [v.at(i)]. *)
Definition at_ {A : Type} (v : list A) (i : nat) : outcome A :=
  match nth_error v i with
  | Some a => Returns a
  | None => Throws
  end.

(** [v[i] += F]. *)
Definition add_at (i : nat) (F : Vec) (v : list Vec) : outcome (list Vec) :=
  match nth_error v i with
  | Some g => Returns (set_nth i (Vector3d.add g F) v)
  | None => Undefined
  end.

(** One pass of the first loop of [ComputeSelfGradients]. *)
Definition self_pair_gradient (charges : list R) (positions : list Vec)
           (acc : R * list Vec) (ij : nat * nat) : outcome (R * list Vec) :=
  let '(i, j) := ij in
  and_also (at_ positions i) (fun ai =>
  and_also (at_ positions j) (fun aj =>
  let r := Vector3d.sub ai aj in
  let dist := Vector3d.norm r + 0.05 in
  let dist2 := dist * dist in
  and_also (at_ charges i) (fun qi =>
  and_also (at_ charges j) (fun qj =>
  let QiQj := qi * qj in
  let e := QiQj / dist in
  let dE := 332.0716 * QiQj / (dist2 * dist) in
  and_also (add_at i (Vector3d.scale r dE) (snd acc)) (fun g1 =>
  and_also (add_at j (Vector3d.scale r (- dE)) g1) (fun g2 =>
  Returns (fst acc + e, g2))))))).

(** One pass of the second loop. *)
Definition one_four_pair_gradient (charges : list R) (positions : list Vec)
           (acc : R * list Vec) (ij : nat * nat) : outcome (R * list Vec) :=
  let '(i, j) := ij in
  and_also (at_ positions i) (fun ai =>
  and_also (at_ positions j) (fun aj =>
  let r := Vector3d.sub ai aj in
  let dist := Vector3d.norm r + 0.05 in
  let dist2 := dist * dist in
  and_also (at_ charges i) (fun qi =>
  and_also (at_ charges j) (fun qj =>
  let QiQj := qi * qj in
  let e := QiQj / dist in
  let dE := - 0.25 * 332.0716 * QiQj / dist2 in
  and_also (add_at i (Vector3d.scale r dE) (snd acc)) (fun g1 =>
  and_also (add_at j (Vector3d.scale r (- dE)) g1) (fun g2 =>
  Returns (fst acc + 0.25 * e, g2))))))).

Fixpoint loop_pairs (body : R * list Vec -> nat * nat -> outcome (R * list Vec))
         (pairs : list (nat * nat)) (acc : R * list Vec) : outcome (R * list Vec) :=
  match pairs with
  | [] => Returns acc
  | ij :: pairs' => and_also (body acc ij) (loop_pairs body pairs')
  end.

(** The energy returned and the gradient array left. *)
Definition ComputeSelfGradients (term : MMFF94ElectroTermOpenCL) (charges : list R)
           (positions gradients : list Vec) : outcome (R * list Vec) :=
  and_also (loop_pairs (self_pair_gradient charges positions) (m_selfPairs term)
                       (0.0, gradients))
           (loop_pairs (one_four_pair_gradient charges positions) (m_oneFourPairs term)).

(** [electroEnergy] computes [e] and ends there: it has no [return]
    statement, and flowing off the end of a function declared to return a
    [double] is undefined. *)
Definition electroEnergy (ai aj : Vec) (qi qj : R) : outcome R :=
  let r := Vector3d.sub ai aj in
  let dist := Vector3d.norm r + 0.05 in
  let e := qi * qj / dist in
  Undefined.

(** One pass of the loop of [ComputeTotalEnergy] and of the first loop of
    [ComputeSelfEnergy]: [E += electroEnergy(ai, aj, charges.at(i),
    charges.at(j))]. *)
Definition self_pair_energy (charges : list R) (positions : list Vec)
           (E : R) (ij : nat * nat) : outcome R :=
  let '(i, j) := ij in
  and_also (at_ positions i) (fun ai =>
  and_also (at_ positions j) (fun aj =>
  and_also (at_ charges i) (fun qi =>
  and_also (at_ charges j) (fun qj =>
  and_also (electroEnergy ai aj qi qj) (fun e =>
  Returns (E + e)))))).

(** One pass of the second loop of [ComputeSelfEnergy]. *)
Definition one_four_pair_energy (charges : list R) (positions : list Vec)
           (E : R) (ij : nat * nat) : outcome R :=
  let '(i, j) := ij in
  and_also (at_ positions i) (fun ai =>
  and_also (at_ positions j) (fun aj =>
  and_also (at_ charges i) (fun qi =>
  and_also (at_ charges j) (fun qj =>
  and_also (electroEnergy ai aj qi qj) (fun e =>
  Returns (E + 0.25 * e)))))).

Fixpoint loop_energy (body : R -> nat * nat -> outcome R)
         (pairs : list (nat * nat)) (E : R) : outcome R :=
  match pairs with
  | [] => Returns E
  | ij :: pairs' => and_also (body E ij) (loop_energy body pairs')
  end.

Definition ComputeTotalEnergy (charges : list R) (positions : list Vec) : outcome R :=
  let numAtoms := List.length charges in
  loop_energy (self_pair_energy charges positions) (index_pairs numAtoms) 0.0.

Definition ComputeSelfEnergy (term : MMFF94ElectroTermOpenCL) (charges : list R)
           (positions : list Vec) : outcome R :=
  and_also (loop_energy (self_pair_energy charges positions) (m_selfPairs term) 0.0)
           (loop_energy (one_four_pair_energy charges positions) (m_oneFourPairs term)).

(** None of the four [at] of a pass throws. *)
Definition reads_in_range (charges : list R) (positions : list Vec) (ij : nat * nat)
  : bool :=
  Nat.ltb (fst ij) (List.length positions) && Nat.ltb (snd ij) (List.length positions)
  && Nat.ltb (fst ij) (List.length charges) && Nat.ltb (snd ij) (List.length charges).

(** The sum of the vectors of an array. *)
Definition total (v : list Vec) : Vec := fold_right Vector3d.add Vector3d.Zero v.

(** What does not depend on the atom types. *)
Definition same_skeleton (mol mol' : OBMol) : Prop :=
  map GetAtomicNum (mol_atoms mol') = map GetAtomicNum (mol_atoms mol)
  /\ map GetPartialCharge (mol_atoms mol') = map GetPartialCharge (mol_atoms mol)
  /\ mol_bonds mol' = mol_bonds mol
  /\ mol_angles mol' = mol_angles mol
  /\ mol_torsions mol' = mol_torsions mol
  /\ mol_pairs mol' = mol_pairs mol.

(** ** Molecules on which the setup dereferences no null pointer

    Every atom type has an entry in the table; bonds, angles, torsions and
    pairs name atoms of the molecule, and the atoms of an angle or of the
    middle of a torsion are bonded. *)

Definition type_known (ff : OBForceFieldUFF) (t : OBAtom) : bool :=
  match GetParameterUFF (GetType t) (_ffparams ff) with
  | Some _ => true
  | None => false
  end.

Definition types_known (ff : OBForceFieldUFF) : bool :=
  forallb (type_known ff) (mol_atoms (_mol ff)).

Definition bonded (mol : OBMol) (a b : nat) : bool :=
  match GetBond mol a b with
  | Some _ => true
  | None => false
  end.

Definition angle_in_range (mol : OBMol) (angle : nat * nat * nat) : bool :=
  let '(i0, i1, i2) := angle in
  atom_in_range mol (i0 + 1) && atom_in_range mol (i1 + 1) && atom_in_range mol (i2 + 1)
  && bonded mol (i1 + 1) (i0 + 1) && bonded mol (i0 + 1) (i2 + 1).

Definition torsion_in_range (mol : OBMol) (t : nat * nat * nat * nat) : bool :=
  let '(i0, i1, i2, i3) := t in
  atom_in_range mol (i0 + 1) && atom_in_range mol (i1 + 1) && atom_in_range mol (i2 + 1)
  && atom_in_range mol (i3 + 1) && bonded mol (i1 + 1) (i2 + 1).

Definition pair_in_range (mol : OBMol) (p : nat * nat) : bool :=
  atom_in_range mol (fst p) && atom_in_range mol (snd p).

Definition well_formed (mol : OBMol) : bool :=
  bonds_in_range mol
  && forallb (angle_in_range mol) (mol_angles mol)
  && forallb (torsion_in_range mol) (mol_torsions mol)
  && forallb (pair_in_range mol) (mol_pairs mol).

(** ** What the optimizers keep up to date

    The energy stored in [d->e_n1], the value of the function and its
    gradient array are those of the current positions. *)
Definition minimizer_current (energy : list Vec -> R) (gradient : list Vec -> list Vec)
           (m : OBMinimize) : Prop :=
  e_n1 (d m) = energy (GetPositions m)
  /\ m_value (m_function m) = energy (GetPositions m)
  /\ GetGradients m = gradient (GetPositions m).

(** * Concrete inputs *)

(** An energy that grows linearly along the x axis of the first atom. *)
Definition energy_slope (k : R) (positions : list Vec) : R :=
  k * Vector3d.x (nth 0 positions Vector3d.Zero).

Definition no_gradient (positions : list Vec) : list Vec := [].

Definition unit_x : Vec := Vector3d.mk 1 0 0.

(** A function that is flat everywhere. *)
Definition flat_energy (positions : list Vec) : R := 0.
Definition zero_gradient (positions : list Vec) : list Vec :=
  map (fun _ => Vector3d.Zero) positions.

(** One atom at the origin; the energy stored in [d->e_n1] is [e]. *)
Definition one_atom_minimizer (e : R) : OBMinimize :=
  mkMinimize (mkFunction [Vector3d.Zero] [unit_x] 0)
             (mkPrivate 0.000001 e 0 100 [unit_x] 0).

(** Entries of UFF.prm: r1, theta0, x1, D1, zeta, Z1, Vi, Uj, Xi, Hard,
    Radius, and the coordination read off the type's third character. *)
Definition param_C_3 : OBFFParameter :=
  mkParameter "C_3" [0.757; 109.47; 3.851; 0.105; 12.73; 1.912; 2.119; 2.0; 5.343; 5.063; 0.759]
              [3%Z].
Definition param_C_2 : OBFFParameter :=
  mkParameter "C_2" [0.732; 120.0; 3.851; 0.105; 12.73; 1.912; 0.0; 2.0; 5.343; 5.063; 0.759]
              [2%Z].
Definition param_N_3 : OBFFParameter :=
  mkParameter "N_3" [0.700; 106.7; 3.660; 0.069; 13.407; 2.544; 0.450; 2.0; 6.899; 5.880; 0.715]
              [3%Z].
Definition param_O_2 : OBFFParameter :=
  mkParameter "O_2" [0.634; 120.0; 3.500; 0.060; 14.085; 2.300; 0.0; 2.0; 8.741; 6.682; 0.669]
              [2%Z].
Definition param_H_ : OBFFParameter :=
  mkParameter "H_" [0.354; 180.0; 2.886; 0.044; 12.0; 0.712; 0.0; 0.0; 4.528; 6.9452; 0.371]
              [1%Z].

Definition uff_table : list OBFFParameter :=
  [param_H_; param_C_3; param_C_2; param_N_3; param_O_2].

(** A force field on a molecule before any setup, without groups. *)
Definition fresh_forcefield (mol : OBMol) : OBForceFieldUFF :=
  mkUFF mol uff_table false [] [] [] [] [] [] [] [] [] [] [] 0 false [] [].

Definition carbon (q : R) : OBAtom := mkAtom 6 "C_3" q.
Definition hydrogen : OBAtom := mkAtom 1 "H_" 0.
Definition single (a b : nat) : OBBond := mkBond a b 1 false false.

(** What the locals of the torsion loop hold before the first torsion:
    [phi0 = 0.0], and here zeros for the uninitialised record. *)
Definition torsion_locals0 : torsion_locals := mkTorsionLocals 0 0 0.

(** A carbon bonded to an atom whose type "Xx" is not in the table. *)
Definition mol_unknown_type : OBMol :=
  mkMol [carbon 0; mkAtom 0 "Xx" 0] [single 1 2] [] [] [(1, 2)%nat].

(** A lone atom of a type that is not in the table. *)
Definition mol_lone_unknown : OBMol :=
  mkMol [mkAtom 0 "Xx" 0] [] [] [] [].

(** Ammonium: an N_3 center with four neighbors. *)
Definition mol_ammonium : OBMol :=
  mkMol [mkAtom 7 "N_3" 0; hydrogen; hydrogen; hydrogen; hydrogen]
        [single 1 2; single 1 3; single 1 4; single 1 5]
        [] [] [].

(** Formaldehyde: a C_2 center with three neighbors. *)
Definition mol_formaldehyde : OBMol :=
  mkMol [mkAtom 6 "C_2" 0; mkAtom 8 "O_2" 0; hydrogen; hydrogen]
        [mkBond 1 2 2 false false; single 1 3; single 1 4]
        [] [] [].

(** A P_3+3 center with three neighbors. *)
Definition mol_phosphine : OBMol :=
  mkMol [mkAtom 15 "P_3+3" 0; hydrogen; hydrogen; hydrogen]
        [single 1 2; single 1 3; single 1 4]
        [] [] [].

(** Formaldehyde with groups in force; the one intra-group holds only the
    carbon and the oxygen. *)
Definition formaldehyde_with_groups : OBForceFieldUFF :=
  mkUFF mol_formaldehyde uff_table true [[1; 2]%nat] [] [] [] [] [] [] [] [] [] [] 0
        false [] [].

(** The carbon chain of butane, with charges on the terminal carbons. *)
Definition mol_butane : OBMol :=
  mkMol [carbon 0.1; carbon 0; carbon 0; carbon 0.1]
        [single 1 2; single 2 3; single 3 4]
        [(1, 0, 2); (2, 1, 3)]%nat
        [(0, 1, 2, 3)%nat]
        [(1, 2); (1, 3); (1, 4); (2, 3); (2, 4); (3, 4)]%nat.

(** Geometric helpers on a degenerate geometry: no finite angle. *)
Definition degenerate_angle (ab bc : Vec) : double := NonFinite.
Definition degenerate_angle_derivative (a b c : Vec) : double * Vec * Vec * Vec :=
  (NonFinite, Vector3d.Zero, Vector3d.Zero, Vector3d.Zero).
Definition degenerate_dihedral (a b c d : Vec) : double := NonFinite.
Definition degenerate_dihedral_derivative (a b c d : Vec)
  : double * Vec * Vec * Vec * Vec :=
  (NonFinite, Vector3d.Zero, Vector3d.Zero, Vector3d.Zero, Vector3d.Zero).

(** Four atoms on one point, and records over them. *)
Definition coincident_positions : list Vec :=
  [Vector3d.Zero; Vector3d.Zero; Vector3d.Zero; Vector3d.Zero].
Definition sample_angle : AngleCalc.t :=
  AngleCalc.mk 1 2 3 3 1.912 1.912 109.47 (-0.3333) 0.3438 0.3750 0.2813 400.
Definition sample_torsion : TorsionCalc.t :=
  TorsionCalc.mk 1 2 3 4 3 1 4.436 (-1).
Definition sample_oop : OOPCalc.t :=
  OOPCalc.mk 1 2 3 4 1 (-1) 0 8.3736.

(** Records of the bond, Van der Waals and electrostatic lists, and an
    angle record at a center of coordination 1. *)
Definition sample_bond : BondCalc.t := BondCalc.mk 1 2 1 1.514 1466.4.
Definition sample_vdw : VDWCalc.t := VDWCalc.mk 1 4 3.851 3.851 3.851 0.105 0.4396.
Definition sample_ele : EleCalc.t := EleCalc.mk 1 4 13.9.
Definition linear_angle : AngleCalc.t :=
  AngleCalc.mk 1 2 3 1 1.912 1.912 180 (-1) 0 0 0 400.

(** A direction that moves the first of two atoms only. *)
Definition first_atom_only : list Vec := [unit_x; Vector3d.Zero].

(** A chain C-H-C-C: the torsion about the bond between the hydrogen
    (coordination 1) and a carbon, and locals left by an sp3-sp3 torsion. *)
Definition mol_hydrogen_bridge : OBMol :=
  mkMol [carbon 0; hydrogen; carbon 0; carbon 0]
        [single 1 2; single 2 3; single 3 4]
        [] [(0, 1, 2, 3)%nat] [].
Definition locals_after_sp3_sp3 : torsion_locals := mkTorsionLocals 3 1 60.

(** Butane with one record in each list, five gradient vectors, and all
    five terms switched on: no record names a fifth atom. *)
Definition forcefield_with_records : OBForceFieldUFF :=
  mkUFF mol_butane uff_table false [] [] []
        [sample_bond] [sample_angle] [sample_torsion] [sample_oop] [sample_vdw] []
        [Vector3d.Zero; unit_x; Vector3d.mk 1 1 0; Vector3d.mk 2 1 0; Vector3d.mk 2 2 0]
        [unit_x; unit_x; unit_x; unit_x; unit_x]
        31 false [] [].

(** A parameter file of three lines, a tokenizer that knows them, and a
    matcher for patterns that name one element. *)
Definition sample_file : list string :=
  ["atom [#6] C_3"; "atom [#1] H_";
   "param C_3 0.757 109.47 3.851 0.105 12.73 1.912 2.119 2.0 5.343 5.063 0.759"]%string.
Definition sample_tokenize (buffer : string) : list string :=
  if String.eqb buffer "atom [#6] C_3" then ["atom"; "[#6]"; "C_3"]%string
  else if String.eqb buffer "atom [#1] H_" then ["atom"; "[#1]"; "H_"]%string
  else if EQn buffer "param" 5
       then ["param"; "C_3"; "0.757"; "109.47"; "3.851"; "0.105"; "12.73"; "1.912";
             "2.119"; "2.0"; "5.343"; "5.063"; "0.759"]%string
       else [].
Definition sample_atof (token : string) : R := 0.
Definition element_pattern (smarts : string) : option nat :=
  if String.eqb smarts "[#6]" then Some 6%nat
  else if String.eqb smarts "[#1]" then Some 1%nat
  else None.
Definition match_element (element : nat) (mol : OBMol) : list (list nat) :=
  map (fun i => [i])
      (filter (fun i => Nat.eqb (nth (i - 1) (map GetAtomicNum (mol_atoms mol)) 0%nat)
                                element)
              (seq 1 (List.length (map GetAtomicNum (mol_atoms mol))))).
Definition mol_untyped_methyl : OBMol :=
  mkMol [mkAtom 6 "" 0; mkAtom 1 "" 0; mkAtom 8 "O" 0] [single 1 2; single 1 3] [] [] [].

(** Charges, positions and gradients for the four carbons of butane. *)
Definition butane_charges : list R := [0.1; 0; 0; 0.1].
Definition butane_positions : list Vec :=
  [Vector3d.Zero; unit_x; Vector3d.mk 1 1 0; Vector3d.mk 2 1 0].
Definition butane_gradients : list Vec := [unit_x; unit_x; unit_x; unit_x].

(** A distance helper that reports the distance and no derivative. *)
Definition distance_only (a b : Vec) : R * Vec * Vec :=
  (Vector3d.norm (Vector3d.sub a b), Vector3d.Zero, Vector3d.Zero).

(** Two atoms, with a gradient array and the vectors stored in [d->grad1]. *)
Definition two_atom_minimizer : OBMinimize :=
  mkMinimize (mkFunction [Vector3d.Zero; unit_x] [unit_x; Vector3d.mk 0 2 0] 0)
             (mkPrivate 0.000001 0 0 100 [unit_x; Vector3d.mk 0 0 1] 0).

(** A function with the same gradient on every atom at every position,
    and one whose gradient vanishes on the second atom. *)
Definition uniform_gradient (positions : list Vec) : list Vec :=
  [unit_x; unit_x; unit_x].
Definition resting_gradient (positions : list Vec) : list Vec :=
  [unit_x; Vector3d.Zero; unit_x].

(** Three atoms on the x axis, as [ConjugateGradientsInitialize] leaves the
    minimizer: [d->grad1] is the gradient array [g] and no step is counted. *)
Definition three_atom_minimizer (g : list Vec) : OBMinimize :=
  mkMinimize (mkFunction [Vector3d.Zero; unit_x; Vector3d.mk 2 0 0] g 0)
             (mkPrivate 0 0 0 100 g 0).

(** * Properties *)

(** ** Reals and vectors *)

Lemma Rltb_true (a b : R) : Rltb a b = true <-> a < b.
Proof. unfold Rltb; destruct (Rlt_dec a b); split; intros; auto; discriminate. Qed.

Lemma Rltb_false (a b : R) : Rltb a b = false <-> b <= a.
Proof.
  unfold Rltb; destruct (Rlt_dec a b); split; intros; auto; try discriminate; lra.
Qed.

Lemma Rneqb_true (a b : R) : Rneqb a b = true <-> a <> b.
Proof.
  unfold Rneqb; destruct (Req_dec_T a b); split; intros; auto; try discriminate; tauto.
Qed.

Lemma Rneqb_false (a b : R) : Rneqb a b = false <-> a = b.
Proof.
  unfold Rneqb; destruct (Req_dec_T a b); split; intros; auto; try discriminate; tauto.
Qed.

Lemma IsNear_true (a b eps : R) : IsNear a b eps = true -> a < b + eps.
Proof.
  unfold IsNear; rewrite Rltb_true; intros H.
  apply Rabs_def2 in H; lra.
Qed.

Lemma vec_eq (a b : Vec) :
  Vector3d.x a = Vector3d.x b -> Vector3d.y a = Vector3d.y b ->
  Vector3d.z a = Vector3d.z b -> a = b.
Proof. destruct a, b; simpl; intros; subst; reflexivity. Qed.

Lemma squaredNorm_nonneg (a : Vec) : 0 <= Vector3d.squaredNorm a.
Proof. unfold Vector3d.squaredNorm, Vector3d.dot; nra. Qed.

Lemma add_scale_0 (a v : Vec) : Vector3d.add a (Vector3d.scale v 0) = a.
Proof. apply vec_eq; simpl; lra. Qed.

Lemma squaredNorm_scale (a : Vec) (s : R) :
  Vector3d.squaredNorm (Vector3d.scale a s) = s * s * Vector3d.squaredNorm a.
Proof. unfold Vector3d.squaredNorm, Vector3d.dot, Vector3d.scale; simpl; ring. Qed.

Lemma squaredNorm_normalize (a : Vec) :
  0 < Vector3d.squaredNorm a -> Vector3d.squaredNorm (Vector3d.normalize a) = 1.
Proof.
  intros H.
  assert (Hn : 0 < Vector3d.norm a) by (apply sqrt_lt_R0; exact H).
  assert (Hs : Vector3d.norm a * Vector3d.norm a = Vector3d.squaredNorm a)
    by (apply sqrt_sqrt; lra).
  unfold Vector3d.squaredNorm at 1, Vector3d.dot, Vector3d.normalize; simpl.
  unfold Vector3d.squaredNorm, Vector3d.dot in Hs.
  field_simplify_eq; [ | lra ].
  nra.
Qed.

(** ** Line searches *)

Section LineSearchFacts.

Variable energy : list Vec -> R.
Variable gradient : list Vec -> list Vec.

Lemma TakeStep_overwrite (orig dir : list Vec) (s s' : R) :
  forall P,
    LineSearchTakeStep orig dir s (LineSearchTakeStep orig dir s' P)
    = LineSearchTakeStep orig dir s P.
Proof.
  revert orig; induction dir as [ | dc dir IH ]; intros orig P;
    [ destruct orig; reflexivity | ].
  destruct orig as [ | oc orig ]; [ reflexivity | ].
  destruct P as [ | p P ]; [ reflexivity | ].
  simpl; rewrite IH; reflexivity.
Qed.

Lemma TakeStep_zero (dir : list Vec) :
  forall orig, LineSearchTakeStep orig dir 0 orig = orig.
Proof.
  induction dir as [ | dc dir IH ]; intros orig; [ destruct orig; reflexivity | ].
  destruct orig as [ | oc orig ]; [ reflexivity | ].
  simpl; rewrite IH, add_scale_0; reflexivity.
Qed.

Lemma TakeStepAndCompute_positions (orig dir : list Vec) (s s' : R) (f : OBFunction) :
  m_positions f = stepped orig dir s' ->
  m_positions (TakeStepAndCompute energy gradient orig dir s f) = stepped orig dir s
  /\ m_value (TakeStepAndCompute energy gradient orig dir s f)
     = energy (stepped orig dir s).
Proof.
  intros H; unfold TakeStepAndCompute, stepped in *; simpl.
  rewrite H, TakeStep_overwrite; split; reflexivity.
Qed.

(** The invariant of the Newton loop: the positions are a step away from
    the origin, the best step found so far does not raise the energy
    over [E0], and neither does the best energy. *)
Lemma Newton2Num_loop_invariant (orig dir : list Vec) (max_scl E0 : R) (k : nat) :
  forall step opt_step opt_e f,
    (exists s, m_positions f = stepped orig dir s) ->
    energy (stepped orig dir opt_step) <= E0 ->
    opt_e <= E0 ->
    let r := Newton2Num_loop energy gradient k orig dir max_scl step opt_step opt_e f in
    (exists s, m_positions (snd r) = stepped orig dir s)
    /\ energy (stepped orig dir (fst (fst r))) <= E0
    /\ snd (fst r) <= E0.
Proof.
  induction k as [ | k IH ]; intros step opt_step opt_e f [s Hs] Hstep He;
    cbn [Newton2Num_loop].
  - destruct (TakeStepAndCompute_positions orig dir step s f Hs) as [Hp Hv].
    rewrite Hv.
    destruct (Rltb (energy (stepped orig dir step)) opt_e) eqn:Hlt; cbn [fst snd].
    + apply Rltb_true in Hlt. repeat split; [ eexists; exact Hp | lra | lra ].
    + repeat split; [ eexists; exact Hp | lra | lra ].
  - destruct (TakeStepAndCompute_positions orig dir step s f Hs) as [Hp1 Hv1].
    set (f1 := TakeStepAndCompute energy gradient orig dir step f) in *.
    destruct (TakeStepAndCompute_positions orig dir (step + step * 0.001) step f1 Hp1)
      as [Hp2 Hv2].
    set (f2 := TakeStepAndCompute energy gradient orig dir (step + step * 0.001) f1) in *.
    destruct (TakeStepAndCompute_positions orig dir (step + step * 0.001 * 2.0)
                (step + step * 0.001) f2 Hp2) as [Hp3 Hv3].
    set (f3 := TakeStepAndCompute energy gradient orig dir
                 (step + step * 0.001 * 2.0) f2) in *.
    assert (Hbest :
              energy (stepped orig dir
                        (if Rltb (m_value f1) opt_e then step else opt_step)) <= E0
              /\ (if Rltb (m_value f1) opt_e then m_value f1 else opt_e) <= E0).
    { destruct (Rltb (m_value f1) opt_e) eqn:Hlt.
      - apply Rltb_true in Hlt. rewrite Hv1 in *. split; lra.
      - split; lra. }
    destruct Hbest as [Hb1 Hb2].
    destruct (Rneqb _ 0.0).
    + apply IH; [ eexists; exact Hp3 | exact Hb1 | exact Hb2 ].
    + cbn [fst snd]. repeat split; [ eexists; exact Hp3 | exact Hb1 | exact Hb2 ].
Qed.

(** The three-point Newton search does not raise the energy when the
    energy it was handed in [d->e_n1] is not above that of the start. *)
Lemma Newton2NumLineSearch_energy (dir : list Vec) (m : OBMinimize) :
  e_n1 (d m) <= energy (GetPositions m) ->
  energy (GetPositions (snd (Newton2NumLineSearch energy gradient dir m)))
  <= energy (GetPositions m).
Proof.
  intros He.
  unfold Newton2NumLineSearch.
  set (scale := Newton2Num_scale dir).
  set (orig := GetPositions m).
  assert (H0 : stepped orig dir 0.0 = orig).
  { unfold stepped. replace 0.0 with 0 by lra. apply TakeStep_zero. }
  pose proof (Newton2Num_loop_invariant orig dir (5.0 / scale) (energy orig) 4
                (0.025 / scale) 0.0 (e_n1 (d m)) (m_function m)) as Hinv.
  cbv zeta in Hinv.
  destruct (Newton2Num_loop energy gradient 4 orig dir (5.0 / scale) (0.025 / scale)
              0.0 (e_n1 (d m)) (m_function m)) as [[opt_step opt_e] f1].
  cbn [fst snd] in Hinv.
  destruct Hinv as [[s Hs] [Hstep Hopt]];
    [ exists 0.0; rewrite H0; reflexivity | rewrite H0; lra | exact He | ].
  destruct (Rneqb opt_step 0.0) eqn:Hnz.
  - cbn [snd GetPositions m_function SetPositions m_positions].
    rewrite Hs. unfold stepped at 1. rewrite TakeStep_overwrite. exact Hstep.
  - destruct (TakeStepAndCompute_positions orig dir (0.001 * 0.025 / scale) s f1 Hs)
      as [Hp2 Hv2].
    cbn [snd GetPositions m_function SetPositions m_positions].
    rewrite Hp2, Hv2. unfold stepped in *. rewrite TakeStep_overwrite.
    destruct (Rltb _ opt_e) eqn:Hlt.
    + apply Rltb_true in Hlt. lra.
    + exact Hstep.
Qed.

(** The invariant of the simple search: [e1] is the energy of the
    current positions and is not above [E0]. *)
Lemma LineSearch_loop_energy (dir : list Vec) (E0 : R) (n : nat) :
  forall e1 step alpha f,
    energy (m_positions f) = e1 ->
    e1 <= E0 ->
    energy (m_positions (snd (LineSearch_loop energy gradient n dir e1 step alpha f)))
    < E0 + 0.001.
Proof.
  induction n as [ | n IH ]; intros e1 step alpha f Hf He; simpl.
  - lra.
  - destruct (IsNear _ e1 0.001) eqn:Hnear.
    + apply IsNear_true in Hnear. simpl. lra.
    + unfold Rgtb.
      destruct (Rltb e1 _) eqn:Hgt.
      * apply IH; [ exact Hf | exact He ].
      * destruct (Rltb _ e1) eqn:Hlt.
        -- apply Rltb_true in Hlt. apply IH; [ reflexivity | lra ].
        -- apply Rltb_false in Hgt, Hlt. apply IH; [ simpl; lra | exact He ].
Qed.

Lemma LineSearch_energy (dir : list Vec) (m : OBMinimize) :
  energy (GetPositions (snd (LineSearch energy gradient dir m)))
  < energy (GetPositions m) + 0.001.
Proof.
  unfold LineSearch.
  pose proof (LineSearch_loop_energy dir (energy (GetPositions m)) 10
                (m_value (Compute energy gradient Value (m_function m))) 0.2 0.0
                (Compute energy gradient Value (m_function m))) as H.
  destruct (LineSearch_loop energy gradient 10 dir _ 0.2 0.0 _) as [alpha f].
  unfold GetPositions at 1; simpl in *.
  apply H; [ reflexivity | unfold GetPositions; lra ].
Qed.

Lemma LineSearch_loop_near (dir : list Vec) (n : nat) (e1 step alpha : R)
      (f : OBFunction) :
  IsNear (energy (LineSearch_move (m_positions f) dir step)) e1 0.001 = true ->
  LineSearch_loop energy gradient (S n) dir e1 step alpha f
  = (alpha,
     Compute energy gradient Value
             (SetPositions (LineSearch_move (m_positions f) dir step) f)).
Proof. intros H; cbn [LineSearch_loop]; simpl m_value; rewrite H; reflexivity. Qed.

Lemma Newton2Num_loop_flat (k : nat) (orig dir : list Vec)
      (max_scl step opt_step opt_e : R) (f : OBFunction) :
  let f1 := TakeStepAndCompute energy gradient orig dir step f in
  let f2 := TakeStepAndCompute energy gradient orig dir (step + step * 0.001) f1 in
  let f3 := TakeStepAndCompute energy gradient orig dir (step + step * 0.001 * 2.0) f2 in
  m_value f3 - 2.0 * m_value f2 + m_value f1 = 0.0 ->
  Newton2Num_loop energy gradient (S k) orig dir max_scl step opt_step opt_e f
  = ((if Rltb (m_value f1) opt_e then step else opt_step),
     (if Rltb (m_value f1) opt_e then m_value f1 else opt_e), f3).
Proof.
  intros f1 f2 f3 H; cbn [Newton2Num_loop].
  fold f1; fold f2; fold f3.
  apply Rneqb_false in H; rewrite H; reflexivity.
Qed.

End LineSearchFacts.

Lemma LineSearch_tempStep_small (dc : Vec) (step : R) :
  Vector3d.squaredNorm (Vector3d.scale dc step) <= trustRadius2 ->
  LineSearch_tempStep dc step = Vector3d.scale dc step.
Proof.
  intros H; unfold LineSearch_tempStep, Rgtb.
  apply Rltb_false in H; rewrite H; reflexivity.
Qed.

Lemma Newton2Num_scale_unit_x : Newton2Num_scale [unit_x] = 1.
Proof.
  unfold Newton2Num_scale; cbn [fold_left].
  replace (0.0 + Vector3d.squaredNorm unit_x) with 1
    by (unfold Vector3d.squaredNorm, Vector3d.dot, unit_x; simpl; lra).
  rewrite sqrt_1.
  unfold IsNearZero, IsNearZero_default.
  rewrite Rabs_R1.
  assert (H : Rltb 1 0.000002 = false) by (apply Rltb_false; lra).
  rewrite H; reflexivity.
Qed.

(** The simple search stops on its convergence test at a trial position
    whose energy is above that of the start. *)
Lemma LineSearch_raises_energy :
  energy_slope 0.001
    (GetPositions (snd (LineSearch (energy_slope 0.001) no_gradient [unit_x]
                                   (one_atom_minimizer 0))))
  > energy_slope 0.001 (GetPositions (one_atom_minimizer 0)).
Proof.
  assert (Hmove : LineSearch_move [Vector3d.Zero] [unit_x] 0.2
                  = [Vector3d.add Vector3d.Zero (Vector3d.scale unit_x 0.2)]).
  { cbn [LineSearch_move]. rewrite LineSearch_tempStep_small; [ reflexivity | ].
    unfold Vector3d.squaredNorm, Vector3d.dot, trustRadius2, unit_x; simpl; lra. }
  unfold LineSearch.
  rewrite LineSearch_loop_near.
  - cbn [snd GetPositions m_function Compute SetPositions m_positions one_atom_minimizer].
    rewrite Hmove. unfold energy_slope; simpl. lra.
  - cbn [Compute m_positions m_value m_function one_atom_minimizer].
    rewrite Hmove. unfold IsNear. apply Rltb_true.
    unfold energy_slope; simpl. apply Rabs_def1; lra.
Qed.

(** The Newton search accepts a trial whose energy is below the stored
    [d->e_n1] although it is above the energy of the start. *)
Lemma Newton2NumLineSearch_raises_energy :
  energy_slope 1
    (GetPositions (snd (Newton2NumLineSearch (energy_slope 1) no_gradient [unit_x]
                                             (one_atom_minimizer 10))))
  > energy_slope 1 (GetPositions (one_atom_minimizer 10)).
Proof.
  unfold Newton2NumLineSearch.
  rewrite Newton2Num_scale_unit_x.
  rewrite Newton2Num_loop_flat.
  - cbn [TakeStepAndCompute Compute SetPositions m_positions m_value m_function
         GetPositions one_atom_minimizer LineSearchTakeStep e_n1 d].
    assert (Hlt : Rltb (energy_slope 1
                          [Vector3d.add Vector3d.Zero (Vector3d.scale unit_x (0.025 / 1))])
                       10 = true)
      by (apply Rltb_true; unfold energy_slope; simpl; lra).
    rewrite Hlt.
    assert (Hnz : Rneqb (0.025 / 1) 0.0 = true) by (apply Rneqb_true; lra).
    rewrite Hnz.
    cbn [snd GetPositions m_function SetPositions m_positions LineSearchTakeStep].
    unfold energy_slope; simpl. lra.
  - cbn [TakeStepAndCompute Compute SetPositions m_positions m_value m_function
         GetPositions one_atom_minimizer LineSearchTakeStep].
    unfold energy_slope; simpl. lra.
Qed.

(** C1, as amended.  The three-point Newton search leaves positions whose
    energy is not above the energy of the starting positions, provided the
    energy stored in [d->e_n1] (from which the search starts its comparison)
    is not above it either; the simple search leaves positions whose energy
    is less than the starting energy plus its convergence tolerance 1e-3. *)
Theorem line_search_energy_bound
        (energy : list Vec -> R) (gradient : list Vec -> list Vec)
        (direction : list Vec) (m : OBMinimize) :
  (e_n1 (d m) <= energy (GetPositions m) ->
   energy (GetPositions (snd (Newton2NumLineSearch energy gradient direction m)))
   <= energy (GetPositions m))
  /\ energy (GetPositions (snd (LineSearch energy gradient direction m)))
     < energy (GetPositions m) + 0.001.
Proof.
  split.
  - apply Newton2NumLineSearch_energy.
  - apply LineSearch_energy.
Qed.

Lemma line_search_energy_bound_witness :
  e_n1 (d (one_atom_minimizer 0)) <= energy_slope 1 (GetPositions (one_atom_minimizer 0))
  /\ energy_slope 1
       (GetPositions (snd (Newton2NumLineSearch (energy_slope 1) no_gradient [unit_x]
                                                (one_atom_minimizer 0))))
     <= energy_slope 1 (GetPositions (one_atom_minimizer 0)).
Proof.
  assert (H : e_n1 (d (one_atom_minimizer 0))
              <= energy_slope 1 (GetPositions (one_atom_minimizer 0)))
    by (unfold energy_slope; simpl; lra).
  split; [ exact H | ].
  exact (proj1 (line_search_energy_bound (energy_slope 1) no_gradient [unit_x]
                                         (one_atom_minimizer 0)) H).
Defined.

(** C1, as stated, fails for both searches: the simple search can stop on
    its convergence test above the starting energy, and the Newton search
    compares with the stored [d->e_n1], not with the starting energy. *)
Lemma line_search_energy_counterexample :
  energy_slope 0.001
    (GetPositions (snd (LineSearch (energy_slope 0.001) no_gradient [unit_x]
                                   (one_atom_minimizer 0))))
  > energy_slope 0.001 (GetPositions (one_atom_minimizer 0))
  /\ energy_slope 1
       (GetPositions (snd (Newton2NumLineSearch (energy_slope 1) no_gradient [unit_x]
                                                (one_atom_minimizer 10))))
     > energy_slope 1 (GetPositions (one_atom_minimizer 10)).
Proof.
  split.
  - exact LineSearch_raises_energy.
  - exact Newton2NumLineSearch_raises_energy.
Qed.

(** ** The trust radius of the simple search *)

(** What the test against [trustRadius2] does ensure. *)
Lemma LineSearch_tempStep_bound (dc : Vec) (step : R) :
  Vector3d.squaredNorm (LineSearch_tempStep dc step) <= trustRadius2.
Proof.
  unfold LineSearch_tempStep, Rgtb.
  destruct (Rltb trustRadius2 _) eqn:H.
  - apply Rltb_true in H.
    rewrite squaredNorm_scale, squaredNorm_normalize;
      unfold trustRadius, trustRadius2 in *; lra.
  - apply Rltb_false in H; exact H.
Qed.

(** C3.  With [direction[c] = (3, 0, 0)] the first trial ([step = 0.2])
    adds the displacement [(0.6, 0, 0)] to the atom: its squared norm 0.36
    is not above [trustRadius2 = 0.9], so that it is not renormalized, and
    its norm 0.6 is twice the trust radius 0.3. *)
Theorem LineSearch_exceeds_trust_radius :
  let direction := Vector3d.mk 3 0 0 in
  LineSearch_move [Vector3d.Zero] [direction] 0.2
  = [Vector3d.add Vector3d.Zero (Vector3d.scale direction 0.2)]
  /\ Vector3d.norm (LineSearch_tempStep direction 0.2) = 0.6
  /\ Vector3d.norm (LineSearch_tempStep direction 0.2) > trustRadius.
Proof.
  intros direction.
  assert (Hsq : Vector3d.squaredNorm (Vector3d.scale direction 0.2) = 0.6 * 0.6)
    by (unfold Vector3d.squaredNorm, Vector3d.dot, direction; simpl; lra).
  assert (Ht : LineSearch_tempStep direction 0.2 = Vector3d.scale direction 0.2)
    by (apply LineSearch_tempStep_small; rewrite Hsq; unfold trustRadius2; lra).
  assert (Hn : Vector3d.norm (LineSearch_tempStep direction 0.2) = 0.6).
  { rewrite Ht; unfold Vector3d.norm; rewrite Hsq; apply sqrt_square; lra. }
  split; [ cbn [LineSearch_move]; rewrite Ht; reflexivity | ].
  split; [ exact Hn | rewrite Hn; unfold trustRadius; lra ].
Qed.

(** ** Conjugate gradients *)

Lemma length_set_nth {A : Type} (v : A) (l : list A) :
  forall i, List.length (set_nth i v l) = List.length l.
Proof.
  induction l as [ | a l IH ]; intros [ | i ]; simpl; try reflexivity.
  rewrite IH; reflexivity.
Qed.

Lemma nth_set_nth_eq {A : Type} (v dflt : A) (l : list A) :
  forall i, (i < List.length l)%nat -> nth i (set_nth i v l) dflt = v.
Proof.
  induction l as [ | a l IH ]; intros [ | i ] H; simpl in *; try lia; try reflexivity.
  apply IH; lia.
Qed.

Lemma nth_set_nth_neq {A : Type} (v dflt : A) (l : list A) :
  forall i j, i <> j -> nth j (set_nth i v l) dflt = nth j l dflt.
Proof.
  induction l as [ | a l IH ]; intros [ | i ] [ | j ] H; simpl; try reflexivity;
    try congruence.
  apply IH; congruence.
Qed.

Section ConjugateGradientsFacts.

Variables (hasGradients : bool) (c N : Z) (gradients : list Vec).

(** The loop writes only the entries it visits. *)
Lemma CG_direction_loop_untouched (idxs : list nat) :
  forall grad2 stored idx dflt,
    ~ In idx idxs ->
    nth idx (snd (CG_direction_loop hasGradients idxs c N gradients grad2 stored)) dflt
    = nth idx stored dflt.
Proof.
  induction idxs as [ | i idxs IH ]; intros grad2 stored idx dflt Hout.
  - reflexivity.
  - cbn [CG_direction_loop]. rewrite IH by (intros H; apply Hout; right; exact H).
    apply nth_set_nth_neq. intros E; apply Hout; left; exact E.
Qed.

(** Over [idx = a, a + 1, ...] every entry becomes the direction of its
    atom, computed from the entry stored for that atom and from [grad2]:
    the atom's gradient when the function has analytical gradients, and
    otherwise what [grad2] held when the loop reached the atom, which is
    the direction of the atom before it. *)
Lemma CG_direction_loop_seq (n : nat) :
  forall a grad2 stored idx,
    (a + n <= List.length stored)%nat ->
    (a <= idx < a + n)%nat ->
    nth idx (snd (CG_direction_loop hasGradients (seq a n) c N gradients grad2 stored))
        (FiniteVec Vector3d.Zero)
    = CG_atom_direction c N
        (if hasGradients then FiniteVec (nth idx gradients Vector3d.Zero)
         else if Nat.eqb idx a then grad2
              else nth (idx - 1)
                       (snd (CG_direction_loop hasGradients (seq a n) c N gradients
                                               grad2 stored))
                       (FiniteVec Vector3d.Zero))
        (nth idx stored (FiniteVec Vector3d.Zero)).
Proof.
  induction n as [ | n IH ]; intros a grad2 stored idx Hlen Hidx; [ lia | ].
  cbn [seq CG_direction_loop].
  set (grad2a := if hasGradients then FiniteVec (nth a gradients Vector3d.Zero)
                 else grad2).
  set (grad2b := CG_atom_direction c N grad2a (nth a stored (FiniteVec Vector3d.Zero))).
  assert (Hout : ~ In a (seq (S a) n)) by (rewrite in_seq; lia).
  assert (Ha : nth a (snd (CG_direction_loop hasGradients (seq (S a) n) c N gradients
                                             grad2b (set_nth a grad2b stored)))
                   (FiniteVec Vector3d.Zero) = grad2b).
  { rewrite CG_direction_loop_untouched by exact Hout.
    apply nth_set_nth_eq. lia. }
  destruct (Nat.eq_dec idx a) as [ -> | Hne ].
  - rewrite Ha, Nat.eqb_refl. reflexivity.
  - rewrite IH; [ | rewrite length_set_nth; lia | lia ].
    rewrite nth_set_nth_neq by congruence.
    assert (E : Nat.eqb idx a = false) by (apply Nat.eqb_neq; exact Hne).
    rewrite E.
    destruct hasGradients; [ reflexivity | ].
    destruct (Nat.eqb idx (S a)) eqn:E'; [ | reflexivity ].
    apply Nat.eqb_eq in E'. subst idx.
    replace (S a - 1)%nat with a by lia.
    rewrite Ha. reflexivity.
Qed.

End ConjugateGradientsFacts.

Section StoredDirection.

Variable energy : list Vec -> R.
Variable gradient : list Vec -> list Vec.

Lemma Newton2Num_loop_gradients (orig dir : list Vec) (max_scl : R) (k : nat) :
  forall step opt_step opt_e f,
    m_gradients (snd (Newton2Num_loop energy gradient k orig dir max_scl
                                      step opt_step opt_e f))
    = m_gradients f.
Proof.
  induction k as [ | k IH ]; intros step opt_step opt_e f; cbn [Newton2Num_loop].
  - reflexivity.
  - destruct (Rneqb _ 0.0); [ rewrite IH | ]; reflexivity.
Qed.

Lemma LineSearch_loop_gradients (dir : list Vec) (n : nat) :
  forall e1 step alpha f,
    m_gradients (snd (LineSearch_loop energy gradient n dir e1 step alpha f))
    = m_gradients f.
Proof.
  induction n as [ | n IH ]; intros e1 step alpha f; cbn [LineSearch_loop].
  - reflexivity.
  - destruct (IsNear _ e1 0.001); [ reflexivity | ].
    destruct (Rgtb _ e1); [ rewrite IH; reflexivity | ].
    destruct (Rltb _ e1); rewrite IH; reflexivity.
Qed.

Lemma perform_linesearch_gradients (Newton2Num : Z) (dir : list Vec) (m : OBMinimize) :
  GetGradients (snd (perform_linesearch energy gradient Newton2Num dir m))
  = GetGradients m
  /\ d (snd (perform_linesearch energy gradient Newton2Num dir m)) = d m.
Proof.
  unfold perform_linesearch, GetGradients.
  destruct (Z.eqb (linesearch (d m)) Newton2Num).
  - unfold Newton2NumLineSearch.
    pose proof (Newton2Num_loop_gradients (GetPositions m) dir
                  (5.0 / Newton2Num_scale dir) 4 (0.025 / Newton2Num_scale dir)
                  0.0 (e_n1 (d m)) (m_function m)) as H.
    destruct (Newton2Num_loop energy gradient 4 _ dir _ _ 0.0 _ _)
      as [[opt_step opt_e] f1].
    cbn [snd] in H.
    destruct (Rneqb opt_step 0.0); cbn; rewrite H; split; reflexivity.
  - unfold LineSearch.
    pose proof (LineSearch_loop_gradients dir 10
                  (m_value (Compute energy gradient Value (m_function m))) 0.2 0.0
                  (Compute energy gradient Value (m_function m))) as H.
    destruct (LineSearch_loop energy gradient 10 dir _ 0.2 0.0 _) as [alpha f].
    cbn [snd] in H. cbn. rewrite H. split; reflexivity.
Qed.

(** What a step leaves in [d->grad1] under "save the direction" is the
    gradient array it started from: the line search does not touch the
    gradients, and they are copied before they are recomputed. *)
Lemma ConjugateGradients_step_stores_gradient
      (hasGradients : bool) (Newton2Num : Z) (grad2 : Direction) (m : OBMinimize) :
  grad1 (d (snd (ConjugateGradients_step energy gradient hasGradients Newton2Num
                                         grad2 m)))
  = GetGradients m.
Proof.
  unfold ConjugateGradients_step.
  destruct (CG_direction hasGradients _ grad2 _) as [grad2' direction].
  pose proof (perform_linesearch_gradients Newton2Num
                (grad1 (d (set_grad1 (map finite_direction direction)
                                     (set_cstep (cstep (d m) + 1) m))))
                (set_grad1 (map finite_direction direction)
                           (set_cstep (cstep (d m) + 1) m))) as [Hg Hd].
  destruct (perform_linesearch energy gradient Newton2Num _ _) as [alpha m3].
  cbn [snd] in Hg, Hd.
  destruct (IsNear _ _ _); [ | destruct (Z.eqb _ _) ]; cbn; exact Hg.
Qed.

End StoredDirection.

(** ** Parameter lookup and setup failure *)

Lemma GetParameterUFF_absent (a : string) (parameter : list OBFFParameter) :
  (forall p, In p parameter -> _a p <> a) ->
  GetParameterUFF a parameter = None.
Proof.
  induction parameter as [ | p parameter IH ]; intros H; [ reflexivity | ].
  simpl. destruct (String.eqb a (_a p)) eqn:E.
  - apply String.eqb_eq in E. exfalso. apply (H p); [ left; reflexivity | auto ].
  - apply IH. intros q Hq. apply H. right; exact Hq.
Qed.

Lemma GetParameterUFF_found (a : string) (parameter : list OBFFParameter)
      (p : OBFFParameter) :
  GetParameterUFF a parameter = Some p -> In p parameter /\ _a p = a.
Proof.
  induction parameter as [ | q parameter IH ]; simpl; [ discriminate | ].
  destruct (String.eqb a (_a q)) eqn:E.
  - intros H; injection H as <-. apply String.eqb_eq in E. split; [ left | ]; auto.
  - intros H. destruct (IH H) as [Hin Ha]. split; [ right | ]; auto.
Qed.

(** [SetupCalculations] has no [return false]. *)
Lemma SetupCalculations_never_false (loc : torsion_locals) (ff ff' : OBForceFieldUFF)
      (r : bool) :
  SetupCalculations loc ff = Ok (r, ff') -> r = true.
Proof.
  unfold SetupCalculations.
  destruct (for_each (setup_bond ff) _); [ | discriminate ].
  destruct (for_each (setup_angle ff) _); [ | discriminate ].
  destruct (setup_torsions ff loc _); [ | discriminate ].
  destruct (for_each (setup_oop ff) _); [ | discriminate ].
  destruct (for_each (setup_vdw ff) _); [ | discriminate ].
  simpl. intros H; injection H as <- _; reflexivity.
Qed.

(** C2.  The lookup of a type that is not in the table returns the null
    pointer, but [SetupCalculations] does not return false for it: on a
    bond to an atom of that type it dereferences the null pointer, and on
    a lone atom of that type, for which nothing is looked up, it returns
    true. *)
Theorem SetupCalculations_missing_parameter :
  GetParameterUFF "Xx" uff_table = None
  /\ SetupCalculations torsion_locals0 (fresh_forcefield mol_unknown_type) = NullDeref
  /\ exists ff',
      SetupCalculations torsion_locals0 (fresh_forcefield mol_lone_unknown)
      = Ok (true, ff').
Proof.
  split; [ reflexivity | ].
  split; [ reflexivity | ].
  eexists; reflexivity.
Qed.

(** ** Out-of-plane records *)

Lemma for_each_concat {A B : Type} (body : A -> result (list B)) (l : list A) :
  forall rs,
    for_each body l = Ok rs ->
    exists rss, Forall2 (fun x r => body x = Ok r) l rss /\ rs = List.concat rss.
Proof.
  induction l as [ | x l IH ]; intros rs H; simpl in H.
  - injection H as <-. exists []. split; [ constructor | reflexivity ].
  - destruct (body x) as [ r | ] eqn:Hx; [ | discriminate ]. simpl in H.
    destruct (for_each body l) as [ rs' | ]; [ | discriminate ]. simpl in H.
    injection H as <-.
    destruct (IH rs' eq_refl) as [rss [HF ->]].
    exists (r :: rss). split; [ constructor; assumption | reflexivity ].
Qed.

Lemma for_each_In {A B : Type} (body : A -> result (list B)) (l : list A) (rs : list B) :
  for_each body l = Ok rs ->
  forall r, In r rs -> exists x rx, In x l /\ body x = Ok rx /\ In r rx.
Proof.
  intros H r Hr.
  destruct (for_each_concat body l rs H) as [rss [HF ->]]. clear H.
  apply in_concat in Hr. destruct Hr as [rx [Hrx Hin]].
  induction HF as [ | x r0 l rss Hb HF IH ]; [ contradiction | ].
  destruct Hrx as [ -> | Hrx ].
  - exists x, rx. split; [ left; reflexivity | split; assumption ].
  - destruct (IH Hrx) as [x' [rx' [H1 H2]]].
    exists x', rx'. split; [ right; exact H1 | exact H2 ].
Qed.

(** The OOP list is made of what each atom contributes, in atom order. *)
Lemma SetupCalculations_oop (loc : torsion_locals) (ff ff' : OBForceFieldUFF) (r : bool) :
  SetupCalculations loc ff = Ok (r, ff') ->
  for_each (setup_oop ff) (seq 1 (NumAtoms (_mol ff))) = Ok (_oopcalculations ff').
Proof.
  unfold SetupCalculations.
  destruct (for_each (setup_bond ff) _); [ | discriminate ].
  destruct (for_each (setup_angle ff) _); [ | discriminate ].
  destruct (setup_torsions ff loc _); [ | discriminate ].
  destruct (for_each (setup_oop ff) _); [ | discriminate ].
  destruct (for_each (setup_vdw ff) _); [ | discriminate ].
  simpl. intros H; injection H as _ <-; reflexivity.
Qed.

Lemma atom_in_range_Ok (mol : OBMol) (a : nat) :
  atom_in_range mol a = true -> exists t, atom mol a = Ok t.
Proof.
  unfold atom_in_range, atom, NumAtoms. intros H.
  apply andb_prop in H. destruct H as [H1 H2].
  apply Nat.leb_le in H1, H2.
  destruct a as [ | i ]; [ lia | ].
  destruct (nth_error (mol_atoms mol) i) as [ t | ] eqn:E.
  - exists t; reflexivity.
  - apply nth_error_None in E. lia.
Qed.

Lemma neighbors_in_range (mol : OBMol) (b x : nat) :
  bonds_in_range mol = true -> In x (neighbors mol b) -> atom_in_range mol x = true.
Proof.
  unfold bonds_in_range, neighbors. intros Hwf Hin.
  apply in_flat_map in Hin. destruct Hin as [bd [Hbd Hx]].
  rewrite forallb_forall in Hwf. specialize (Hwf bd Hbd).
  apply andb_prop in Hwf. destruct Hwf as [Hb He].
  destruct (Nat.eqb (GetBeginAtom bd) b).
  - destruct Hx as [ <- | [] ]; exact He.
  - destruct (Nat.eqb (GetEndAtom bd) b).
    + destruct Hx as [ <- | [] ]; exact Hb.
    + destruct Hx.
Qed.

Lemma oop_coefficients_Ok (ff : OBForceFieldUFF) (ty : string) (a c d : nat) :
  atom_in_range (_mol ff) a = true ->
  atom_in_range (_mol ff) c = true ->
  atom_in_range (_mol ff) d = true ->
  exists k, oop_coefficients ff ty a c d = Ok k.
Proof.
  intros Ha Hc Hd. unfold oop_coefficients.
  destruct (atom_in_range_Ok _ _ Ha) as [ta Hta].
  destruct (atom_in_range_Ok _ _ Hc) as [tc Htc].
  destruct (atom_in_range_Ok _ _ Hd) as [td Htd].
  rewrite Hta, Htc, Htd. simpl.
  destruct (oop_type_C ty); [ eexists; reflexivity | ].
  destruct (oop_type_NO ty); eexists; reflexivity.
Qed.

(** C4, as amended.  A center that passes the element and type tests
    contributes no OOP record when it has fewer than three neighbors; when
    it has exactly three, it contributes none if groups are in force and no
    intra-group holds the center and its three neighbors, and otherwise
    exactly three records, one for each neighbor in the wing position. *)
Theorem oop_records_per_center (ff : OBForceFieldUFF) (b : nat) (tb : OBAtom) :
  bonds_in_range (_mol ff) = true ->
  atom (_mol ff) b = Ok tb ->
  oop_whitelisted tb = true ->
  ((List.length (neighbors (_mol ff) b) < 3)%nat -> setup_oop ff b = Ok [])
  /\ (forall a c d,
         neighbors (_mol ff) b = [a; c; d] ->
         if HasGroups ff && negb (in_one_intraGroup ff [a; b; c; d])
         then setup_oop ff b = Ok []
         else exists r1 r2 r3,
             setup_oop ff b = Ok [r1; r2; r3]
             /\ map OOPCalc.b [r1; r2; r3] = [b; b; b]
             /\ map OOPCalc.d [r1; r2; r3] = [d; a; c]).
Proof.
  intros Hwf Hb Hw. unfold setup_oop. rewrite Hb. cbn [bind]. rewrite Hw. cbn [negb].
  split.
  - intros Hlen.
    destruct (neighbors (_mol ff) b) as [ | a [ | c [ | d rest ] ] ]; try reflexivity.
    simpl in Hlen; lia.
  - intros a c d Hn.
    assert (Ha : atom_in_range (_mol ff) a = true)
      by (apply (neighbors_in_range _ b); [ exact Hwf | rewrite Hn; simpl; auto ]).
    assert (Hc : atom_in_range (_mol ff) c = true)
      by (apply (neighbors_in_range _ b); [ exact Hwf | rewrite Hn; simpl; auto ]).
    assert (Hd : atom_in_range (_mol ff) d = true)
      by (apply (neighbors_in_range _ b); [ exact Hwf | rewrite Hn; simpl; auto ]).
    rewrite Hn. cbn [oop_neighbors last].
    destruct (HasGroups ff && negb (in_one_intraGroup ff [a; b; c; d])); [ reflexivity | ].
    destruct (oop_coefficients_Ok ff (GetType tb) a c d Ha Hc Hd) as [[[[c0 c1] c2] koop] Hk].
    rewrite Hk. cbn [bind].
    do 3 eexists. split; [ reflexivity | split; reflexivity ].
Qed.

Lemma oop_records_per_center_witness :
  bonds_in_range mol_formaldehyde = true
  /\ atom mol_formaldehyde 1 = Ok (mkAtom 6 "C_2" 0)
  /\ oop_whitelisted (mkAtom 6 "C_2" 0) = true
  /\ neighbors mol_formaldehyde 1 = [2; 3; 4]%nat
  /\ exists r1 r2 r3,
      setup_oop (fresh_forcefield mol_formaldehyde) 1 = Ok [r1; r2; r3]
      /\ map OOPCalc.b [r1; r2; r3] = [1; 1; 1]%nat
      /\ map OOPCalc.d [r1; r2; r3] = [4; 2; 3]%nat.
Proof.
  repeat (split; [ reflexivity | ]).
  exact (proj2 (oop_records_per_center (fresh_forcefield mol_formaldehyde) 1
                  (mkAtom 6 "C_2" 0) eq_refl eq_refl eq_refl)
               2%nat 3%nat 4%nat eq_refl).
Defined.

(** C4, as stated, fails in both halves: the nitrogen of ammonium passes the
    tests, has four neighbors and contributes three records; the carbon of
    formaldehyde passes the tests, has three neighbors and contributes none
    when the group restriction excludes it. *)
Lemma oop_records_counterexample :
  (oop_whitelisted (mkAtom 7 "N_3" 0) = true
   /\ atom mol_ammonium 1 = Ok (mkAtom 7 "N_3" 0)
   /\ List.length (neighbors mol_ammonium 1) = 4%nat
   /\ exists r1 r2 r3, setup_oop (fresh_forcefield mol_ammonium) 1 = Ok [r1; r2; r3])
  /\ (oop_whitelisted (mkAtom 6 "C_2" 0) = true
      /\ atom mol_formaldehyde 1 = Ok (mkAtom 6 "C_2" 0)
      /\ List.length (neighbors mol_formaldehyde 1) = 3%nat
      /\ setup_oop formaldehyde_with_groups 1 = Ok []).
Proof.
  split.
  - repeat (split; [ reflexivity | ]). do 3 eexists. reflexivity.
  - repeat (split; [ reflexivity | ]). reflexivity.
Qed.

(** ** Exclusion of 1-2 and 1-3 pairs from the non-bonded lists *)

Lemma In_neighbors (mol : OBMol) (a b : nat) :
  In b (neighbors mol a)
  <-> exists bd, In bd (mol_bonds mol)
                 /\ ((GetBeginAtom bd = a /\ GetEndAtom bd = b)
                     \/ (GetEndAtom bd = a /\ GetBeginAtom bd = b)).
Proof.
  unfold neighbors. rewrite in_flat_map. split.
  - intros [bd [Hbd Hin]]. exists bd. split; [ exact Hbd | ].
    destruct (Nat.eqb (GetBeginAtom bd) a) eqn:E1.
    + apply Nat.eqb_eq in E1. destruct Hin as [ <- | [] ]. left; auto.
    + destruct (Nat.eqb (GetEndAtom bd) a) eqn:E2; [ | destruct Hin ].
      apply Nat.eqb_eq in E2. destruct Hin as [ <- | [] ]. right; auto.
  - intros [bd [Hbd H]]. exists bd. split; [ exact Hbd | ].
    destruct (Nat.eqb (GetBeginAtom bd) a) eqn:E1.
    + apply Nat.eqb_eq in E1.
      destruct H as [ [_ <-] | [H1 H2] ]; [ left; reflexivity | ].
      left. congruence.
    + apply Nat.eqb_neq in E1.
      destruct H as [ [H1 _] | [H1 <-] ]; [ contradiction | ].
      rewrite H1, Nat.eqb_refl. left; reflexivity.
Qed.

Lemma IsConnected_true (mol : OBMol) (a b : nat) :
  IsConnected mol a b = true <-> In b (neighbors mol a).
Proof.
  unfold IsConnected. rewrite existsb_exists. split.
  - intros [x [Hx E]]. apply Nat.eqb_eq in E. subst; exact Hx.
  - intros H. exists b. split; [ exact H | apply Nat.eqb_refl ].
Qed.

Lemma In_neighbors_sym (mol : OBMol) (a b : nat) :
  In b (neighbors mol a) -> In a (neighbors mol b).
Proof.
  rewrite !In_neighbors. intros [bd [Hbd H]]. exists bd. split; [ exact Hbd | tauto ].
Qed.

Lemma IsConnected_sym (mol : OBMol) (a b : nat) :
  IsConnected mol a b = IsConnected mol b a.
Proof.
  apply eq_true_iff_eq. rewrite !IsConnected_true.
  split; apply In_neighbors_sym.
Qed.

Lemma IsOneThree_true (mol : OBMol) (a b : nat) :
  IsOneThree mol a b = true
  <-> exists v, In v (neighbors mol a) /\ In v (neighbors mol b).
Proof.
  unfold IsOneThree. rewrite existsb_exists. split.
  - intros [v [Hv E]]. apply existsb_exists in E. destruct E as [w [Hw E]].
    apply Nat.eqb_eq in E. subst. exists w; auto.
  - intros [v [Ha Hb]]. exists v. split; [ exact Ha | ].
    apply existsb_exists. exists v. split; [ exact Hb | apply Nat.eqb_refl ].
Qed.

Lemma IsOneThree_sym (mol : OBMol) (a b : nat) :
  IsOneThree mol a b = IsOneThree mol b a.
Proof.
  apply eq_true_iff_eq. rewrite !IsOneThree_true.
  split; intros [v [H1 H2]]; exists v; auto.
Qed.

Lemma not_12_13_intro (mol : OBMol) (a b : nat) :
  IsConnected mol a b = false -> IsOneThree mol a b = false -> not_12_13 mol a b.
Proof.
  intros H1 H2. unfold not_12_13.
  rewrite <- (IsConnected_sym mol a b), <- (IsOneThree_sym mol a b). auto.
Qed.

Lemma setup_vdw_excluded (ff : OBForceFieldUFF) (p : nat * nat) (rx : list VDWCalc.t) :
  setup_vdw ff p = Ok rx ->
  forall v, In v rx -> not_12_13 (_mol ff) (VDWCalc.a v) (VDWCalc.b v).
Proof.
  unfold setup_vdw.
  destruct (GetAtom (_mol ff) (fst p)) as [ a | ]; [ | discriminate ].
  destruct (GetAtom (_mol ff) (snd p)) as [ b | ]; [ | discriminate ].
  cbn [deref bind].
  destruct (HasGroups ff && negb (in_interGroups ff a b));
    [ intros H; injection H as <-; intros v [] | ].
  destruct (IsConnected (_mol ff) a b) eqn:Hc;
    [ intros H; injection H as <-; intros v [] | ].
  destruct (IsOneThree (_mol ff) a b) eqn:Ht;
    [ intros H; injection H as <-; intros v [] | ].
  destruct (parameter_of ff a) as [ pa | ]; [ | discriminate ].
  destruct (parameter_of ff b) as [ pb | ]; [ | discriminate ].
  cbn [bind].
  destruct pa as [ parameterA | ]; [ | discriminate ].
  destruct pb as [ parameterB | ]; [ | discriminate ].
  cbn [deref bind].
  intros H; injection H as <-. intros v [ <- | [] ]. simpl.
  apply not_12_13_intro; assumption.
Qed.

Lemma setup_electrostatic_excluded (ff : OBForceFieldUFF) (p : nat * nat)
      (rx : list EleCalc.t) :
  setup_electrostatic ff p = Ok rx ->
  forall e, In e rx -> not_12_13 (_mol ff) (EleCalc.a e) (EleCalc.b e).
Proof.
  unfold setup_electrostatic.
  destruct (GetAtom (_mol ff) (fst p)) as [ a | ]; [ | discriminate ].
  destruct (GetAtom (_mol ff) (snd p)) as [ b | ]; [ | discriminate ].
  cbn [deref bind].
  destruct (HasGroups ff && negb (in_interGroups ff a b));
    [ intros H; injection H as <-; intros v [] | ].
  destruct (IsConnected (_mol ff) a b) eqn:Hc;
    [ intros H; injection H as <-; intros v [] | ].
  destruct (IsOneThree (_mol ff) a b) eqn:Ht;
    [ intros H; injection H as <-; intros v [] | ].
  destruct (atom (_mol ff) a) as [ ta | ]; [ | discriminate ].
  destruct (atom (_mol ff) b) as [ tb | ]; [ | discriminate ].
  cbn [bind].
  destruct (Rneqb _ 0); intros H; injection H as <-; intros e Hin;
    [ | destruct Hin ].
  destruct Hin as [ <- | [] ]. simpl.
  apply not_12_13_intro; assumption.
Qed.

(** C5.  After [SetupCalculations] and [SetupElectrostatics] no record of
    the van der Waals list and no record of the electrostatic list joins
    two atoms that are bonded or that have a common neighbor. *)
Theorem nonbonded_lists_exclude_12_13
        (loc : torsion_locals) (ff ff1 ff2 : OBForceFieldUFF) (r1 r2 : bool) :
  SetupCalculations loc ff = Ok (r1, ff1) ->
  SetupElectrostatics ff1 = Ok (r2, ff2) ->
  (forall v, In v (_vdwcalculations ff2) ->
             not_12_13 (_mol ff2) (VDWCalc.a v) (VDWCalc.b v))
  /\ (forall e, In e (_electrostaticcalculations ff2) ->
                not_12_13 (_mol ff2) (EleCalc.a e) (EleCalc.b e)).
Proof.
  unfold SetupCalculations, SetupElectrostatics.
  destruct (for_each (setup_bond ff) _) as [ bl | ]; [ | discriminate ].
  destruct (for_each (setup_angle ff) _) as [ al | ]; [ | discriminate ].
  destruct (setup_torsions ff loc _) as [ tl | ]; [ | discriminate ].
  destruct (for_each (setup_oop ff) _) as [ ol | ]; [ | discriminate ].
  destruct (for_each (setup_vdw ff) _) as [ vl | ] eqn:Hv; [ | discriminate ].
  cbn [bind]. intros H1; injection H1 as _ <-.
  destruct (for_each (setup_electrostatic _) _) as [ el | ] eqn:He; [ | discriminate ].
  cbn [bind]. intros H2; injection H2 as _ <-.
  cbn [_vdwcalculations _electrostaticcalculations _mol set_calculations
       set_electrostaticcalculations] in *.
  split.
  - intros v Hin.
    destruct (for_each_In _ _ _ Hv v Hin) as [p [rx [_ [Hp Hr]]]].
    exact (setup_vdw_excluded ff p rx Hp v Hr).
  - intros e Hin.
    destruct (for_each_In _ _ _ He e Hin) as [p [rx [_ [Hp Hr]]]].
    exact (setup_electrostatic_excluded _ p rx Hp e Hr).
Qed.

(** *** The setup of the butane chain *)

Lemma butane_V_not_near_zero :
  IsNearZero (0.5 * KCAL_TO_KJ * sqrt (2.119 * 2.119)) IsNearZero_default = false.
Proof.
  rewrite sqrt_square by lra.
  unfold IsNearZero, IsNearZero_default, KCAL_TO_KJ.
  apply Rltb_false. rewrite Rabs_pos_eq; lra.
Qed.

Lemma butane_qq_nonzero : Rneqb (KCAL_TO_KJ * 332.0637 * 0.1 * 0.1) 0 = true.
Proof. apply Rneqb_true. unfold KCAL_TO_KJ. lra. Qed.

Lemma butane_setup_torsion :
  exists i loc',
    setup_torsion (fresh_forcefield mol_butane) torsion_locals0 (0, 1, 2, 3)%nat
    = Ok ([i], loc')
    /\ (TorsionCalc.a i, TorsionCalc.b i, TorsionCalc.c i, TorsionCalc.d i)
       = (1, 2, 3, 4)%nat.
Proof.
  do 2 eexists. unfold setup_torsion.
  cbn -[IsNearZero cos sqrt Rmult Rdiv Rplus IZR].
  rewrite butane_V_not_near_zero.
  split; reflexivity.
Qed.

Lemma butane_SetupCalculations :
  exists bl al tl ol vl,
    SetupCalculations torsion_locals0 (fresh_forcefield mol_butane)
    = Ok (true, set_calculations bl al tl ol vl (fresh_forcefield mol_butane))
    /\ map (fun v => (VDWCalc.a v, VDWCalc.b v)) vl = [(1, 4)%nat].
Proof.
  do 5 eexists. unfold SetupCalculations, setup_torsions, setup_torsion.
  cbn -[IsNearZero cos sin sqrt ln pow Rmult Rdiv Rplus Rminus Ropp IZR].
  rewrite butane_V_not_near_zero.
  cbn -[IsNearZero cos sin sqrt ln pow Rmult Rdiv Rplus Rminus Ropp IZR].
  split; reflexivity.
Qed.

Lemma butane_SetupElectrostatics (bl : list BondCalc.t) (al : list AngleCalc.t)
      (tl : list TorsionCalc.t) (ol : list OOPCalc.t) (vl : list VDWCalc.t) :
  let ff1 := set_calculations bl al tl ol vl (fresh_forcefield mol_butane) in
  exists el,
    SetupElectrostatics ff1 = Ok (true, set_electrostaticcalculations el ff1)
    /\ map (fun e => (EleCalc.a e, EleCalc.b e)) el = [(1, 4)%nat].
Proof.
  intros ff1. eexists. unfold SetupElectrostatics, ff1.
  cbn -[Rneqb Rmult Rdiv IZR].
  rewrite butane_qq_nonzero.
  cbn -[Rneqb Rmult Rdiv IZR].
  split; reflexivity.
Qed.

Lemma nonbonded_lists_exclude_12_13_witness :
  exists ff1 ff2,
    SetupCalculations torsion_locals0 (fresh_forcefield mol_butane) = Ok (true, ff1)
    /\ SetupElectrostatics ff1 = Ok (true, ff2)
    /\ (forall v, In v (_vdwcalculations ff2) ->
                  not_12_13 (_mol ff2) (VDWCalc.a v) (VDWCalc.b v))
    /\ (forall e, In e (_electrostaticcalculations ff2) ->
                  not_12_13 (_mol ff2) (EleCalc.a e) (EleCalc.b e)).
Proof.
  destruct butane_SetupCalculations as [bl [al [tl [ol [vl [H1 _]]]]]].
  destruct (butane_SetupElectrostatics bl al tl ol vl) as [el [H2 _]].
  do 2 eexists.
  split; [ exact H1 | ].
  split; [ exact H2 | ].
  exact (nonbonded_lists_exclude_12_13 _ _ _ _ _ _ H1 H2).
Defined.

(** ** The torsion of two sp3 centers *)

Lemma GetAtom_Some (mol : OBMol) (idx a : nat) : GetAtom mol idx = Some a -> a = idx.
Proof.
  unfold GetAtom. destruct ((1 <=? idx)%nat && (idx <=? NumAtoms mol)%nat);
    [ intros H; injection H as <-; reflexivity | discriminate ].
Qed.

Lemma cos_sp3_phase : cos (IZR 3 * DEG_TO_RAD * 60.0) = -1.
Proof.
  assert (E : IZR 3 * DEG_TO_RAD * 60.0 = PI) by (unfold DEG_TO_RAD; lra).
  rewrite E. apply cos_PI.
Qed.

(** The table, for two sp3 centers that are not chalcogens. *)
Lemma torsion_table_sp3_sp3 (pB pC : OBFFParameter) (bnum cnum : nat) (tt : R)
      (loc : torsion_locals) :
  ipar pB 0 = 3%Z -> ipar pC 0 = 3%Z ->
  is_group6 bnum = false -> is_group6 cnum = false ->
  torsion_table (Some pB) (Some pC) bnum cnum tt loc
  = Ok (mkTorsionLocals 3 (0.5 * KCAL_TO_KJ * sqrt (dpar pB 6 * dpar pC 6)) 60.0).
Proof.
  intros HB HC Hb Hc. unfold torsion_table, and_then, coordination_is.
  cbn [deref bind]. rewrite HB, HC. cbn [Z.eqb Pos.eqb bind].
  unfold is_group6 in Hb, Hc.
  apply orb_false_elim in Hb, Hc. destruct Hb as [Hb1 Hb2], Hc as [Hc1 Hc2].
  rewrite Hb1, Hb2, Hc1, Hc2. reflexivity.
Qed.

(** C6.  A torsion record built for two sp3 central atoms, neither of them
    a chalcogen, has periodicity 3 and phase 60 degrees; its energy is 0 at
    a dihedral angle of 60 degrees (of either sign) and twice its torsion
    constant [V] at 0 degrees; with equal barrier parameters [v >= 0] on
    both centers the constant is [0.5 * KCAL_TO_KJ * v].  The constant is
    not negative and the energy lies between 0 and [2 V] at every dihedral
    angle, so that 0 is its minimum and [2 V] its maximum. *)
Theorem torsion_sp3_sp3
        (ff : OBForceFieldUFF) (loc loc' : torsion_locals) (i0 i1 i2 i3 : nat)
        (i : TorsionCalc.t) (tb tc : OBAtom) (pB pC : OBFFParameter) :
  setup_torsion ff loc (i0, i1, i2, i3) = Ok ([i], loc') ->
  atom (_mol ff) (i1 + 1) = Ok tb ->
  atom (_mol ff) (i2 + 1) = Ok tc ->
  GetParameterUFF (GetType tb) (_ffparams ff) = Some pB ->
  GetParameterUFF (GetType tc) (_ffparams ff) = Some pC ->
  ipar pB 0 = 3%Z ->
  ipar pC 0 = 3%Z ->
  is_group6 (GetAtomicNum tb) = false ->
  is_group6 (GetAtomicNum tc) = false ->
  TorsionCalc.n i = 3%Z
  /\ loc_phi0 loc' = 60
  /\ TorsionCalc.cosNPhi0 i = cos (3 * DEG_TO_RAD * 60)
  /\ torsion_energy i (60 * DEG_TO_RAD) = 0
  /\ torsion_energy i (- (60 * DEG_TO_RAD)) = 0
  /\ torsion_energy i 0 = 2 * TorsionCalc.V i
  /\ (dpar pB 6 = dpar pC 6 -> 0 <= dpar pB 6 ->
      TorsionCalc.V i = 0.5 * KCAL_TO_KJ * dpar pB 6)
  /\ 0 <= TorsionCalc.V i
  /\ (forall tor, 0 <= torsion_energy i tor <= 2 * TorsionCalc.V i).
Proof.
  intros Hsetup Htb Htc HpB HpC HB HC Hb Hc.
  unfold setup_torsion in Hsetup.
  destruct (GetAtom (_mol ff) (i0 + 1)) as [ a | ]; [ | discriminate ].
  destruct (GetAtom (_mol ff) (i1 + 1)) as [ b | ] eqn:Eb; [ | discriminate ].
  destruct (GetAtom (_mol ff) (i2 + 1)) as [ c | ] eqn:Ec; [ | discriminate ].
  destruct (GetAtom (_mol ff) (i3 + 1)) as [ d' | ]; [ | discriminate ].
  apply GetAtom_Some in Eb, Ec. subst b c.
  cbn [deref bind] in Hsetup.
  destruct (HasGroups ff && negb (in_one_intraGroup ff _)); [ discriminate | ].
  destruct (GetBond (_mol ff) (i1 + 1) (i2 + 1)) as [ bc | ]; [ | discriminate ].
  cbn [deref bind] in Hsetup.
  unfold parameter_of in Hsetup.
  rewrite Htb, Htc in Hsetup. cbn [bind] in Hsetup.
  rewrite HpB, HpC in Hsetup.
  rewrite (torsion_table_sp3_sp3 pB pC _ _ _ loc HB HC Hb Hc) in Hsetup.
  cbn [bind loc_V loc_n loc_phi0] in Hsetup.
  destruct (IsNearZero _ IsNearZero_default); [ discriminate | ].
  injection Hsetup as <- <-.
  unfold torsion_energy.
  cbn [TorsionCalc.n TorsionCalc.cosNPhi0 TorsionCalc.V loc_phi0].
  rewrite cos_sp3_phase.
  assert (H60 : cos (60 * DEG_TO_RAD * IZR 3) = -1).
  { assert (E : 60 * DEG_TO_RAD * IZR 3 = PI) by (unfold DEG_TO_RAD; lra).
    rewrite E. apply cos_PI. }
  assert (Hm60 : cos (- (60 * DEG_TO_RAD) * IZR 3) = -1).
  { assert (E : - (60 * DEG_TO_RAD) * IZR 3 = - PI) by (unfold DEG_TO_RAD; lra).
    rewrite E, cos_neg. apply cos_PI. }
  assert (H0 : cos (0 * IZR 3) = 1).
  { replace (0 * IZR 3) with 0 by lra. apply cos_0. }
  rewrite H60, Hm60, H0.
  split; [ reflexivity | ].
  split; [ lra | ].
  assert (E : 3 * DEG_TO_RAD * 60 = PI) by (unfold DEG_TO_RAD; lra).
  split; [ rewrite E, cos_PI; reflexivity | ].
  split; [ lra | ].
  split; [ lra | ].
  split; [ lra | ].
  split; [ intros Heq Hpos; rewrite <- Heq, sqrt_square by exact Hpos; reflexivity | ].
  assert (HV : 0 <= 0.5 * KCAL_TO_KJ * sqrt (dpar pB 6 * dpar pC 6)).
  { apply Rmult_le_pos; [ unfold KCAL_TO_KJ; lra | apply sqrt_pos ]. }
  split; [ exact HV | ].
  intros tor. pose proof (COS_bound (tor * IZR 3)) as [Hlo Hhi].
  split; [ apply Rmult_le_pos; [ exact HV | lra ] | ].
  rewrite (Rmult_comm 2). apply Rmult_le_compat_l; [ exact HV | lra ].
Qed.

Lemma torsion_sp3_sp3_witness :
  exists i loc',
    setup_torsion (fresh_forcefield mol_butane) torsion_locals0 (0, 1, 2, 3)%nat
    = Ok ([i], loc')
    /\ TorsionCalc.n i = 3%Z
    /\ torsion_energy i (60 * DEG_TO_RAD) = 0
    /\ torsion_energy i 0 = 2 * TorsionCalc.V i
    /\ TorsionCalc.V i = 0.5 * KCAL_TO_KJ * 2.119
    /\ (forall tor, torsion_energy i (60 * DEG_TO_RAD) <= torsion_energy i tor).
Proof.
  destruct butane_setup_torsion as [i [loc' [H _]]].
  exists i, loc'.
  destruct (torsion_sp3_sp3 (fresh_forcefield mol_butane) torsion_locals0 loc'
              0 1 2 3 i (carbon 0) (carbon 0) param_C_3 param_C_3
              H eq_refl eq_refl eq_refl eq_refl eq_refl eq_refl eq_refl eq_refl)
    as [Hn [_ [_ [H60 [_ [H0 [HV [_ Hmin]]]]]]]].
  split; [ exact H | ].
  split; [ exact Hn | ].
  split; [ exact H60 | ].
  split; [ exact H0 | ].
  split; [ apply HV; [ reflexivity | unfold dpar, param_C_3; simpl; lra ] | ].
  intros tor. rewrite H60. apply Hmin.
Defined.

(** ** Non-finite angles *)

Lemma zero_literal : 0.0 = 0.
Proof. lra. Qed.

Section EnergyFacts.

Variable VectorBondDerivative : Vec -> Vec -> R * Vec * Vec.
Variable VectorDistanceDerivative : Vec -> Vec -> R * Vec * Vec.
Variable VectorAngle : Vec -> Vec -> double.
Variable VectorAngleDerivative : Vec -> Vec -> Vec -> double * Vec * Vec * Vec.
Variable VectorTorsionDerivative :
  Vec -> Vec -> Vec -> Vec -> double * Vec * Vec * Vec * Vec.
Variable VectorOOP : Vec -> Vec -> Vec -> Vec -> double.
Variable VectorOOPDerivative :
  Vec -> Vec -> Vec -> Vec -> double * Vec * Vec * Vec * Vec.
Variables BondTerm AngleTerm TorsionTerm OOPTerm VDWTerm : Z.

Lemma angle_theta_nonfinite (raw : double) :
  isfinite raw = false -> angle_theta raw = 0.
Proof. destruct raw; [ discriminate | intros _; apply zero_literal ]. Qed.

Lemma oop_angle_nonfinite (raw : double) :
  isfinite raw = false -> oop_angle raw = 0.
Proof. destruct raw; [ discriminate | intros _; apply zero_literal ]. Qed.

Lemma torsion_tor_gradients_nonfinite (raw : double) :
  isfinite raw = false -> torsion_tor_gradients raw = 0.001 * DEG_TO_RAD.
Proof. destruct raw; [ discriminate | intros _; reflexivity ]. Qed.

Lemma torsion_tor_value_nonfinite (dotAbbcBccd : R) (raw : double) :
  isfinite raw = false -> torsion_tor_value dotAbbcBccd raw = 0.001.
Proof. destruct raw; [ discriminate | intros _; reflexivity ]. Qed.

(** C7.  When the angle, the torsion or the out-of-plane angle that a
    term computes for a record is not finite, the energy of the record is
    the energy at the fallback value: 0 for the angle and the OOP term,
    1.0e-3 for the torsion (read in degrees and converted with gradients,
    in radians without). *)
Theorem nonfinite_angles_replaced
        (positions g : list Vec)
        (ia : AngleCalc.t) (it : TorsionCalc.t) (io : OOPCalc.t) :
  let at_ := fun k : nat => position positions (k - 1) in
  (isfinite (VectorAngle
               (Vector3d.sub (at_ (AngleCalc.a ia)) (at_ (AngleCalc.b ia)))
               (Vector3d.sub (at_ (AngleCalc.c ia)) (at_ (AngleCalc.b ia)))) = false ->
   fst (angle_term VectorAngle VectorAngleDerivative false positions ia g)
   = angle_energy ia 0)
  /\ (isfinite (fst (fst (fst (VectorAngleDerivative
                                 (at_ (AngleCalc.a ia)) (at_ (AngleCalc.b ia))
                                 (at_ (AngleCalc.c ia)))))) = false ->
      fst (angle_term VectorAngle VectorAngleDerivative true positions ia g)
      = angle_energy ia 0)
  /\ (isfinite (snd (torsion_acos (at_ (TorsionCalc.a it)) (at_ (TorsionCalc.b it))
                                  (at_ (TorsionCalc.c it)) (at_ (TorsionCalc.d it))))
      = false ->
      fst (torsion_term VectorTorsionDerivative false positions it g)
      = torsion_energy it 0.001)
  /\ (isfinite (fst (fst (fst (fst (VectorTorsionDerivative
                                      (at_ (TorsionCalc.a it)) (at_ (TorsionCalc.b it))
                                      (at_ (TorsionCalc.c it)) (at_ (TorsionCalc.d it)))))))
      = false ->
      fst (torsion_term VectorTorsionDerivative true positions it g)
      = torsion_energy it (0.001 * DEG_TO_RAD))
  /\ (isfinite (VectorOOP (at_ (OOPCalc.a io)) (at_ (OOPCalc.b io))
                          (at_ (OOPCalc.c io)) (at_ (OOPCalc.d io))) = false ->
      fst (oop_term VectorOOP VectorOOPDerivative false positions io g)
      = oop_energy io 0)
  /\ (isfinite (fst (fst (fst (fst (VectorOOPDerivative
                                      (at_ (OOPCalc.a io)) (at_ (OOPCalc.b io))
                                      (at_ (OOPCalc.c io)) (at_ (OOPCalc.d io)))))))
      = false ->
      fst (oop_term VectorOOP VectorOOPDerivative true positions io g)
      = oop_energy io 0).
Proof.
  intros at_. unfold at_.
  repeat split.
  - intros H. unfold angle_term. cbn [fst].
    rewrite (angle_theta_nonfinite _ H). reflexivity.
  - unfold angle_term.
    destruct (VectorAngleDerivative _ _ _) as [[[raw Fa] Fb] Fc]. cbn [fst].
    intros H. rewrite (angle_theta_nonfinite _ H). reflexivity.
  - unfold torsion_term.
    destruct (torsion_acos _ _ _ _) as [dotAbbcBccd raw]. cbn [fst snd].
    intros H. rewrite (torsion_tor_value_nonfinite _ _ H). reflexivity.
  - unfold torsion_term.
    destruct (VectorTorsionDerivative _ _ _ _) as [[[[raw Fa] Fb] Fc] Fd]. cbn [fst].
    intros H. rewrite (torsion_tor_gradients_nonfinite _ H). reflexivity.
  - intros H. unfold oop_term. cbn [fst].
    rewrite (oop_angle_nonfinite _ H). reflexivity.
  - unfold oop_term.
    destruct (VectorOOPDerivative _ _ _ _) as [[[[raw Fa] Fb] Fc] Fd]. cbn [fst].
    intros H. rewrite (oop_angle_nonfinite _ H). reflexivity.
Qed.

(** ** The electrostatic list and the total energy *)

(** C9.  The total energy and the gradients that [Energy] leaves do not
    depend on the electrostatic list: replacing the list, in particular
    by the one [SetupElectrostatics] builds, changes neither. *)
Theorem Energy_ignores_electrostatics (gradients : bool) (ff : OBForceFieldUFF) :
  let total :=
    Energy VectorBondDerivative VectorDistanceDerivative VectorAngle
           VectorAngleDerivative VectorTorsionDerivative VectorOOP
           VectorOOPDerivative BondTerm AngleTerm TorsionTerm OOPTerm VDWTerm
           gradients in
  (forall el, total (set_electrostaticcalculations el ff) = total ff)
  /\ (forall r ff', SetupElectrostatics ff = Ok (r, ff') -> total ff' = total ff).
Proof.
  intros total. split.
  - intros el. reflexivity.
  - intros r ff'. unfold SetupElectrostatics.
    destruct (for_each (setup_electrostatic ff) _) as [ el | ]; [ | discriminate ].
    cbn [bind]. intros H; injection H as _ <-. reflexivity.
Qed.

End EnergyFacts.

Lemma torsion_acos_coincident :
  isfinite (snd (torsion_acos Vector3d.Zero Vector3d.Zero Vector3d.Zero Vector3d.Zero))
  = false.
Proof.
  unfold torsion_acos. cbn [snd].
  set (n := Vector3d.cross (Vector3d.sub Vector3d.Zero Vector3d.Zero)
                           (Vector3d.sub Vector3d.Zero Vector3d.Zero)).
  assert (Hn : Vector3d.norm n = 0).
  { unfold Vector3d.norm.
    assert (E : Vector3d.squaredNorm n = 0)
      by (unfold n, Vector3d.squaredNorm, Vector3d.dot; simpl; lra).
    rewrite E. apply sqrt_0. }
  rewrite Hn. unfold ddiv.
  assert (Hz : Rneqb (0 * 0) 0 = false) by (apply Rneqb_false; lra).
  rewrite Hz. reflexivity.
Qed.

Lemma nonfinite_angles_replaced_witness :
  fst (angle_term degenerate_angle degenerate_angle_derivative false
                  coincident_positions sample_angle [])
  = angle_energy sample_angle 0
  /\ fst (angle_term degenerate_angle degenerate_angle_derivative true
                     coincident_positions sample_angle [])
     = angle_energy sample_angle 0
  /\ fst (torsion_term degenerate_dihedral_derivative false
                       coincident_positions sample_torsion [])
     = torsion_energy sample_torsion 0.001
  /\ fst (torsion_term degenerate_dihedral_derivative true
                       coincident_positions sample_torsion [])
     = torsion_energy sample_torsion (0.001 * DEG_TO_RAD)
  /\ fst (oop_term degenerate_dihedral degenerate_dihedral_derivative false
                   coincident_positions sample_oop [])
     = oop_energy sample_oop 0
  /\ fst (oop_term degenerate_dihedral degenerate_dihedral_derivative true
                   coincident_positions sample_oop [])
     = oop_energy sample_oop 0.
Proof.
  destruct (nonfinite_angles_replaced
              degenerate_angle degenerate_angle_derivative
              degenerate_dihedral_derivative
              degenerate_dihedral degenerate_dihedral_derivative
              coincident_positions [] sample_angle sample_torsion sample_oop)
    as [H1 [H2 [H3 [H4 [H5 H6]]]]].
  split; [ apply H1; reflexivity | ].
  split; [ apply H2; reflexivity | ].
  split; [ apply H3; exact torsion_acos_coincident | ].
  split; [ apply H4; reflexivity | ].
  split; [ apply H5; reflexivity | apply H6; reflexivity ].
Defined.

Lemma Energy_ignores_electrostatics_witness :
  exists ff1 ff2,
    SetupElectrostatics ff1 = Ok (true, ff2)
    /\ map (fun e => (EleCalc.a e, EleCalc.b e)) (_electrostaticcalculations ff2)
       = [(1, 4)%nat]
    /\ Energy distance_only distance_only degenerate_angle degenerate_angle_derivative
              degenerate_dihedral_derivative degenerate_dihedral
              degenerate_dihedral_derivative 1 2 4 8 16 true ff2
       = Energy distance_only distance_only degenerate_angle degenerate_angle_derivative
                degenerate_dihedral_derivative degenerate_dihedral
                degenerate_dihedral_derivative 1 2 4 8 16 true ff1.
Proof.
  destruct butane_SetupCalculations as [bl [al [tl [ol [vl _]]]]].
  destruct (butane_SetupElectrostatics bl al tl ol vl) as [el [H2 Hel]].
  do 2 eexists.
  split; [ exact H2 | ].
  split; [ exact Hel | ].
  exact (proj2 (Energy_ignores_electrostatics
                  distance_only distance_only degenerate_angle
                  degenerate_angle_derivative degenerate_dihedral_derivative
                  degenerate_dihedral degenerate_dihedral_derivative 1 2 4 8 16 true _)
               true _ H2).
Defined.

(** * Further properties of the minimizer *)

Lemma Newton2Num_scale_pos (dir : list Vec) : 0 < Newton2Num_scale dir.
Proof.
  unfold Newton2Num_scale.
  set (sum := fold_left (fun s v => s + Vector3d.squaredNorm v) dir 0.0).
  destruct (IsNearZero (sqrt sum) IsNearZero_default) eqn:H.
  - lra.
  - unfold IsNearZero, IsNearZero_default in H. apply Rltb_false in H.
    rewrite Rabs_pos_eq in H by apply sqrt_pos. lra.
Qed.

Section LineSearchResults.

Variable energy : list Vec -> R.
Variable gradient : list Vec -> list Vec.

(** The steps the Newton loop tries, and the best one it keeps, stay
    between 0 and [max_scl]. *)
Lemma Newton2Num_loop_step_bounds (orig dir : list Vec) (max_scl : R) (k : nat) :
  forall step opt_step opt_e f,
    0 <= step <= max_scl ->
    0 <= opt_step <= max_scl ->
    0 <= fst (fst (Newton2Num_loop energy gradient k orig dir max_scl
                                   step opt_step opt_e f)) <= max_scl.
Proof.
  induction k as [ | k IH ]; intros step opt_step opt_e f Hs Ho; cbn [Newton2Num_loop].
  - cbn [fst]. destruct (Rltb _ opt_e); assumption.
  - assert (Hbest : 0 <= (if Rltb (m_value (TakeStepAndCompute energy gradient orig dir
                                                               step f)) opt_e
                          then step else opt_step) <= max_scl)
      by (destruct (Rltb _ opt_e); assumption).
    destruct (Rneqb _ 0.0).
    + apply IH; [ | exact Hbest ].
      unfold Rgtb. destruct (Rltb max_scl _) eqn:Hc.
      * lra.
      * apply Rltb_false in Hc. split; [ apply Rabs_pos | exact Hc ].
    + cbn [fst]. exact Hbest.
Qed.

Lemma Newton2Num_loop_positions (orig dir : list Vec) (max_scl : R) (k : nat) :
  forall step opt_step opt_e f,
    (exists s, m_positions f = stepped orig dir s) ->
    exists s, m_positions (snd (Newton2Num_loop energy gradient k orig dir max_scl
                                                step opt_step opt_e f))
              = stepped orig dir s.
Proof.
  intros step opt_step opt_e f Hf.
  destruct (Newton2Num_loop_invariant energy gradient orig dir max_scl
              (Rmax (energy (stepped orig dir opt_step)) opt_e) k
              step opt_step opt_e f Hf (Rmax_l _ _) (Rmax_r _ _)) as [H _].
  exact H.
Qed.

(** X1.  The Newton search returns [opt_step * scale] for a step
    [opt_step] between 0 and [max_step / scale], so that the value returned
    is between 0 and [max_step = 5.0], and it leaves every position at
    [origCoords[c] + direction[c] * opt_step]: the positions it returns with
    are those of the step it reports, not those of its last trial. *)
Theorem Newton2NumLineSearch_commits_step (direction : list Vec) (m : OBMinimize) :
  let scale := Newton2Num_scale direction in
  let r := Newton2NumLineSearch energy gradient direction m in
  exists opt_step,
    fst r = opt_step * scale
    /\ 0 <= opt_step <= 5.0 / scale
    /\ 0 <= fst r <= 5.0
    /\ GetPositions (snd r)
       = LineSearchTakeStep (GetPositions m) direction opt_step (GetPositions m)
    /\ d (snd r) = d m.
Proof.
  intros scale r. unfold r, Newton2NumLineSearch. fold scale.
  pose proof (Newton2Num_scale_pos direction) as Hpos. fold scale in Hpos.
  assert (Hmax : 0 <= 5.0 / scale) by (apply Rlt_le, Rdiv_lt_0_compat; lra).
  assert (Hstep0 : 0 <= 0.025 / scale <= 5.0 / scale).
  { split; [ apply Rlt_le, Rdiv_lt_0_compat; lra | ].
    unfold Rdiv. apply Rmult_le_compat_r; [ apply Rlt_le, Rinv_0_lt_compat; lra | lra ]. }
  assert (Hsmall : 0 <= 0.001 * 0.025 / scale <= 5.0 / scale).
  { split; [ apply Rlt_le, Rdiv_lt_0_compat; lra | ].
    unfold Rdiv. apply Rmult_le_compat_r; [ apply Rlt_le, Rinv_0_lt_compat; lra | lra ]. }
  pose proof (Newton2Num_loop_step_bounds (GetPositions m) direction (5.0 / scale) 4
                (0.025 / scale) 0.0 (e_n1 (d m)) (m_function m) Hstep0) as Hb.
  pose proof (Newton2Num_loop_positions (GetPositions m) direction (5.0 / scale) 4
                (0.025 / scale) 0.0 (e_n1 (d m)) (m_function m)) as Hp.
  destruct (Newton2Num_loop energy gradient 4 (GetPositions m) direction (5.0 / scale)
              (0.025 / scale) 0.0 (e_n1 (d m)) (m_function m)) as [[opt_step opt_e] f1].
  cbn [fst snd] in Hb, Hp.
  assert (Hb' : 0 <= opt_step <= 5.0 / scale) by (apply Hb; lra).
  destruct Hp as [s Hs].
  { exists 0. unfold stepped. rewrite TakeStep_zero. reflexivity. }
  assert (Hfinal : forall o, 0 <= o <= 5.0 / scale ->
                             0 <= o * scale <= 5.0).
  { intros o [Ho1 Ho2]. split; [ apply Rmult_le_pos; lra | ].
    apply (Rmult_le_compat_r scale) in Ho2; [ | lra ].
    unfold Rdiv in Ho2. rewrite Rmult_assoc, Rinv_l in Ho2 by lra. lra. }
  destruct (Rneqb opt_step 0.0).
  - exists opt_step. cbn [fst snd GetPositions m_function SetPositions m_positions d].
    rewrite Hs. unfold stepped. rewrite TakeStep_overwrite.
    repeat split; try apply Hb'; try apply (Hfinal opt_step Hb').
  - destruct (TakeStepAndCompute_positions energy gradient (GetPositions m) direction
                (0.001 * 0.025 / scale) s f1 Hs) as [Hp2 _].
    cbn [fst snd GetPositions m_function SetPositions m_positions d].
    fold (GetPositions m). rewrite Hp2. unfold stepped. rewrite TakeStep_overwrite.
    destruct (Rltb _ opt_e).
    + exists (0.001 * 0.025 / scale).
      repeat split; try apply Hsmall; try apply (Hfinal _ Hsmall).
    + exists opt_step.
      repeat split; try apply Hb'; try apply (Hfinal opt_step Hb').
Qed.

End LineSearchResults.

(** ** Atoms with a zero direction *)

Lemma add_scale_Zero (a : Vec) (s : R) :
  Vector3d.add a (Vector3d.scale Vector3d.Zero s) = a.
Proof. apply vec_eq; simpl; lra. Qed.

Lemma LineSearch_tempStep_Zero (step : R) :
  LineSearch_tempStep Vector3d.Zero step = Vector3d.scale Vector3d.Zero step.
Proof.
  apply LineSearch_tempStep_small.
  unfold Vector3d.squaredNorm, Vector3d.dot, trustRadius2; simpl; lra.
Qed.

Lemma nth_TakeStep_frozen (s : R) (dir : list Vec) :
  forall orig P c,
    nth c dir Vector3d.Zero = Vector3d.Zero ->
    nth c P Vector3d.Zero = nth c orig Vector3d.Zero ->
    nth c (LineSearchTakeStep orig dir s P) Vector3d.Zero = nth c orig Vector3d.Zero.
Proof.
  induction dir as [ | dc dir IH ]; intros orig P c Hd HP.
  - destruct orig; exact HP.
  - destruct orig as [ | oc orig ]; [ exact HP | ].
    destruct P as [ | p P ]; [ exact HP | ].
    destruct c as [ | c ]; simpl in *.
    + subst dc. apply add_scale_Zero.
    + apply IH; assumption.
Qed.

Lemma nth_LineSearch_move_frozen (step : R) (dir : list Vec) :
  forall cur c,
    nth c dir Vector3d.Zero = Vector3d.Zero ->
    nth c (LineSearch_move cur dir step) Vector3d.Zero = nth c cur Vector3d.Zero.
Proof.
  induction dir as [ | dc dir IH ]; intros cur c Hd.
  - destruct cur; reflexivity.
  - destruct cur as [ | cc cur ]; [ reflexivity | ].
    destruct c as [ | c ]; simpl in *.
    + subst dc. rewrite LineSearch_tempStep_Zero. apply add_scale_Zero.
    + apply IH; assumption.
Qed.

Section FrozenAtoms.

Variable energy : list Vec -> R.
Variable gradient : list Vec -> list Vec.

Lemma LineSearch_loop_frozen (dir : list Vec) (c : nat) (p0 : Vec) (n : nat) :
  nth c dir Vector3d.Zero = Vector3d.Zero ->
  forall e1 step alpha f,
    nth c (m_positions f) Vector3d.Zero = p0 ->
    nth c (m_positions (snd (LineSearch_loop energy gradient n dir e1 step alpha f)))
        Vector3d.Zero = p0.
Proof.
  intros Hd. induction n as [ | n IH ]; intros e1 step alpha f Hf; cbn [LineSearch_loop].
  - exact Hf.
  - assert (Hmove : nth c (LineSearch_move (m_positions f) dir step) Vector3d.Zero = p0)
      by (rewrite nth_LineSearch_move_frozen; assumption).
    destruct (IsNear _ e1 0.001); [ exact Hmove | ].
    destruct (Rgtb _ e1); [ apply IH; exact Hf | ].
    destruct (Rltb _ e1); apply IH; exact Hmove.
Qed.

(** X2.  An atom whose direction vector is zero is where it was when
    either line search returns. *)
Theorem line_search_keeps_frozen_atoms (direction : list Vec) (m : OBMinimize) (c : nat) :
  nth c direction Vector3d.Zero = Vector3d.Zero ->
  nth c (GetPositions (snd (Newton2NumLineSearch energy gradient direction m)))
      Vector3d.Zero
  = nth c (GetPositions m) Vector3d.Zero
  /\ nth c (GetPositions (snd (LineSearch energy gradient direction m))) Vector3d.Zero
     = nth c (GetPositions m) Vector3d.Zero.
Proof.
  intros Hd. split.
  - unfold Newton2NumLineSearch.
    set (scale := Newton2Num_scale direction).
    pose proof (Newton2Num_loop_positions energy gradient (GetPositions m) direction
                  (5.0 / scale) 4 (0.025 / scale) 0.0 (e_n1 (d m)) (m_function m)) as Hp.
    destruct (Newton2Num_loop energy gradient 4 (GetPositions m) direction (5.0 / scale)
                (0.025 / scale) 0.0 (e_n1 (d m)) (m_function m))
      as [[opt_step opt_e] f1].
    cbn [snd] in Hp.
    destruct Hp as [s Hs].
    { exists 0. unfold stepped. rewrite TakeStep_zero. reflexivity. }
    assert (Hany : forall o P, nth c P Vector3d.Zero = nth c (GetPositions m) Vector3d.Zero ->
                               nth c (LineSearchTakeStep (GetPositions m) direction o P)
                                   Vector3d.Zero
                               = nth c (GetPositions m) Vector3d.Zero)
      by (intros o P HP; apply nth_TakeStep_frozen; assumption).
    assert (Hf1 : nth c (m_positions f1) Vector3d.Zero
                  = nth c (GetPositions m) Vector3d.Zero)
      by (rewrite Hs; unfold stepped; apply Hany; reflexivity).
    destruct (Rneqb opt_step 0.0);
      cbn [snd GetPositions m_function SetPositions m_positions TakeStepAndCompute Compute];
      fold (GetPositions m); apply Hany; [ exact Hf1 | apply Hany; exact Hf1 ].
  - unfold LineSearch.
    pose proof (LineSearch_loop_frozen direction c (nth c (GetPositions m) Vector3d.Zero)
                  10 Hd (m_value (Compute energy gradient Value (m_function m))) 0.2 0.0
                  (Compute energy gradient Value (m_function m)) eq_refl) as H.
    destruct (LineSearch_loop energy gradient 10 direction _ 0.2 0.0 _) as [alpha f].
    exact H.
Qed.

End FrozenAtoms.

(** ** Runs of the optimizers *)

Section OptimizerRuns.

Variable energy : list Vec -> R.
Variable gradient : list Vec -> list Vec.
Variable hasGradients : bool.
Variable Newton2Num : Z.

Lemma perform_linesearch_private (dir : list Vec) (m : OBMinimize) :
  d (snd (perform_linesearch energy gradient Newton2Num dir m)) = d m.
Proof. apply perform_linesearch_gradients. Qed.

(** The step of steepest descent, with the line search named. *)
Lemma SteepestDescent_step_unfold (m : OBMinimize) :
  let m1 := set_cstep (cstep (d m) + 1) m in
  let m2 := snd (perform_linesearch energy gradient Newton2Num (GetGradients m1) m1) in
  let m3 := set_function (Compute energy gradient Gradients (m_function m2)) m2 in
  SteepestDescent_step energy gradient Newton2Num m
  = if IsNear (m_value (m_function m3)) (e_n1 (d m3)) (econv (d m3))
    then (Some false, m3)
    else if Z.eqb (nsteps (d m3)) (cstep (d m3)) then (Some false, m3)
         else (None, set_e_n1 (m_value (m_function m3)) m3).
Proof.
  unfold SteepestDescent_step.
  destruct (perform_linesearch energy gradient Newton2Num _ _) as [alpha m2].
  reflexivity.
Qed.

Lemma ConjugateGradients_step_unfold (grad2 : Direction) (m : OBMinimize) :
  let m1 := set_cstep (cstep (d m) + 1) m in
  let dir := CG_direction hasGradients (cstep (d m1)) grad2 m1 in
  let m2 := set_grad1 (map finite_direction (snd dir)) m1 in
  let m3 := snd (perform_linesearch energy gradient Newton2Num (grad1 (d m2)) m2) in
  let m4 := set_grad1 (GetGradients m3) m3 in
  let m5 := set_function (Compute energy gradient Gradients (m_function m4)) m4 in
  ConjugateGradients_step energy gradient hasGradients Newton2Num grad2 m
  = if IsNear (m_value (m_function m5)) (e_n1 (d m5)) (econv (d m5))
    then (Some false, fst dir, m5)
    else if Z.eqb (nsteps (d m5)) (cstep (d m5)) then (Some false, fst dir, m5)
         else (None, fst dir, set_e_n1 (m_value (m_function m5)) m5).
Proof.
  unfold ConjugateGradients_step.
  destruct (CG_direction hasGradients _ grad2 _) as [grad2' direction].
  destruct (perform_linesearch energy gradient Newton2Num _ _) as [alpha m3].
  reflexivity.
Qed.

(** What one step does to the counters: the step count grows by one, the
    budget stays, and the loop goes on only below the budget. *)
Lemma SteepestDescent_step_counters (m : OBMinimize) :
  let r := SteepestDescent_step energy gradient Newton2Num m in
  cstep (d (snd r)) = (cstep (d m) + 1)%Z
  /\ nsteps (d (snd r)) = nsteps (d m)
  /\ (fst r = Some false \/ (fst r = None /\ nsteps (d m) <> (cstep (d m) + 1)%Z)).
Proof.
  cbv zeta. rewrite SteepestDescent_step_unfold. cbv zeta.
  set (m1 := set_cstep (cstep (d m) + 1) m).
  pose proof (perform_linesearch_private (GetGradients m1) m1) as Hd.
  set (m2 := snd (perform_linesearch energy gradient Newton2Num (GetGradients m1) m1)) in *.
  cbn [set_function d].
  destruct (IsNear _ _ _); cbn [fst snd set_function d].
  - rewrite Hd. cbn. auto.
  - destruct (Z.eqb (nsteps (d m2)) (cstep (d m2))) eqn:E; cbn [fst snd set_function d set_e_n1].
    + rewrite Hd. cbn. auto.
    + rewrite Hd in *. cbn in *. apply Z.eqb_neq in E. cbn. auto.
Qed.

Lemma ConjugateGradients_step_counters (grad2 : Direction) (m : OBMinimize) :
  let r := ConjugateGradients_step energy gradient hasGradients Newton2Num grad2 m in
  cstep (d (snd r)) = (cstep (d m) + 1)%Z
  /\ nsteps (d (snd r)) = nsteps (d m)
  /\ (fst (fst r) = Some false
      \/ (fst (fst r) = None /\ nsteps (d m) <> (cstep (d m) + 1)%Z)).
Proof.
  cbv zeta. rewrite ConjugateGradients_step_unfold. cbv zeta.
  set (m1 := set_cstep (cstep (d m) + 1) m).
  set (dir := CG_direction hasGradients (cstep (d m1)) grad2 m1).
  set (m2 := set_grad1 (map finite_direction (snd dir)) m1).
  pose proof (perform_linesearch_private (grad1 (d m2)) m2) as Hd.
  set (m3 := snd (perform_linesearch energy gradient Newton2Num (grad1 (d m2)) m2)) in *.
  destruct (IsNear _ _ _); cbn [fst snd set_function d set_grad1 cstep nsteps].
  - rewrite Hd. cbn. auto.
  - destruct (Z.eqb _ _) eqn:E; cbn [fst snd set_function d set_e_n1 set_grad1 cstep nsteps].
    + rewrite Hd. cbn. auto.
    + cbn [set_function d set_grad1 cstep nsteps] in E.
      rewrite Hd in *. cbn in *. apply Z.eqb_neq in E. auto.
Qed.

Lemma SteepestDescentTakeNSteps_counters (n : nat) :
  forall m,
    let r := SteepestDescentTakeNSteps energy gradient Newton2Num n m in
    nsteps (d (snd r)) = nsteps (d m)
    /\ (if fst r then cstep (d (snd r)) = (cstep (d m) + Z.of_nat n)%Z
        else (cstep (d m) + 1 <= cstep (d (snd r)) <= cstep (d m) + Z.of_nat n)%Z)
    /\ ((cstep (d m) < nsteps (d m))%Z -> (cstep (d (snd r)) <= nsteps (d m))%Z).
Proof.
  induction n as [ | n IH ]; intros m; cbn [SteepestDescentTakeNSteps].
  - cbn. repeat split; lia.
  - pose proof (SteepestDescent_step_counters m) as Hs. cbv zeta in Hs.
    destruct (SteepestDescent_step energy gradient Newton2Num m) as [[b | ] m1].
    + cbn [fst snd] in *. destruct Hs as [Hc [Hn [Hb | [Hb _]]]]; [ | discriminate ].
      injection Hb as ->. repeat split; try lia.
    + cbn [fst snd] in Hs. destruct Hs as [Hc [Hn [Hb | [_ Hne]]]]; [ discriminate | ].
      specialize (IH m1). cbv zeta in IH.
      destruct (SteepestDescentTakeNSteps energy gradient Newton2Num n m1) as [b m2].
      cbn [fst snd] in *. destruct IH as [IHn [IHc IHb]].
      repeat split; [ lia | destruct b; lia | intros Hlt; apply Z.le_trans with (nsteps (d m1)); [ apply IHb | ]; lia ].
Qed.

Lemma ConjugateGradientsTakeNSteps_counters (n : nat) :
  forall grad2 m,
    let r := ConjugateGradientsTakeNSteps energy gradient hasGradients Newton2Num
                                          n grad2 m in
    nsteps (d (snd r)) = nsteps (d m)
    /\ (if fst r then cstep (d (snd r)) = (cstep (d m) + Z.of_nat n)%Z
        else (cstep (d m) + 1 <= cstep (d (snd r)) <= cstep (d m) + Z.of_nat n)%Z)
    /\ ((cstep (d m) < nsteps (d m))%Z -> (cstep (d (snd r)) <= nsteps (d m))%Z).
Proof.
  induction n as [ | n IH ]; intros grad2 m; cbn [ConjugateGradientsTakeNSteps].
  - cbn. repeat split; lia.
  - pose proof (ConjugateGradients_step_counters grad2 m) as Hs. cbv zeta in Hs.
    destruct (ConjugateGradients_step energy gradient hasGradients Newton2Num grad2 m)
      as [[[b | ] g2] m1].
    + cbn [fst snd] in *. destruct Hs as [Hc [Hn [Hb | [Hb _]]]]; [ | discriminate ].
      injection Hb as ->. repeat split; try lia.
    + cbn [fst snd] in Hs. destruct Hs as [Hc [Hn [Hb | [_ Hne]]]]; [ discriminate | ].
      specialize (IH g2 m1). cbv zeta in IH.
      destruct (ConjugateGradientsTakeNSteps energy gradient hasGradients Newton2Num
                                             n g2 m1) as [b m2].
      cbn [fst snd] in *. destruct IH as [IHn [IHc IHb]].
      repeat split; [ lia | destruct b; lia | intros Hlt; apply Z.le_trans with (nsteps (d m1)); [ apply IHb | ]; lia ].
Qed.

End OptimizerRuns.

(** X3.  [TakeNSteps(n)] of either optimizer leaves the budget [nsteps]
    alone; when it returns true it has taken exactly [n] steps, when it
    returns false between one and [n]; and started below the budget it
    never counts past it. *)
Theorem TakeNSteps_step_accounting
        (energy : list Vec -> R) (gradient : list Vec -> list Vec)
        (hasGradients : bool) (Newton2Num : Z) (n : nat) (grad2 : Direction) (m : OBMinimize) :
  let sd := SteepestDescentTakeNSteps energy gradient Newton2Num n m in
  let cg := ConjugateGradientsTakeNSteps energy gradient hasGradients Newton2Num
                                         n grad2 m in
  (nsteps (d (snd sd)) = nsteps (d m)
   /\ (if fst sd then cstep (d (snd sd)) = (cstep (d m) + Z.of_nat n)%Z
       else (cstep (d m) + 1 <= cstep (d (snd sd)) <= cstep (d m) + Z.of_nat n)%Z)
   /\ ((cstep (d m) < nsteps (d m))%Z -> (cstep (d (snd sd)) <= nsteps (d m))%Z))
  /\ (nsteps (d (snd cg)) = nsteps (d m)
      /\ (if fst cg then cstep (d (snd cg)) = (cstep (d m) + Z.of_nat n)%Z
          else (cstep (d m) + 1 <= cstep (d (snd cg)) <= cstep (d m) + Z.of_nat n)%Z)
      /\ ((cstep (d m) < nsteps (d m))%Z -> (cstep (d (snd cg)) <= nsteps (d m))%Z)).
Proof.
  split.
  - apply SteepestDescentTakeNSteps_counters.
  - apply ConjugateGradientsTakeNSteps_counters.
Qed.

Section OptimizerEnergy.

Variable energy : list Vec -> R.
Variable gradient : list Vec -> list Vec.
Variable hasGradients : bool.
Variable Newton2Num : Z.

Lemma SteepestDescentInitialize_current (steps : Z) (conv : R) (m : OBMinimize) :
  minimizer_current energy gradient (SteepestDescentInitialize energy gradient steps conv m).
Proof. unfold minimizer_current; cbn; auto. Qed.

(** A step that does not return leaves the minimizer up to date. *)
Lemma SteepestDescent_step_current (m m' : OBMinimize) :
  SteepestDescent_step energy gradient Newton2Num m = (None, m') ->
  minimizer_current energy gradient m'.
Proof.
  rewrite SteepestDescent_step_unfold. cbv zeta.
  destruct (IsNear _ _ _); [ discriminate | ].
  destruct (Z.eqb _ _); [ discriminate | ].
  intros H; injection H as <-. unfold minimizer_current; cbn; auto.
Qed.

Lemma ConjugateGradients_step_current (grad2 g2 : Direction) (m m' : OBMinimize) :
  ConjugateGradients_step energy gradient hasGradients Newton2Num grad2 m = (None, g2, m') ->
  minimizer_current energy gradient m'.
Proof.
  rewrite ConjugateGradients_step_unfold. cbv zeta.
  destruct (IsNear _ _ _); [ discriminate | ].
  destruct (Z.eqb _ _); [ discriminate | ].
  intros H; injection H as _ <-. unfold minimizer_current; cbn; auto.
Qed.

Lemma SteepestDescentTakeNSteps_current (n : nat) :
  forall m,
    minimizer_current energy gradient m ->
    fst (SteepestDescentTakeNSteps energy gradient Newton2Num n m) = true ->
    minimizer_current energy gradient
                      (snd (SteepestDescentTakeNSteps energy gradient Newton2Num n m)).
Proof.
  induction n as [ | n IH ]; intros m Hm; cbn [SteepestDescentTakeNSteps].
  - intros _; exact Hm.
  - destruct (SteepestDescent_step energy gradient Newton2Num m) as [[b | ] m1] eqn:Hs.
    + pose proof (SteepestDescent_step_counters energy gradient Newton2Num m) as Hc.
      cbv zeta in Hc. rewrite Hs in Hc. cbn [fst snd] in Hc.
      destruct Hc as [_ [_ [Hb | [Hb _]]]]; [ | discriminate ].
      injection Hb as ->. cbn. discriminate.
    + apply IH. exact (SteepestDescent_step_current m m1 Hs).
Qed.

Lemma ConjugateGradientsInitialize_current (steps : Z) (conv : R) (m : OBMinimize) :
  minimizer_current energy gradient
    (ConjugateGradientsInitialize energy gradient Newton2Num steps conv m).
Proof.
  unfold ConjugateGradientsInitialize.
  destruct (perform_linesearch energy gradient Newton2Num _ _) as [alpha m5].
  unfold minimizer_current; cbn; auto.
Qed.

Lemma ConjugateGradientsTakeNSteps_current (n : nat) :
  forall grad2 m,
    minimizer_current energy gradient m ->
    fst (ConjugateGradientsTakeNSteps energy gradient hasGradients Newton2Num n grad2 m)
    = true ->
    minimizer_current energy gradient
      (snd (ConjugateGradientsTakeNSteps energy gradient hasGradients Newton2Num
                                         n grad2 m)).
Proof.
  induction n as [ | n IH ]; intros grad2 m Hm; cbn [ConjugateGradientsTakeNSteps].
  - intros _; exact Hm.
  - destruct (ConjugateGradients_step energy gradient hasGradients Newton2Num grad2 m)
      as [[[b | ] g2] m1] eqn:Hs.
    + pose proof (ConjugateGradients_step_counters energy gradient hasGradients
                    Newton2Num grad2 m) as Hc.
      cbv zeta in Hc. rewrite Hs in Hc. cbn [fst snd] in Hc.
      destruct Hc as [_ [_ [Hb | [Hb _]]]]; [ | discriminate ].
      injection Hb as ->. cbn. discriminate.
    + apply IH. exact (ConjugateGradients_step_current grad2 g2 m m1 Hs).
Qed.

Lemma SteepestDescentTakeNSteps_fresh (n : nat) :
  forall m,
    m_value (m_function m) = energy (GetPositions m) ->
    GetGradients m = gradient (GetPositions m) ->
    let r := SteepestDescentTakeNSteps energy gradient Newton2Num n m in
    m_value (m_function (snd r)) = energy (GetPositions (snd r))
    /\ GetGradients (snd r) = gradient (GetPositions (snd r)).
Proof.
  induction n as [ | n IH ]; intros m Hv Hg; cbn [SteepestDescentTakeNSteps].
  - split; assumption.
  - rewrite SteepestDescent_step_unfold. cbv zeta.
    destruct (IsNear _ _ _); [ split; reflexivity | ].
    destruct (Z.eqb _ _); [ split; reflexivity | ].
    apply IH; reflexivity.
Qed.

Lemma ConjugateGradientsTakeNSteps_fresh (n : nat) :
  forall grad2 m,
    m_value (m_function m) = energy (GetPositions m) ->
    GetGradients m = gradient (GetPositions m) ->
    let r := ConjugateGradientsTakeNSteps energy gradient hasGradients Newton2Num
                                          n grad2 m in
    m_value (m_function (snd r)) = energy (GetPositions (snd r))
    /\ GetGradients (snd r) = gradient (GetPositions (snd r)).
Proof.
  induction n as [ | n IH ]; intros grad2 m Hv Hg; cbn [ConjugateGradientsTakeNSteps].
  - split; assumption.
  - rewrite ConjugateGradients_step_unfold. cbv zeta.
    destruct (IsNear _ _ _); [ split; reflexivity | ].
    destruct (Z.eqb _ _); [ split; reflexivity | ].
    apply IH; reflexivity.
Qed.

(** With a tolerance of zero and a budget that is not used up, a step
    does not return. *)
Lemma SteepestDescent_one_step (steps : Z) (m : OBMinimize) :
  steps <> 1%Z ->
  fst (SteepestDescentTakeNSteps energy gradient Newton2Num 1
         (SteepestDescentInitialize energy gradient steps 0 m)) = true.
Proof.
  intros Hsteps. cbn [SteepestDescentTakeNSteps].
  rewrite SteepestDescent_step_unfold. cbv zeta.
  set (m0 := SteepestDescentInitialize energy gradient steps 0 m).
  set (m1 := set_cstep (cstep (d m0) + 1) m0).
  pose proof (perform_linesearch_private energy gradient Newton2Num (GetGradients m1) m1)
    as Hd.
  set (m2 := snd (perform_linesearch energy gradient Newton2Num (GetGradients m1) m1)) in *.
  cbn [set_function d]. rewrite Hd.
  assert (Hnear : forall a b, IsNear a b (econv (d m1)) = false).
  { intros a b. unfold IsNear. apply Rltb_false. cbn. apply Rabs_pos. }
  rewrite Hnear.
  assert (Hz : Z.eqb (nsteps (d m1)) (cstep (d m1)) = false)
    by (apply Z.eqb_neq; exact Hsteps).
  rewrite Hz. reflexivity.
Qed.

(** X4.  After [Initialize] and any [TakeNSteps] on it, the value of the
    function and its gradient array are those of the current positions;
    when [TakeNSteps] returns true, so is the energy stored in [d->e_n1]. *)
Theorem optimizers_keep_function_current
        (steps : Z) (conv : R) (n : nat) (grad2 : Direction) (m : OBMinimize) :
  let sd := SteepestDescentTakeNSteps energy gradient Newton2Num n
              (SteepestDescentInitialize energy gradient steps conv m) in
  let cg := ConjugateGradientsTakeNSteps energy gradient hasGradients Newton2Num n grad2
              (ConjugateGradientsInitialize energy gradient Newton2Num steps conv m) in
  (m_value (m_function (snd sd)) = energy (GetPositions (snd sd))
   /\ GetGradients (snd sd) = gradient (GetPositions (snd sd))
   /\ (fst sd = true -> e_n1 (d (snd sd)) = energy (GetPositions (snd sd))))
  /\ (m_value (m_function (snd cg)) = energy (GetPositions (snd cg))
      /\ GetGradients (snd cg) = gradient (GetPositions (snd cg))
      /\ (fst cg = true -> e_n1 (d (snd cg)) = energy (GetPositions (snd cg)))).
Proof.
  cbv zeta. split.
  - pose proof (SteepestDescentInitialize_current steps conv m) as [H1 [H2 H3]].
    destruct (SteepestDescentTakeNSteps_fresh n _ H2 H3) as [Hv Hg].
    split; [ exact Hv | split; [ exact Hg | ] ].
    intros Ht. apply SteepestDescentTakeNSteps_current; [ | exact Ht ].
    repeat split; assumption.
  - pose proof (ConjugateGradientsInitialize_current steps conv m) as [H1 [H2 H3]].
    destruct (ConjugateGradientsTakeNSteps_fresh n grad2 _ H2 H3) as [Hv Hg].
    split; [ exact Hv | split; [ exact Hg | ] ].
    intros Ht. apply ConjugateGradientsTakeNSteps_current; [ | exact Ht ].
    repeat split; assumption.
Qed.

End OptimizerEnergy.

(** *** With the Newton search the energy never goes up *)

Section OptimizerDescent.

Variable energy : list Vec -> R.
Variable gradient : list Vec -> list Vec.
Variable hasGradients : bool.
Variable Newton2Num : Z.

Lemma perform_linesearch_Newton_energy (dir : list Vec) (m : OBMinimize) :
  linesearch (d m) = Newton2Num ->
  e_n1 (d m) <= energy (GetPositions m) ->
  energy (GetPositions (snd (perform_linesearch energy gradient Newton2Num dir m)))
  <= energy (GetPositions m).
Proof.
  intros HN He. unfold perform_linesearch. rewrite HN, Z.eqb_refl.
  apply Newton2NumLineSearch_energy; exact He.
Qed.

Lemma SteepestDescent_step_descends (m : OBMinimize) :
  linesearch (d m) = Newton2Num ->
  e_n1 (d m) <= energy (GetPositions m) ->
  let r := SteepestDescent_step energy gradient Newton2Num m in
  energy (GetPositions (snd r)) <= energy (GetPositions m)
  /\ linesearch (d (snd r)) = Newton2Num
  /\ (fst r = None -> e_n1 (d (snd r)) <= energy (GetPositions (snd r))).
Proof.
  intros HN He. cbv zeta. rewrite SteepestDescent_step_unfold. cbv zeta.
  set (m1 := set_cstep (cstep (d m) + 1) m).
  pose proof (perform_linesearch_Newton_energy (GetGradients m1) m1 HN He) as Hls.
  pose proof (perform_linesearch_private energy gradient Newton2Num (GetGradients m1) m1)
    as Hd.
  set (m2 := snd (perform_linesearch energy gradient Newton2Num (GetGradients m1) m1)) in *.
  assert (HN2 : linesearch (d m2) = Newton2Num) by (rewrite Hd; exact HN).
  destruct (IsNear _ _ _); [ | destruct (Z.eqb _ _) ]; cbn [fst snd];
    (split; [ exact Hls | split; [ exact HN2 | ] ]); try discriminate.
  intros _. cbn. apply Rle_refl.
Qed.

Lemma SteepestDescentTakeNSteps_descends (n : nat) :
  forall m,
    linesearch (d m) = Newton2Num ->
    e_n1 (d m) <= energy (GetPositions m) ->
    energy (GetPositions (snd (SteepestDescentTakeNSteps energy gradient Newton2Num n m)))
    <= energy (GetPositions m).
Proof.
  induction n as [ | n IH ]; intros m HN He; cbn [SteepestDescentTakeNSteps].
  - apply Rle_refl.
  - pose proof (SteepestDescent_step_descends m HN He) as Hs. cbv zeta in Hs.
    destruct (SteepestDescent_step energy gradient Newton2Num m) as [[b | ] m1];
      cbn [fst snd] in *.
    + apply Hs.
    + destruct Hs as [H1 [H2 H3]].
      apply Rle_trans with (2 := H1). apply IH; [ exact H2 | apply H3; reflexivity ].
Qed.

Lemma ConjugateGradients_step_descends (grad2 : Direction) (m : OBMinimize) :
  linesearch (d m) = Newton2Num ->
  e_n1 (d m) <= energy (GetPositions m) ->
  let r := ConjugateGradients_step energy gradient hasGradients Newton2Num grad2 m in
  energy (GetPositions (snd r)) <= energy (GetPositions m)
  /\ linesearch (d (snd r)) = Newton2Num
  /\ (fst (fst r) = None -> e_n1 (d (snd r)) <= energy (GetPositions (snd r))).
Proof.
  intros HN He. cbv zeta. rewrite ConjugateGradients_step_unfold. cbv zeta.
  set (m1 := set_cstep (cstep (d m) + 1) m).
  set (dir := CG_direction hasGradients (cstep (d m1)) grad2 m1).
  set (m2 := set_grad1 (map finite_direction (snd dir)) m1).
  pose proof (perform_linesearch_Newton_energy (grad1 (d m2)) m2 HN He) as Hls.
  pose proof (perform_linesearch_private energy gradient Newton2Num (grad1 (d m2)) m2)
    as Hd.
  set (m3 := snd (perform_linesearch energy gradient Newton2Num (grad1 (d m2)) m2)) in *.
  assert (HN2 : linesearch (d m3) = Newton2Num) by (rewrite Hd; exact HN).
  destruct (IsNear _ _ _); [ | destruct (Z.eqb _ _) ]; cbn [fst snd];
    (split; [ exact Hls | split; [ exact HN2 | ] ]); try discriminate.
  intros _. cbn. apply Rle_refl.
Qed.

Lemma ConjugateGradientsTakeNSteps_descends (n : nat) :
  forall grad2 m,
    linesearch (d m) = Newton2Num ->
    e_n1 (d m) <= energy (GetPositions m) ->
    energy (GetPositions (snd (ConjugateGradientsTakeNSteps energy gradient hasGradients
                                                            Newton2Num n grad2 m)))
    <= energy (GetPositions m).
Proof.
  induction n as [ | n IH ]; intros grad2 m HN He; cbn [ConjugateGradientsTakeNSteps].
  - apply Rle_refl.
  - pose proof (ConjugateGradients_step_descends grad2 m HN He) as Hs. cbv zeta in Hs.
    destruct (ConjugateGradients_step energy gradient hasGradients Newton2Num grad2 m)
      as [[[b | ] g2] m1]; cbn [fst snd] in *.
    + apply Hs.
    + destruct Hs as [H1 [H2 H3]].
      apply Rle_trans with (2 := H1). apply IH; [ exact H2 | apply H3; reflexivity ].
Qed.

Lemma ConjugateGradientsInitialize_descends (steps : Z) (conv : R) (m : OBMinimize) :
  linesearch (d m) = Newton2Num ->
  let m' := ConjugateGradientsInitialize energy gradient Newton2Num steps conv m in
  energy (GetPositions m') <= energy (GetPositions m)
  /\ linesearch (d m') = Newton2Num.
Proof.
  intros HN. cbv zeta. unfold ConjugateGradientsInitialize.
  set (m4 := set_grad1 _ _).
  assert (HN4 : linesearch (d m4) = Newton2Num) by exact HN.
  assert (He4 : e_n1 (d m4) <= energy (GetPositions m4)) by (cbn; apply Rle_refl).
  pose proof (perform_linesearch_Newton_energy (GetGradients m4) m4 HN4 He4) as Hls.
  pose proof (perform_linesearch_private energy gradient Newton2Num (GetGradients m4) m4)
    as Hd.
  destruct (perform_linesearch energy gradient Newton2Num (GetGradients m4) m4)
    as [alpha m5].
  cbn [snd] in *. split.
  - exact Hls.
  - cbn. rewrite Hd. exact HN.
Qed.

(** X5.  With the Newton line search selected, neither [SteepestDescent]
    nor [ConjugateGradients] ends at positions of higher energy than those
    it was started at, whatever the number of steps and the tolerance. *)
Theorem optimizers_never_raise_energy
        (steps : Z) (conv : R) (grad2 : Direction) (m : OBMinimize) :
  linesearch (d m) = Newton2Num ->
  energy (GetPositions (SteepestDescent energy gradient Newton2Num steps conv m))
  <= energy (GetPositions m)
  /\ energy (GetPositions (ConjugateGradients energy gradient hasGradients Newton2Num
                                              steps conv grad2 m))
     <= energy (GetPositions m).
Proof.
  intros HN. split.
  - unfold SteepestDescent.
    apply (SteepestDescentTakeNSteps_descends (Z.to_nat steps)
             (SteepestDescentInitialize energy gradient steps conv m)).
    + exact HN.
    + cbn. apply Rle_refl.
  - unfold ConjugateGradients.
    destruct (ConjugateGradientsInitialize_descends steps conv m HN) as [H1 H2].
    apply Rle_trans with (2 := H1).
    apply ConjugateGradientsTakeNSteps_descends; [ exact H2 | ].
    pose proof (ConjugateGradientsInitialize_current energy gradient Newton2Num
                  steps conv m) as [Hc _].
    rewrite Hc. apply Rle_refl.
Qed.

End OptimizerDescent.

(** *** Steepest descent at a stationary point *)

Lemma TakeStep_still (s : R) (dir : list Vec) :
  Forall (fun g => g = Vector3d.Zero) dir ->
  forall orig, LineSearchTakeStep orig dir s orig = orig.
Proof.
  induction 1 as [ | dc dir Hdc _ IH ]; intros orig; [ destruct orig; reflexivity | ].
  destruct orig as [ | oc orig ]; [ reflexivity | ].
  cbn [LineSearchTakeStep]. rewrite IH. subst dc. rewrite add_scale_Zero. reflexivity.
Qed.

Lemma LineSearch_move_still (step : R) (dir : list Vec) :
  Forall (fun g => g = Vector3d.Zero) dir ->
  forall cur, LineSearch_move cur dir step = cur.
Proof.
  induction 1 as [ | dc dir Hdc _ IH ]; intros cur; [ destruct cur; reflexivity | ].
  destruct cur as [ | cc cur ]; [ reflexivity | ].
  cbn [LineSearch_move]. rewrite IH. subst dc.
  rewrite LineSearch_tempStep_Zero, add_scale_Zero. reflexivity.
Qed.

Section StationaryPoint.

Variable energy : list Vec -> R.
Variable gradient : list Vec -> list Vec.
Variable Newton2Num : Z.

Lemma LineSearch_loop_still (dir : list Vec) (orig : list Vec) (n : nat) :
  Forall (fun g => g = Vector3d.Zero) dir ->
  forall e1 step alpha f,
    m_positions f = orig ->
    m_positions (snd (LineSearch_loop energy gradient n dir e1 step alpha f)) = orig.
Proof.
  intros Hd. induction n as [ | n IH ]; intros e1 step alpha f Hf; cbn [LineSearch_loop].
  - exact Hf.
  - assert (Hmove : LineSearch_move (m_positions f) dir step = orig)
      by (rewrite LineSearch_move_still; assumption).
    destruct (IsNear _ e1 0.001); [ exact Hmove | ].
    destruct (Rgtb _ e1); [ apply IH; exact Hf | ].
    destruct (Rltb _ e1); apply IH; exact Hmove.
Qed.

Lemma perform_linesearch_still (dir : list Vec) (m : OBMinimize) :
  Forall (fun g => g = Vector3d.Zero) dir ->
  GetPositions (snd (perform_linesearch energy gradient Newton2Num dir m))
  = GetPositions m.
Proof.
  intros Hd. unfold perform_linesearch. destruct (Z.eqb _ _).
  - unfold Newton2NumLineSearch.
    set (scale := Newton2Num_scale dir).
    pose proof (Newton2Num_loop_positions energy gradient (GetPositions m) dir
                  (5.0 / scale) 4 (0.025 / scale) 0.0 (e_n1 (d m)) (m_function m)) as Hp.
    destruct (Newton2Num_loop energy gradient 4 (GetPositions m) dir (5.0 / scale)
                (0.025 / scale) 0.0 (e_n1 (d m)) (m_function m))
      as [[opt_step opt_e] f1].
    cbn [snd] in Hp.
    destruct Hp as [s Hs].
    { exists 0. unfold stepped. rewrite TakeStep_zero. reflexivity. }
    destruct (Rneqb opt_step 0.0);
      cbn [snd GetPositions m_function SetPositions m_positions TakeStepAndCompute Compute];
      fold (GetPositions m); rewrite Hs; unfold stepped;
      rewrite ?TakeStep_overwrite; apply TakeStep_still; exact Hd.
  - unfold LineSearch.
    pose proof (LineSearch_loop_still dir (GetPositions m) 10 Hd
                  (m_value (Compute energy gradient Value (m_function m))) 0.2 0.0
                  (Compute energy gradient Value (m_function m)) eq_refl) as H.
    destruct (LineSearch_loop energy gradient 10 dir _ 0.2 0.0 _) as [alpha f].
    exact H.
Qed.

(** X6.  Started where every gradient vector is zero, with a positive
    tolerance, steepest descent stops in its first step: [TakeNSteps]
    returns false after one step and no atom has moved. *)
Theorem SteepestDescent_stops_at_stationary_point
        (steps : Z) (conv : R) (n : nat) (m : OBMinimize) :
  0 < conv ->
  Forall (fun g => g = Vector3d.Zero) (gradient (GetPositions m)) ->
  let r := SteepestDescentTakeNSteps energy gradient Newton2Num (S n)
             (SteepestDescentInitialize energy gradient steps conv m) in
  fst r = false
  /\ GetPositions (snd r) = GetPositions m
  /\ cstep (d (snd r)) = 1%Z.
Proof.
  intros Hconv Hzero. cbv zeta. cbn [SteepestDescentTakeNSteps].
  rewrite SteepestDescent_step_unfold. cbv zeta.
  set (m0 := SteepestDescentInitialize energy gradient steps conv m).
  set (m1 := set_cstep (cstep (d m0) + 1) m0).
  assert (Hdir : Forall (fun g => g = Vector3d.Zero) (GetGradients m1)) by exact Hzero.
  pose proof (perform_linesearch_still (GetGradients m1) m1 Hdir) as Hp.
  pose proof (perform_linesearch_private energy gradient Newton2Num (GetGradients m1) m1)
    as Hd.
  set (m2 := snd (perform_linesearch energy gradient Newton2Num (GetGradients m1) m1)) in *.
  assert (Hnear : IsNear (m_value (m_function
                            (set_function (Compute energy gradient Gradients
                                                   (m_function m2)) m2)))
                         (e_n1 (d (set_function (Compute energy gradient Gradients
                                                   (m_function m2)) m2)))
                         (econv (d (set_function (Compute energy gradient Gradients
                                                   (m_function m2)) m2))) = true).
  { cbn [set_function m_function d Compute m_value]. rewrite Hd.
    unfold GetPositions in Hp. rewrite Hp.
    cbn. unfold IsNear. apply Rltb_true.
    replace (_ - _) with 0 by lra. rewrite Rabs_R0. exact Hconv. }
  rewrite Hnear. cbn [fst snd]. split; [ reflexivity | ]. split.
  - exact Hp.
  - cbn [set_function d]. rewrite Hd. reflexivity.
Qed.

End StationaryPoint.

(** * Further properties of the UFF energy terms *)

(** ** The terms and their derivatives *)

Ltac dlim_from H :=
  match type of H with
  | derivable_pt_lim ?F ?x ?l =>
      match goal with
      | |- derivable_pt_lim ?G x ?l' =>
          apply (derivable_pt_lim_ext F G x l');
          [ intro | replace l' with l; [ exact H | ] ]
      end
  end.

Lemma dlim_cos_scaled (k x : R) :
  derivable_pt_lim (fun t => cos (k * t)) x (- (k * sin (k * x))).
Proof.
  pose proof (derivable_pt_lim_comp (mult_fct (fct_cte k) id) cos x _ _
                (derivable_pt_lim_mult _ _ _ _ _ (derivable_pt_lim_const k x)
                                       (derivable_pt_lim_id x))
                (derivable_pt_lim_cos _)) as H.
  dlim_from H.
  - reflexivity.
  - unfold mult_fct, fct_cte, id. lra.
Qed.

Lemma dlim_affine_cos (a b c k x : R) :
  derivable_pt_lim (fun t => a * (b + c * cos (k * t))) x (- (a * c * k * sin (k * x))).
Proof.
  pose proof (derivable_pt_lim_mult _ _ _ _ _ (derivable_pt_lim_const a x)
                (derivable_pt_lim_plus _ _ _ _ _ (derivable_pt_lim_const b x)
                   (derivable_pt_lim_mult _ _ _ _ _ (derivable_pt_lim_const c x)
                      (dlim_cos_scaled k x)))) as H.
  dlim_from H.
  - reflexivity.
  - unfold fct_cte. lra.
Qed.

(** A polynomial of degree three in [cos]. *)
Lemma dlim_cubic_cos (a0 a1 a2 a3 x : R) :
  derivable_pt_lim
    (fun t => a0 + a1 * cos t + a2 * (cos t * cos t) + a3 * (cos t * cos t * cos t)) x
    (- (sin x * (a1 + 2 * a2 * cos x + 3 * a3 * (cos x * cos x)))).
Proof.
  pose proof (derivable_pt_lim_cos x) as Hc.
  pose proof (derivable_pt_lim_mult _ _ _ _ _ Hc Hc) as Hc2.
  pose proof (derivable_pt_lim_mult _ _ _ _ _ Hc2 Hc) as Hc3.
  pose proof (derivable_pt_lim_plus _ _ _ _ _
                (derivable_pt_lim_plus _ _ _ _ _
                   (derivable_pt_lim_plus _ _ _ _ _ (derivable_pt_lim_const a0 x)
                      (derivable_pt_lim_mult _ _ _ _ _ (derivable_pt_lim_const a1 x) Hc))
                   (derivable_pt_lim_mult _ _ _ _ _ (derivable_pt_lim_const a2 x) Hc2))
                (derivable_pt_lim_mult _ _ _ _ _ (derivable_pt_lim_const a3 x) Hc3)) as H.
  dlim_from H.
  - reflexivity.
  - unfold mult_fct, fct_cte. lra.
Qed.

(** X7.  In each of the four coordination cases of [E_Angle], the factor
    [dE] that scales the gradient vectors is the derivative of the energy
    [e] of the record with respect to the angle [theta]. *)
Theorem angle_dE_is_derivative (i : AngleCalc.t) (theta : R) :
  derivable_pt_lim (angle_energy i) theta (angle_dE i theta).
Proof.
  unfold angle_dE.
  destruct (Z.eqb (AngleCalc.coord i) 1) eqn:H1;
    [ | destruct (Z.eqb (AngleCalc.coord i) 2) eqn:H2;
        [ | destruct (Z.eqb (AngleCalc.coord i) 4 || Z.eqb (AngleCalc.coord i) 6) eqn:H4 ] ].
  - pose proof (dlim_cubic_cos (AngleCalc.ka i) (AngleCalc.ka i) 0 0 theta) as H.
    dlim_from H.
    + unfold angle_energy. rewrite H1. lra.
    + cbv zeta. lra.
  - pose proof (dlim_cubic_cos (AngleCalc.ka i / 4.5) (4 * (AngleCalc.ka i / 4.5))
                  (4 * (AngleCalc.ka i / 4.5)) 0 theta) as H.
    dlim_from H.
    + unfold angle_energy. rewrite H1, H2. lra.
    + cbv zeta. replace (2.0 * theta) with (2 * theta) by lra. rewrite sin_2a. lra.
  - pose proof (dlim_cubic_cos 0 0 (AngleCalc.ka i) (AngleCalc.ka i) theta) as H.
    dlim_from H.
    + unfold angle_energy. rewrite H1, H2, H4. lra.
    + cbv zeta. lra.
  - pose proof (dlim_cubic_cos (AngleCalc.ka i * (AngleCalc.c0 i - AngleCalc.c2 i))
                  (AngleCalc.ka i * AngleCalc.c1 i)
                  (2 * (AngleCalc.ka i * AngleCalc.c2 i)) 0 theta) as H.
    dlim_from H.
    + unfold angle_energy. rewrite H1, H2, H4. lra.
    + cbv zeta. replace (2.0 * theta) with (2 * theta) by lra. rewrite sin_2a. lra.
Qed.

(** X8.  In [E_Torsion] and in [E_OOP] the factor [dE] is minus the
    derivative of the energy of the record with respect to its angle. *)
Theorem torsion_oop_dE_is_minus_derivative
        (i : TorsionCalc.t) (tor : R) (j : OOPCalc.t) (angle : R) :
  derivable_pt_lim (torsion_energy i) tor (- torsion_dE i tor)
  /\ derivable_pt_lim (oop_energy j) angle (- oop_dE j angle).
Proof.
  split.
  - pose proof (dlim_affine_cos (TorsionCalc.V i) 1.0 (- TorsionCalc.cosNPhi0 i)
                  (IZR (TorsionCalc.n i)) tor) as H.
    dlim_from H.
    + unfold torsion_energy. cbv zeta.
      replace (z * IZR (TorsionCalc.n i)) with (IZR (TorsionCalc.n i) * z) by lra. lra.
    + unfold torsion_dE. lra.
  - pose proof (dlim_cubic_cos (OOPCalc.koop j * (OOPCalc.c0 j - OOPCalc.c2 j))
                  (OOPCalc.koop j * OOPCalc.c1 j)
                  (2 * (OOPCalc.koop j * OOPCalc.c2 j)) 0 angle) as H.
    dlim_from H.
    + unfold oop_energy. replace (2.0 * z) with (2 * z) by lra.
      rewrite cos_2a_cos. lra.
    + unfold oop_dE. replace (2.0 * angle) with (2 * angle) by lra. rewrite sin_2a. lra.
Qed.

Lemma dlim_quotient (k x : R) :
  x <> 0 -> derivable_pt_lim (fun r => k / r) x (- (k / (x * x))).
Proof.
  intros Hx.
  pose proof (derivable_pt_lim_div _ _ _ _ _ (derivable_pt_lim_const k x)
                (derivable_pt_lim_id x) Hx) as H.
  dlim_from H.
  - reflexivity.
  - unfold fct_cte, id, Rsqr. field. exact Hx.
Qed.

Lemma vdw_energy_pow (i : VDWCalc.t) (rab : R) :
  vdw_energy i rab
  = VDWCalc.kab i * ((VDWCalc.ka i / rab) ^ 12 - 2 * (VDWCalc.ka i / rab) ^ 6).
Proof. unfold vdw_energy. cbv zeta. replace 2.0 with 2 by lra. ring. Qed.

(** X9.  In [E_Bond], [E_VDW] and [E_Electrostatic] the factor [dE] is the
    derivative of the energy of the record with respect to the distance
    [rab], wherever that distance (and, for the Van der Waals term, the
    record's [ka]) is not zero. *)
Theorem distance_terms_dE_is_derivative
        (b : BondCalc.t) (v : VDWCalc.t) (q : EleCalc.t) (rab : R) :
  rab <> 0 ->
  VDWCalc.ka v <> 0 ->
  derivable_pt_lim (bond_energy b) rab (bond_dE b rab)
  /\ derivable_pt_lim (vdw_energy v) rab (vdw_dE v rab)
  /\ derivable_pt_lim (electrostatic_energy q) rab (electrostatic_dE q rab).
Proof.
  intros Hr Hka. split; [ | split ].
  - pose proof (derivable_pt_lim_minus _ _ _ _ _ (derivable_pt_lim_id rab)
                  (derivable_pt_lim_const (BondCalc.r0 b) rab)) as Hd.
    pose proof (derivable_pt_lim_mult _ _ _ _ _ (derivable_pt_lim_const (BondCalc.kb b) rab)
                  (derivable_pt_lim_mult _ _ _ _ _ Hd Hd)) as H.
    dlim_from H.
    + reflexivity.
    + unfold bond_dE, minus_fct, fct_cte, id. cbv zeta. lra.
  - pose proof (dlim_quotient (VDWCalc.ka v) rab Hr) as Ht.
    pose proof (derivable_pt_lim_mult _ _ _ _ _ (derivable_pt_lim_const (VDWCalc.kab v) rab)
                  (derivable_pt_lim_minus _ _ _ _ _
                     (derivable_pt_lim_comp _ _ _ _ _ Ht
                        (derivable_pt_lim_pow (VDWCalc.ka v / rab) 12))
                     (derivable_pt_lim_mult _ _ _ _ _ (derivable_pt_lim_const 2 rab)
                        (derivable_pt_lim_comp _ _ _ _ _ Ht
                           (derivable_pt_lim_pow (VDWCalc.ka v / rab) 6))))) as H.
    dlim_from H.
    + rewrite vdw_energy_pow. reflexivity.
    + unfold vdw_dE, fct_cte, comp, mult_fct. cbv zeta.
      replace 12.0 with 12 by lra. simpl INR. simpl pred. field. split; assumption.
  - pose proof (dlim_quotient (EleCalc.qq q) rab Hr) as H.
    dlim_from H.
    + reflexivity.
    + reflexivity.
Qed.

(** ** The special forms of the angle term *)

Lemma cos_deg_180 : cos (180 * DEG_TO_RAD) = -1.
Proof.
  replace (180 * DEG_TO_RAD) with PI by (unfold DEG_TO_RAD; lra). apply cos_PI.
Qed.

Lemma cos_deg_120 : cos (120 * DEG_TO_RAD) = -1 / 2.
Proof.
  replace (120 * DEG_TO_RAD) with (2 * (PI / 3)) by (unfold DEG_TO_RAD; lra).
  apply cos_2PI3.
Qed.

Lemma cos_deg_90 : cos (90 * DEG_TO_RAD) = 0.
Proof.
  replace (90 * DEG_TO_RAD) with (PI / 2) by (unfold DEG_TO_RAD; lra). apply cos_PI2.
Qed.

(** X10.  For a center of coordination 1, 2, 4 or 6 and a force constant
    that is not negative, the angle energy of a record lies between 0 and
    [2 * ka]; it is [2 * ka] at 0 degrees, and 0 at 180 degrees
    (coordination 1), at 120 degrees (coordination 2), at 90 and at 180
    degrees (coordination 4 and 6), as the comments of [E_Angle] say. *)
Theorem angle_special_forms (i : AngleCalc.t) (theta : R) :
  0 <= AngleCalc.ka i ->
  (AngleCalc.coord i = 1 \/ AngleCalc.coord i = 2
   \/ AngleCalc.coord i = 4 \/ AngleCalc.coord i = 6)%Z ->
  0 <= angle_energy i theta <= 2 * AngleCalc.ka i
  /\ angle_energy i 0 = 2 * AngleCalc.ka i
  /\ (AngleCalc.coord i = 1%Z -> angle_energy i (180 * DEG_TO_RAD) = 0)
  /\ (AngleCalc.coord i = 2%Z -> angle_energy i (120 * DEG_TO_RAD) = 0)
  /\ ((AngleCalc.coord i = 4 \/ AngleCalc.coord i = 6)%Z ->
      angle_energy i (90 * DEG_TO_RAD) = 0 /\ angle_energy i (180 * DEG_TO_RAD) = 0).
Proof.
  intros Hka Hcoord.
  pose proof (COS_bound theta) as [Hc1 Hc2].
  set (k := AngleCalc.ka i) in *.
  unfold angle_energy. fold k. cbv zeta.
  rewrite cos_0, cos_deg_180, cos_deg_120, cos_deg_90.
  set (c := cos theta) in *.
  assert (Hsq : 0 <= c * c <= 1) by nra.
  assert (Hcube : 0 <= (1 + c) * (c * c) <= 2).
  { split; [ apply Rmult_le_pos; lra | ].
    replace 2 with (2 * 1) by lra. apply Rmult_le_compat; lra. }
  assert (Hsq2 : 0 <= (1 + 2 * c) * (1 + 2 * c) <= 9).
  { pose proof (Rle_0_sqr (1 + 2 * c)) as H0. unfold Rsqr in H0. split; lra. }
  destruct Hcoord as [H | [H | [H | H]]]; rewrite H; cbn [Z.eqb Pos.eqb orb];
    (split; [ | split; [ | split; [ | split ] ] ]);
    try (intros H'; try discriminate H'; try (destruct H' as [H' | H']; discriminate H'));
    try split; try lra; try nra.
Qed.

(** ** The general form of the angle term *)

(** The coefficients that [SetupCalculations] stores in an angle record. *)
Lemma setup_angle_coefficients (ff : OBForceFieldUFF) (angle : nat * nat * nat)
      (i : AngleCalc.t) :
  setup_angle ff angle = Ok [i] ->
  let t0 := AngleCalc.theta0 i * DEG_TO_RAD in
  AngleCalc.cosT0 i = cos t0
  /\ AngleCalc.c2 i = 1.0 / (4.0 * sin t0 * sin t0)
  /\ AngleCalc.c1 i = -4.0 * AngleCalc.c2 i * AngleCalc.cosT0 i
  /\ AngleCalc.c0 i
     = AngleCalc.c2 i * (2.0 * AngleCalc.cosT0 i * AngleCalc.cosT0 i + 1.0).
Proof.
  unfold setup_angle. destruct angle as [[i0 i1] i2].
  destruct (GetAtom (_mol ff) (i0 + 1)) as [ b | ]; [ | discriminate ].
  destruct (GetAtom (_mol ff) (i1 + 1)) as [ a | ]; [ | discriminate ].
  destruct (GetAtom (_mol ff) (i2 + 1)) as [ c | ]; [ | discriminate ].
  cbn [deref bind].
  destruct (HasGroups ff && negb (in_one_intraGroup ff [a; b; c])); [ discriminate | ].
  destruct (parameter_of ff a) as [ pa | ]; [ | discriminate ].
  destruct (parameter_of ff b) as [ pb | ]; [ | discriminate ].
  destruct (parameter_of ff c) as [ pc | ]; [ | discriminate ].
  cbn [bind].
  destruct pb as [ parameterB | ]; [ | discriminate ].
  destruct pa as [ parameterA | ]; [ | discriminate ].
  destruct pc as [ parameterC | ]; [ | discriminate ].
  cbn [deref bind].
  destruct (GetBond (_mol ff) a b) as [ bondAB | ]; [ | discriminate ].
  cbn [deref bind].
  destruct (GetBond (_mol ff) b c) as [ bondBC | ]; [ | discriminate ].
  cbn [deref bind].
  intros H; injection H as <-. cbn. repeat split; reflexivity.
Qed.

(** X11.  An angle record that [SetupCalculations] builds for a center of
    a coordination other than 1, 2, 4 and 6, whose ideal angle has a
    non-zero sine, has the energy [2 ka c2 (cos theta - cos theta0)^2]: the
    energy and the factor [dE] are both zero at the ideal angle [theta0]. *)
Theorem angle_general_form (ff : OBForceFieldUFF) (angle : nat * nat * nat)
        (i : AngleCalc.t) (theta : R) :
  setup_angle ff angle = Ok [i] ->
  (AngleCalc.coord i <> 1 /\ AngleCalc.coord i <> 2
   /\ AngleCalc.coord i <> 4 /\ AngleCalc.coord i <> 6)%Z ->
  sin (AngleCalc.theta0 i * DEG_TO_RAD) <> 0 ->
  angle_energy i theta
  = 2 * AngleCalc.ka i * AngleCalc.c2 i * (cos theta - AngleCalc.cosT0 i) ^ 2
  /\ angle_energy i (AngleCalc.theta0 i * DEG_TO_RAD) = 0
  /\ angle_dE i (AngleCalc.theta0 i * DEG_TO_RAD) = 0.
Proof.
  intros Hsetup [H1 [H2 [H4 H6]]] Hsin.
  destruct (setup_angle_coefficients ff angle i Hsetup) as [HcosT0 [Hc2 [Hc1 Hc0]]].
  apply Z.eqb_neq in H1, H2, H4, H6.
  assert (Hform : forall t, angle_energy i t
                            = 2 * AngleCalc.ka i * AngleCalc.c2 i
                              * (cos t - AngleCalc.cosT0 i) ^ 2).
  { intros t. unfold angle_energy. rewrite H1, H2, H4, H6. cbn [orb]. cbv zeta.
    rewrite Hc0, Hc1. replace 2.0 with 2 by lra. replace 4.0 with 4 by lra.
    replace 1.0 with 1 by lra. replace (-4.0) with (-4) by lra. ring. }
  split; [ apply Hform | ]. split.
  - rewrite Hform, <- HcosT0. ring.
  - unfold angle_dE. rewrite H1, H2, H4, H6. cbn [orb]. cbv zeta.
    rewrite Hc1, HcosT0.
    replace (2.0 * (AngleCalc.theta0 i * DEG_TO_RAD))
      with (2 * (AngleCalc.theta0 i * DEG_TO_RAD)) by lra.
    rewrite sin_2a. replace 2.0 with 2 by lra. replace (-4.0) with (-4) by lra. ring.
Qed.

(** ** The Van der Waals well *)

(** X12.  The Van der Waals energy of a record with [kab >= 0] is never
    below [- kab]; at the distance [rab = ka] (the [x_ij] that the setup
    stores in [ka]) it is [- kab] and the factor [dE] is zero. *)
Theorem vdw_well (v : VDWCalc.t) (rab : R) :
  VDWCalc.ka v <> 0 ->
  0 <= VDWCalc.kab v ->
  rab <> 0 ->
  - VDWCalc.kab v <= vdw_energy v rab
  /\ vdw_energy v (VDWCalc.ka v) = - VDWCalc.kab v
  /\ vdw_dE v (VDWCalc.ka v) = 0.
Proof.
  intros Hka Hkab Hr. split; [ | split ].
  - rewrite vdw_energy_pow.
    set (t := VDWCalc.ka v / rab).
    assert (Hsq : 0 <= (t ^ 6 - 1) * (t ^ 6 - 1))
      by (pose proof (Rle_0_sqr (t ^ 6 - 1)) as H; unfold Rsqr in H; exact H).
    replace (t ^ 12) with (t ^ 6 * t ^ 6) by ring.
    assert (H : 0 <= VDWCalc.kab v * ((t ^ 6 - 1) * (t ^ 6 - 1)))
      by (apply Rmult_le_pos; assumption).
    lra.
  - rewrite vdw_energy_pow.
    replace (VDWCalc.ka v / VDWCalc.ka v) with 1 by (field; exact Hka).
    rewrite !pow1. lra.
  - unfold vdw_dE. cbv zeta.
    replace (VDWCalc.ka v / VDWCalc.ka v) with 1 by (field; exact Hka).
    lra.
Qed.

(** ** The distance of a pair *)

Lemma clamp_distance_bound (rab : R) :
  0.001 <= Rabs (clamp_distance rab) /\ (0 <= rab -> 0.001 <= clamp_distance rab).
Proof.
  unfold clamp_distance, IsNearZero.
  destruct (Rltb (Rabs rab) 0.001) eqn:H.
  - split; [ rewrite Rabs_pos_eq; lra | lra ].
  - apply Rltb_false in H. split; [ exact H | ].
    intros Hpos. rewrite Rabs_pos_eq in H; assumption.
Qed.

Lemma norm_nonneg (a : Vec) : 0 <= Vector3d.norm a.
Proof. unfold Vector3d.norm. apply sqrt_pos. Qed.

Section PairDistance.

Variable VectorDistanceDerivative : Vec -> Vec -> R * Vec * Vec.

Lemma pair_distance_clamped (gradients : bool) (pa pb : Vec) :
  let rab := fst (fst (pair_distance VectorDistanceDerivative gradients pa pb)) in
  0.001 <= Rabs rab /\ (gradients = false -> 0.001 <= rab).
Proof.
  cbv zeta. unfold pair_distance. destruct gradients.
  - destruct (VectorDistanceDerivative pa pb) as [[rab Fa] Fb]. cbn [fst].
    split; [ apply (clamp_distance_bound rab) | discriminate ].
  - cbn [fst]. split; [ apply (clamp_distance_bound _) | ].
    intros _. apply (clamp_distance_bound _). apply norm_nonneg.
Qed.

Lemma vdw_term_energy (gradients : bool) (positions : list Vec) (v : VDWCalc.t)
      (g : list Vec) :
  fst (vdw_term VectorDistanceDerivative gradients positions v g)
  = vdw_energy v
      (fst (fst (pair_distance VectorDistanceDerivative gradients
                               (position positions (VDWCalc.a v - 1))
                               (position positions (VDWCalc.b v - 1))))).
Proof.
  unfold vdw_term.
  destruct (pair_distance _ _ _ _) as [[rab Fa] Fb]. cbn [fst].
  destruct gradients; reflexivity.
Qed.

Lemma electrostatic_term_energy (gradients : bool) (positions : list Vec) (q : EleCalc.t)
      (g : list Vec) :
  fst (electrostatic_term VectorDistanceDerivative gradients positions q g)
  = electrostatic_energy q
      (fst (fst (pair_distance VectorDistanceDerivative gradients
                               (position positions (EleCalc.a q - 1))
                               (position positions (EleCalc.b q - 1))))).
Proof.
  unfold electrostatic_term.
  destruct (pair_distance _ _ _ _) as [[rab Fa] Fb]. cbn [fst].
  destruct gradients; reflexivity.
Qed.

(** X13.  The two non-bonded terms never divide by a distance shorter
    than 1.0e-3: the Van der Waals energy of a record is [vdw_energy] at a
    distance of absolute value at least 1.0e-3, and the electrostatic energy
    of a record is at most [1000 |qq|] in absolute value, whatever the
    positions (two atoms on one point included). *)
Theorem nonbonded_terms_distance_floor
        (gradients : bool) (positions : list Vec) (v : VDWCalc.t) (q : EleCalc.t)
        (g : list Vec) :
  (exists rab,
      0.001 <= Rabs rab
      /\ fst (vdw_term VectorDistanceDerivative gradients positions v g)
         = vdw_energy v rab)
  /\ Rabs (fst (electrostatic_term VectorDistanceDerivative gradients positions q g))
     <= 1000 * Rabs (EleCalc.qq q).
Proof.
  split.
  - eexists. split; [ | apply vdw_term_energy ].
    apply pair_distance_clamped.
  - rewrite electrostatic_term_energy.
    pose proof (pair_distance_clamped gradients
                  (position positions (EleCalc.a q - 1))
                  (position positions (EleCalc.b q - 1))) as [Hr _].
    cbv zeta in Hr.
    set (rab := fst (fst (pair_distance _ _ _ _))) in *.
    unfold electrostatic_energy.
    assert (Hpos : 0 < Rabs rab) by lra.
    assert (Hnz : rab <> 0) by (intros E; rewrite E, Rabs_R0 in Hpos; lra).
    unfold Rdiv. rewrite Rabs_mult, Rabs_inv.
    assert (Hinv : / Rabs rab <= 1000).
    { replace 1000 with (/ 0.001) by lra.
      apply Rinv_le_contravar; [ lra | exact Hr ]. }
    rewrite Rmult_comm.
    apply Rmult_le_compat_r; [ apply Rabs_pos | exact Hinv ].
Qed.

End PairDistance.

(** ** The gradient array *)

Lemma sum_terms_invariant {A : Type} (P : list Vec -> Prop) (Q : A -> Prop)
      (term : A -> list Vec -> R * list Vec) (calcs : list A) :
  (forall i g, Q i -> P g -> P (snd (term i g))) ->
  Forall Q calcs ->
  forall g, P g -> P (snd (sum_terms term calcs g)).
Proof.
  intros Hterm HQ. unfold sum_terms.
  assert (Hgen : forall acc : R * list Vec,
             P (snd acc) ->
             P (snd (fold_left (fun acc i => let '(e, g') := term i (snd acc) in
                                             (fst acc + e, g')) calcs acc))).
  { induction HQ as [ | i calcs Hi HQ IH ]; intros acc Hacc; cbn [fold_left].
    - exact Hacc.
    - apply IH. specialize (Hterm i (snd acc) Hi Hacc).
      destruct (term i (snd acc)) as [e g']. exact Hterm. }
  intros g Hg. apply Hgen. exact Hg.
Qed.

Lemma Forall_numbered {A : Type} (Q : A -> Prop) (l : list A) :
  Forall Q l -> Forall (fun ji : nat * A => Q (snd ji)) (numbered l).
Proof.
  intros H. unfold numbered. generalize 0%nat.
  induction H as [ | i l Hi _ IH ]; intros n; cbn [List.length seq combine].
  - constructor.
  - constructor; [ exact Hi | apply IH ].
Qed.

Lemma Forall_trivial {A : Type} (l : list A) : Forall (fun _ => True) l.
Proof. induction l; constructor; auto. Qed.

Lemma add_gradient_length (idx : nat) (F : Vec) (g : list Vec) :
  List.length (add_gradient idx F g) = List.length g.
Proof. unfold add_gradient. apply length_set_nth. Qed.

Lemma add_gradient_other (idx j : nat) (F : Vec) (g : list Vec) :
  idx <> j -> nth j (add_gradient idx F g) Vector3d.Zero = nth j g Vector3d.Zero.
Proof. intros H. unfold add_gradient. apply nth_set_nth_neq. exact H. Qed.

Section GradientArray.

Variable VectorBondDerivative : Vec -> Vec -> R * Vec * Vec.
Variable VectorDistanceDerivative : Vec -> Vec -> R * Vec * Vec.
Variable VectorAngle : Vec -> Vec -> double.
Variable VectorAngleDerivative : Vec -> Vec -> Vec -> double * Vec * Vec * Vec.
Variable VectorTorsionDerivative :
  Vec -> Vec -> Vec -> Vec -> double * Vec * Vec * Vec * Vec.
Variable VectorOOP : Vec -> Vec -> Vec -> Vec -> double.
Variable VectorOOPDerivative :
  Vec -> Vec -> Vec -> Vec -> double * Vec * Vec * Vec * Vec.
Variables BondTerm AngleTerm TorsionTerm OOPTerm VDWTerm : Z.

(** What a property of the gradient array needs to survive [Energy]: to
    survive the accumulation of a vector on each atom of each record. *)
Lemma Energy_invariant (P : list Vec -> Prop) (touched : nat -> Prop)
      (gradients : bool) (ff : OBForceFieldUFF) :
  (forall idx F g, touched idx -> P g -> P (add_gradient idx F g)) ->
  Forall (fun i => gradients = true -> touched (BondCalc.a i - 1)%nat /\ touched (BondCalc.b i - 1)%nat)
         (_bondcalculations ff) ->
  Forall (fun i => gradients = true -> touched (AngleCalc.a i - 1)%nat /\ touched (AngleCalc.b i - 1)%nat
                   /\ touched (AngleCalc.c i - 1)%nat)
         (_anglecalculations ff) ->
  Forall (fun i => gradients = true -> touched (TorsionCalc.a i - 1)%nat /\ touched (TorsionCalc.b i - 1)%nat
                   /\ touched (TorsionCalc.c i - 1)%nat /\ touched (TorsionCalc.d i - 1)%nat)
         (_torsioncalculations ff) ->
  Forall (fun i => gradients = true -> touched (OOPCalc.a i - 1)%nat /\ touched (OOPCalc.b i - 1)%nat
                   /\ touched (OOPCalc.c i - 1)%nat /\ touched (OOPCalc.d i - 1)%nat)
         (_oopcalculations ff) ->
  Forall (fun i => gradients = true -> touched (VDWCalc.a i - 1)%nat /\ touched (VDWCalc.b i - 1)%nat)
         (_vdwcalculations ff) ->
  P (if gradients then ClearGradients (ff_gradients ff) else ff_gradients ff) ->
  P (snd (Energy VectorBondDerivative VectorDistanceDerivative VectorAngle
                 VectorAngleDerivative VectorTorsionDerivative VectorOOP
                 VectorOOPDerivative BondTerm AngleTerm TorsionTerm OOPTerm VDWTerm
                 gradients ff)).
Proof.
  intros Hadd Hb Ha Ht Ho Hv H0. unfold Energy. cbv zeta.
  set (g0 := if gradients then ClearGradients (ff_gradients ff) else ff_gradients ff) in *.
  assert (Hbond : forall i g,
             (gradients = true ->
              touched (BondCalc.a i - 1)%nat /\ touched (BondCalc.b i - 1)%nat) ->
             P g -> P (snd (bond_term VectorBondDerivative gradients (ff_positions ff)
                                      i g))).
  { intros i g Hi Hg. unfold bond_term. destruct gradients; [ | exact Hg ].
    destruct (Hi eq_refl) as [Hi1 Hi2].
    destruct (VectorBondDerivative _ _) as [[rab Fa] Fb]. cbn [snd]. auto. }
  assert (Hangle : forall i g,
             (gradients = true ->
              touched (AngleCalc.a i - 1)%nat /\ touched (AngleCalc.b i - 1)%nat
              /\ touched (AngleCalc.c i - 1)%nat) ->
             P g -> P (snd (angle_term VectorAngle VectorAngleDerivative gradients
                                       (ff_positions ff) i g))).
  { intros i g Hi Hg. unfold angle_term. destruct gradients; [ | exact Hg ].
    destruct (Hi eq_refl) as [Hi1 [Hi2 Hi3]].
    destruct (VectorAngleDerivative _ _ _) as [[[raw Fa] Fb] Fc]. cbn [snd]. auto. }
  assert (Htorsion : forall i g,
             (gradients = true ->
              touched (TorsionCalc.a i - 1)%nat /\ touched (TorsionCalc.b i - 1)%nat
              /\ touched (TorsionCalc.c i - 1)%nat /\ touched (TorsionCalc.d i - 1)%nat) ->
             P g -> P (snd (torsion_term VectorTorsionDerivative gradients
                                         (ff_positions ff) i g))).
  { intros i g Hi Hg. unfold torsion_term. destruct gradients.
    - destruct (Hi eq_refl) as [Hi1 [Hi2 [Hi3 Hi4]]].
      destruct (VectorTorsionDerivative _ _ _ _) as [[[[raw Fa] Fb] Fc] Fd].
      cbn [snd]. auto.
    - destruct (torsion_acos _ _ _ _) as [dot raw]. exact Hg. }
  assert (Hoop : forall i g,
             (gradients = true ->
              touched (OOPCalc.a i - 1)%nat /\ touched (OOPCalc.b i - 1)%nat
              /\ touched (OOPCalc.c i - 1)%nat /\ touched (OOPCalc.d i - 1)%nat) ->
             P g -> P (snd (oop_term VectorOOP VectorOOPDerivative gradients
                                     (ff_positions ff) i g))).
  { intros i g Hi Hg. unfold oop_term. destruct gradients; [ | exact Hg ].
    destruct (Hi eq_refl) as [Hi1 [Hi2 [Hi3 Hi4]]].
    destruct (VectorOOPDerivative _ _ _ _) as [[[[raw Fa] Fb] Fc] Fd]. cbn [snd]. auto. }
  assert (Hvdw : forall (ji : nat * VDWCalc.t) g,
             (gradients = true ->
              touched (VDWCalc.a (snd ji) - 1)%nat
              /\ touched (VDWCalc.b (snd ji) - 1)%nat) ->
             P g -> P (snd (with_cutoff (IsCutOffEnabled ff) (VDWPairs ff)
                                        (vdw_term VectorDistanceDerivative gradients
                                                  (ff_positions ff)) ji g))).
  { intros ji g Hi Hg. unfold with_cutoff.
    destruct (IsCutOffEnabled ff && negb (BitIsOn (VDWPairs ff) (fst ji))); [ exact Hg | ].
    unfold vdw_term. destruct (pair_distance _ _ _ _) as [[rab Fa] Fb].
    destruct gradients; [ | exact Hg ].
    destruct (Hi eq_refl) as [Hi1 Hi2]. cbn [snd]. auto. }
  assert (H1 : P (snd (if term_enabled ff BondTerm
                       then E_Bond VectorBondDerivative gradients ff g0
                       else (0.0, g0)))).
  { destruct (term_enabled ff BondTerm); [ | exact H0 ].
    unfold E_Bond. apply (sum_terms_invariant P _ _ _ Hbond Hb g0 H0). }
  destruct (if term_enabled ff BondTerm
            then E_Bond VectorBondDerivative gradients ff g0 else (0.0, g0))
    as [e1 g1].
  cbn [snd] in H1.
  assert (H2 : P (snd (if term_enabled ff AngleTerm
                       then let '(e, g') := E_Angle VectorAngle VectorAngleDerivative
                                                    gradients ff g1 in (e1 + e, g')
                       else (e1, g1)))).
  { destruct (term_enabled ff AngleTerm); [ | exact H1 ].
    pose proof (sum_terms_invariant P _ _ _ Hangle Ha g1 H1) as H.
    unfold E_Angle. destruct (sum_terms _ _ g1) as [e g']. exact H. }
  destruct (if term_enabled ff AngleTerm
            then let '(e, g') := E_Angle VectorAngle VectorAngleDerivative
                                         gradients ff g1 in (e1 + e, g')
            else (e1, g1)) as [e2 g2].
  cbn [snd] in H2.
  assert (H3 : P (snd (if term_enabled ff TorsionTerm
                       then let '(e, g') := E_Torsion VectorTorsionDerivative
                                                      gradients ff g2 in (e2 + e, g')
                       else (e2, g2)))).
  { destruct (term_enabled ff TorsionTerm); [ | exact H2 ].
    pose proof (sum_terms_invariant P _ _ _ Htorsion Ht g2 H2) as H.
    unfold E_Torsion. destruct (sum_terms _ _ g2) as [e g']. exact H. }
  destruct (if term_enabled ff TorsionTerm
            then let '(e, g') := E_Torsion VectorTorsionDerivative
                                           gradients ff g2 in (e2 + e, g')
            else (e2, g2)) as [e3 g3].
  cbn [snd] in H3.
  assert (H4 : P (snd (if term_enabled ff OOPTerm
                       then let '(e, g') := E_OOP VectorOOP VectorOOPDerivative
                                                  gradients ff g3 in (e3 + e, g')
                       else (e3, g3)))).
  { destruct (term_enabled ff OOPTerm); [ | exact H3 ].
    pose proof (sum_terms_invariant P _ _ _ Hoop Ho g3 H3) as H.
    unfold E_OOP. destruct (sum_terms _ _ g3) as [e g']. exact H. }
  destruct (if term_enabled ff OOPTerm
            then let '(e, g') := E_OOP VectorOOP VectorOOPDerivative
                                       gradients ff g3 in (e3 + e, g')
            else (e3, g3)) as [e4 g4].
  cbn [snd] in H4.
  assert (H5 : P (snd (if term_enabled ff VDWTerm
                       then let '(e, g') := E_VDW VectorDistanceDerivative
                                                  gradients ff g4 in (e4 + e, g')
                       else (e4, g4)))).
  { destruct (term_enabled ff VDWTerm); [ | exact H4 ].
    pose proof (sum_terms_invariant P _ _ _ Hvdw
                  (Forall_numbered (fun i => gradients = true -> touched (VDWCalc.a i - 1)%nat /\ touched (VDWCalc.b i - 1)%nat) _ Hv) g4 H4) as H.
    unfold E_VDW. destruct (sum_terms _ _ g4) as [e g']. exact H. }
  destruct (if term_enabled ff VDWTerm
            then let '(e, g') := E_VDW VectorDistanceDerivative
                                       gradients ff g4 in (e4 + e, g')
            else (e4, g4)) as [e5 g5].
  exact H5.
Qed.

Lemma Forall_vacuous {A : Type} (Q : A -> Prop) (l : list A) :
  (forall i, Q i) -> Forall Q l.
Proof. intros H. induction l; constructor; auto. Qed.

(** X14.  [Energy] without gradients leaves the gradient array as it is;
    with gradients the array keeps its length. *)
Theorem Energy_gradient_array (gradients : bool) (ff : OBForceFieldUFF) :
  let total :=
    Energy VectorBondDerivative VectorDistanceDerivative VectorAngle
           VectorAngleDerivative VectorTorsionDerivative VectorOOP
           VectorOOPDerivative BondTerm AngleTerm TorsionTerm OOPTerm VDWTerm in
  snd (total false ff) = ff_gradients ff
  /\ List.length (snd (total gradients ff)) = List.length (ff_gradients ff).
Proof.
  cbv zeta. split.
  - apply (Energy_invariant (fun g => g = ff_gradients ff) (fun _ => False) false ff);
      try (apply Forall_vacuous; intros i H; discriminate H).
    + intros idx F g [].
    + reflexivity.
  - apply (Energy_invariant (fun g => List.length g = List.length (ff_gradients ff))
                            (fun _ => True) gradients ff);
      try (apply Forall_vacuous; intros i H; tauto).
    + intros idx F g _ Hg. rewrite add_gradient_length. exact Hg.
    + destruct gradients; [ apply length_map | reflexivity ].
Qed.

(** X15.  [Energy] with gradients leaves the zero vector as the gradient
    of every atom that no record of the five lists names. *)
Theorem Energy_gradient_of_unlisted_atom (ff : OBForceFieldUFF) (j : nat) :
  Forall (fun i => (BondCalc.a i - 1 <> j /\ BondCalc.b i - 1 <> j)%nat)
         (_bondcalculations ff) ->
  Forall (fun i => (AngleCalc.a i - 1 <> j /\ AngleCalc.b i - 1 <> j
                    /\ AngleCalc.c i - 1 <> j)%nat)
         (_anglecalculations ff) ->
  Forall (fun i => (TorsionCalc.a i - 1 <> j /\ TorsionCalc.b i - 1 <> j
                    /\ TorsionCalc.c i - 1 <> j /\ TorsionCalc.d i - 1 <> j)%nat)
         (_torsioncalculations ff) ->
  Forall (fun i => (OOPCalc.a i - 1 <> j /\ OOPCalc.b i - 1 <> j
                    /\ OOPCalc.c i - 1 <> j /\ OOPCalc.d i - 1 <> j)%nat)
         (_oopcalculations ff) ->
  Forall (fun i => (VDWCalc.a i - 1 <> j /\ VDWCalc.b i - 1 <> j)%nat)
         (_vdwcalculations ff) ->
  nth j (snd (Energy VectorBondDerivative VectorDistanceDerivative VectorAngle
                     VectorAngleDerivative VectorTorsionDerivative VectorOOP
                     VectorOOPDerivative BondTerm AngleTerm TorsionTerm OOPTerm VDWTerm
                     true ff)) Vector3d.Zero
  = Vector3d.Zero.
Proof.
  intros Hb Ha Ht Ho Hv.
  apply (Energy_invariant (fun g => nth j g Vector3d.Zero = Vector3d.Zero)
                          (fun idx => idx <> j) true ff).
  - intros idx F g Hidx Hg. rewrite add_gradient_other; assumption.
  - eapply Forall_impl; [ | exact Hb ]. intros i H _. exact H.
  - eapply Forall_impl; [ | exact Ha ]. intros i H _. exact H.
  - eapply Forall_impl; [ | exact Ht ]. intros i H _. exact H.
  - eapply Forall_impl; [ | exact Ho ]. intros i H _. exact H.
  - eapply Forall_impl; [ | exact Hv ]. intros i H _. exact H.
  - clear. revert j. induction (ff_gradients ff) as [ | a g IH ]; intros [ | j ];
      cbn; auto.
Qed.

End GradientArray.

(** ** The two forms of the out-of-plane term *)

(** The two forms, for a record that carries the coefficients computed for
    a center of type [ty] and a third of its [koop]. *)
Lemma oop_coefficients_forms (ff : OBForceFieldUFF) (ty : string) (a c d : nat)
      (ra rb rc rd : nat) (c0 c1 c2 k w : R) :
  oop_coefficients ff ty a c d = Ok (c0, c1, c2, k) ->
  let i := OOPCalc.mk ra rb rc rd c0 c1 c2 (k / 3.0) in
  (oop_type_C ty || oop_type_NO ty = true ->
   (k = 6.0 * KCAL_TO_KJ \/ k = 50.0 * KCAL_TO_KJ)
   /\ oop_energy i w = k / 3.0 * (1 - cos w) /\ oop_energy i 0 = 0)
  /\ (oop_type_C ty || oop_type_NO ty = false ->
      let phi := oop_phi ty in
      oop_energy i w = 2 * (k / 3.0) * ((cos w - cos phi) ^ 2 + cos (2 * phi))
      /\ oop_dE i phi = 0
      /\ oop_energy i phi = 2 * (k / 3.0) * cos (2 * phi)
      /\ k = 22.0 * KCAL_TO_KJ).
Proof.
  intros Hco i. unfold oop_coefficients in Hco.
  assert (Hplanar : c0 = 1.0 -> c1 = -1.0 -> c2 = 0.0 ->
                    oop_energy i w = k / 3.0 * (1 - cos w) /\ oop_energy i 0 = 0).
  { intros -> -> ->. unfold oop_energy, i. cbn. rewrite cos_0. split; lra. }
  destruct (oop_type_C ty) eqn:HC; cbn [orb].
  - split; [ intros _ | discriminate ].
    destruct (atom (_mol ff) a) as [ ta | ]; [ | discriminate ].
    destruct (atom (_mol ff) c) as [ tc | ]; [ | discriminate ].
    destruct (atom (_mol ff) d) as [ td | ]; [ | discriminate ].
    cbn [bind] in Hco. injection Hco as <- <- <- Hk.
    split; [ | apply Hplanar; reflexivity ].
    destruct (_ || _) in Hk; [ right | left ]; symmetry; exact Hk.
  - destruct (oop_type_NO ty) eqn:HNO.
    + split; [ intros _ | discriminate ].
      injection Hco as <- <- <- Hk.
      split; [ left; symmetry; exact Hk | apply Hplanar; reflexivity ].
    + split; [ discriminate | intros _ ].
      cbv zeta in Hco. injection Hco as <- <- <- <-.
      assert (Hform : forall t,
                 oop_energy i t
                 = 2 * (22.0 * KCAL_TO_KJ / 3.0)
                   * ((cos t - cos (oop_phi ty)) ^ 2 + cos (2 * oop_phi ty))).
      { intros t. unfold oop_energy, i. cbn [OOPCalc.koop OOPCalc.c0 OOPCalc.c1 OOPCalc.c2].
        replace (2.0 * t) with (2 * t) by lra.
        replace (2.0 * oop_phi ty) with (2 * oop_phi ty) by lra.
        rewrite (cos_2a_cos t).
        set (cp := cos (oop_phi ty)). set (c2p := cos (2 * oop_phi ty)).
        set (ct := cos t).
        assert (E2 : c2p = 2 * cp * cp - 1) by apply cos_2a_cos.
        rewrite E2. replace 1.0 with 1 by lra. replace (-1.0) with (-1) by lra.
        replace (-4.0) with (-4) by lra. ring. }
      cbv zeta. split; [ apply Hform | ]. split; [ | split; [ | reflexivity ] ].
      * unfold oop_dE, i. cbn [OOPCalc.koop OOPCalc.c0 OOPCalc.c1 OOPCalc.c2].
        replace (2.0 * oop_phi ty) with (2 * oop_phi ty) by lra.
        rewrite sin_2a. replace 1.0 with 1 by lra. replace (-4.0) with (-4) by lra.
        replace 2.0 with 2 by lra. ring.
      * rewrite Hform. ring.
Qed.

(** Twice the equilibrium angle of a type is between 168 and 180 degrees. *)
Lemma cos_twice_oop_phi (ty : string) : cos (2 * oop_phi ty) < 0.
Proof.
  pose proof PI_RGT_0 as Hpi.
  unfold oop_phi.
  destruct (EQn ty "P_3+3" 5); [ | destruct (EQn ty "As3+3" 5);
                                    [ | destruct (EQn ty "Sb3+3" 5) ] ];
    apply cos_lt_0; unfold DEG_TO_RAD; lra.
Qed.

(** The records of a center come in threes and share the coefficients. *)
Lemma setup_oop_records (ff : OBForceFieldUFF) (b : nat) (tb : OBAtom)
      (records : list OOPCalc.t) (i : OOPCalc.t) :
  atom (_mol ff) b = Ok tb ->
  setup_oop ff b = Ok records ->
  In i records ->
  oop_whitelisted tb = true
  /\ List.length records = 3%nat
  /\ exists a c d ra rc rd c0 c1 c2 k,
      oop_coefficients ff (GetType tb) a c d = Ok (c0, c1, c2, k)
      /\ i = OOPCalc.mk ra b rc rd c0 c1 c2 (k / 3.0).
Proof.
  intros Hb Hsetup Hin. unfold setup_oop in Hsetup. rewrite Hb in Hsetup.
  cbn [bind] in Hsetup.
  destruct (oop_whitelisted tb); cbn [negb] in Hsetup;
    [ | injection Hsetup as <-; destruct Hin ].
  split; [ reflexivity | ].
  destruct (oop_neighbors (neighbors (_mol ff) b)) as [ [[a c] d] | ];
    [ | injection Hsetup as <-; destruct Hin ].
  destruct (HasGroups ff && negb (in_one_intraGroup ff [a; b; c; d]));
    [ injection Hsetup as <-; destruct Hin | ].
  destruct (oop_coefficients ff (GetType tb) a c d) as [ [[[c0 c1] c2] k] | ] eqn:Hco;
    [ | discriminate ].
  cbn [bind] in Hsetup. injection Hsetup as <-.
  split; [ reflexivity | ].
  destruct Hin as [ <- | [ <- | [ <- | [] ] ] ].
  - exists a, c, d, a, c, d, c0, c1, c2, k. split; [ exact Hco | reflexivity ].
  - exists a, c, d, d, c, a, c0, c1, c2, k. split; [ exact Hco | reflexivity ].
  - exists a, c, d, a, d, c, c0, c1, c2, k. split; [ exact Hco | reflexivity ].
Qed.

(** X16.  Every record that the OOP setup builds for a center, one of the
    three of that center.  For the C, N and O types its constant is a
    third of 6 or of 50 kcal/mol and its energy is [koop (1 - cos w)],
    zero for the planar arrangement.  For the other types, which are P,
    As, Sb and Bi, its constant is a third of 22 kcal/mol and its energy
    is [2 koop ((cos w - cos phi)^2 + cos (2 phi))], so that [dE] vanishes
    at the equilibrium angle [phi] of the type but the energy there is
    [2 koop cos (2 phi)], which is negative and so not zero. *)
Theorem oop_record_forms (ff : OBForceFieldUFF) (b : nat) (tb : OBAtom)
        (records : list OOPCalc.t) (i : OOPCalc.t) (w : R) :
  atom (_mol ff) b = Ok tb ->
  setup_oop ff b = Ok records ->
  In i records ->
  let ty := GetType tb in
  let phi := oop_phi ty in
  List.length records = 3%nat
  /\ OOPCalc.b i = b
  /\ (oop_type_C ty || oop_type_NO ty = true ->
      (OOPCalc.koop i = 6.0 * KCAL_TO_KJ / 3.0
       \/ OOPCalc.koop i = 50.0 * KCAL_TO_KJ / 3.0)
      /\ oop_energy i w = OOPCalc.koop i * (1 - cos w)
      /\ oop_energy i 0 = 0)
  /\ (oop_type_C ty || oop_type_NO ty = false ->
      oop_type_P ty = true
      /\ OOPCalc.koop i = 22.0 * KCAL_TO_KJ / 3.0
      /\ oop_energy i w
         = 2 * OOPCalc.koop i * ((cos w - cos phi) ^ 2 + cos (2 * phi))
      /\ oop_dE i phi = 0
      /\ oop_energy i phi = 2 * OOPCalc.koop i * cos (2 * phi)
      /\ oop_energy i phi < 0
      /\ oop_energy i phi <> 0).
Proof.
  intros Hb Hsetup Hin ty phi.
  destruct (setup_oop_records ff b tb records i Hb Hsetup Hin)
    as [Hw [Hlen [a [c [d [ra [rc [rd [c0 [c1 [c2 [k [Hco Hi]]]]]]]]]]]]].
  destruct (oop_coefficients_forms ff ty a c d ra b rc rd c0 c1 c2 k w Hco)
    as [Hplanar Hpyramid].
  rewrite <- Hi in Hplanar, Hpyramid.
  assert (Hk : OOPCalc.koop i = k / 3.0) by (rewrite Hi; reflexivity).
  split; [ exact Hlen | ].
  split; [ rewrite Hi; reflexivity | ].
  split.
  - intros Hty. destruct (Hplanar Hty) as [Hkk [Hen H0]].
    rewrite Hk. split; [ | split; [ exact Hen | exact H0 ] ].
    destruct Hkk as [ -> | -> ]; [ left | right ]; reflexivity.
  - intros Hty. destruct (Hpyramid Hty) as [Hen [Hd [Hphi Hkk]]].
    fold phi in Hen, Hd, Hphi.
    assert (HP : oop_type_P ty = true).
    { unfold oop_whitelisted in Hw. fold ty in Hw.
      apply orb_false_elim in Hty. destruct Hty as [HC HNO].
      rewrite HC, HNO in Hw. cbn [orb] in Hw. rewrite orb_false_r in Hw.
      apply andb_prop in Hw. apply Hw. }
    assert (Hneg : oop_energy i phi < 0).
    { rewrite Hphi, Hkk.
      pose proof (cos_twice_oop_phi ty) as Hcos. fold phi in Hcos.
      unfold KCAL_TO_KJ. nra. }
    rewrite Hk.
    split; [ exact HP | ].
    split; [ rewrite Hkk; reflexivity | ].
    split; [ exact Hen | ].
    split; [ exact Hd | ].
    split; [ exact Hphi | ].
    split; [ exact Hneg | lra ].
Qed.

(** * Further properties of the UFF setup *)

(** ** The parameter lookup *)

Lemma GetParameterUFF_app (a : string) (l l' : list OBFFParameter) :
  GetParameterUFF a (l ++ l')
  = match GetParameterUFF a l with
    | Some p => Some p
    | None => GetParameterUFF a l'
    end.
Proof.
  induction l as [ | q l IH ]; [ reflexivity | ].
  cbn [app GetParameterUFF]. destruct (String.eqb a (_a q)); [ reflexivity | exact IH ].
Qed.

(** X17.  [GetParameterUFF] returns the first entry of the table whose
    name is the type, and the null pointer exactly when no entry has that
    name; entries that follow never change a lookup, so that a table that
    holds every entry twice (the parameter file parsed a second time)
    answers as the table itself. *)
Theorem GetParameterUFF_first_match (a : string) (l : list OBFFParameter) :
  (forall p,
      GetParameterUFF a l = Some p
      <-> exists l1 l2, l = l1 ++ p :: l2 /\ _a p = a
                        /\ Forall (fun q => _a q <> a) l1)
  /\ (GetParameterUFF a l = None <-> Forall (fun q => _a q <> a) l)
  /\ (forall l', GetParameterUFF a l <> None ->
                 GetParameterUFF a (l ++ l') = GetParameterUFF a l)
  /\ GetParameterUFF a (l ++ l) = GetParameterUFF a l.
Proof.
  split; [ | split; [ | split ] ].
  - intros p. split.
    + induction l as [ | q l IH ]; cbn [GetParameterUFF]; [ discriminate | ].
      destruct (String.eqb a (_a q)) eqn:E.
      * intros H; injection H as <-. apply String.eqb_eq in E.
        exists [], l. repeat split; auto.
      * intros H. destruct (IH H) as [l1 [l2 [-> [Hp Hl1]]]].
        exists (q :: l1), l2. repeat split; auto.
        constructor; [ | exact Hl1 ].
        apply String.eqb_neq in E. congruence.
    + intros [l1 [l2 [-> [Hp Hl1]]]].
      induction Hl1 as [ | q l1 Hq _ IH ]; cbn [app GetParameterUFF].
      * rewrite Hp, String.eqb_refl. reflexivity.
      * assert (E : String.eqb a (_a q) = false) by (apply String.eqb_neq; congruence).
        rewrite E. exact IH.
  - split.
    + induction l as [ | q l IH ]; cbn [GetParameterUFF]; [ constructor | ].
      destruct (String.eqb a (_a q)) eqn:E; [ discriminate | ].
      intros H. constructor; [ | apply IH; exact H ].
      apply String.eqb_neq in E. congruence.
    + intros H. apply GetParameterUFF_absent.
      intros p Hp. rewrite Forall_forall in H. apply H. exact Hp.
  - intros l' H. rewrite GetParameterUFF_app.
    destruct (GetParameterUFF a l); [ reflexivity | congruence ].
  - rewrite GetParameterUFF_app. destruct (GetParameterUFF a l); reflexivity.
Qed.

(** ** The lists of non-bonded pairs *)

Lemma for_each_Ok {A B : Type} (body : A -> result (list B)) (l : list A) :
  (forall x, In x l -> exists r, body x = Ok r) ->
  exists rs, for_each body l = Ok rs.
Proof.
  induction l as [ | x l IH ]; intros H; cbn [for_each].
  - eexists; reflexivity.
  - destruct (H x (or_introl eq_refl)) as [r Hr]. rewrite Hr. cbn [bind].
    destruct IH as [rs Hrs]; [ intros y Hy; apply H; right; exact Hy | ].
    rewrite Hrs. cbn [bind]. eexists; reflexivity.
Qed.

Lemma for_each_map_filter {A B C : Type} (body : A -> result (list B))
      (key : B -> C) (image : A -> C) (keep : A -> bool) (l : list A) :
  (forall x r, In x l -> body x = Ok r ->
               map key r = if keep x then [image x] else []) ->
  forall rs, for_each body l = Ok rs ->
             map key rs = map image (filter keep l).
Proof.
  induction l as [ | x l IH ]; intros H rs; cbn [for_each filter].
  - intros E; injection E as <-. reflexivity.
  - destruct (body x) as [ r | ] eqn:Hx; [ | discriminate ]. cbn [bind].
    destruct (for_each body l) as [ rs' | ] eqn:Hl; [ | discriminate ]. cbn [bind].
    intros E; injection E as <-.
    rewrite map_app, (H x r (or_introl eq_refl) Hx).
    rewrite (IH (fun y r' Hy => H y r' (or_intror Hy)) rs' eq_refl).
    destruct (keep x); reflexivity.
Qed.

Lemma SetupCalculations_lists (loc : torsion_locals) (ff ff' : OBForceFieldUFF) (r : bool) :
  SetupCalculations loc ff = Ok (r, ff') ->
  for_each (setup_bond ff) (mol_bonds (_mol ff)) = Ok (_bondcalculations ff')
  /\ for_each (setup_angle ff) (mol_angles (_mol ff)) = Ok (_anglecalculations ff')
  /\ setup_torsions ff loc (mol_torsions (_mol ff)) = Ok (_torsioncalculations ff')
  /\ for_each (setup_vdw ff) (mol_pairs (_mol ff)) = Ok (_vdwcalculations ff')
  /\ ff' = set_calculations (_bondcalculations ff') (_anglecalculations ff')
                            (_torsioncalculations ff') (_oopcalculations ff')
                            (_vdwcalculations ff') ff.
Proof.
  unfold SetupCalculations.
  destruct (for_each (setup_bond ff) _); [ | discriminate ].
  destruct (for_each (setup_angle ff) _); [ | discriminate ].
  destruct (setup_torsions ff loc _); [ | discriminate ].
  destruct (for_each (setup_oop ff) _); [ | discriminate ].
  destruct (for_each (setup_vdw ff) _); [ | discriminate ].
  simpl. intros H; injection H as _ <-. repeat split; reflexivity.
Qed.

(** The pairs that the two non-bonded loops keep when no groups are set. *)
Lemma setup_vdw_kept (ff : OBForceFieldUFF) (p : nat * nat) (rx : list VDWCalc.t) :
  HasGroups ff = false ->
  setup_vdw ff p = Ok rx ->
  map (fun v => (VDWCalc.a v, VDWCalc.b v)) rx
  = if negb (IsConnected (_mol ff) (fst p) (snd p))
       && negb (IsOneThree (_mol ff) (fst p) (snd p))
    then [p] else [].
Proof.
  intros HG. unfold setup_vdw. rewrite HG. cbn [andb].
  destruct (GetAtom (_mol ff) (fst p)) as [ a | ] eqn:Ha; [ | discriminate ].
  destruct (GetAtom (_mol ff) (snd p)) as [ b | ] eqn:Hb; [ | discriminate ].
  apply GetAtom_Some in Ha, Hb. subst a b.
  cbn [deref bind].
  destruct (IsConnected (_mol ff) (fst p) (snd p));
    [ intros H; injection H as <-; reflexivity | ].
  destruct (IsOneThree (_mol ff) (fst p) (snd p));
    [ intros H; injection H as <-; reflexivity | ].
  destruct (parameter_of ff (fst p)) as [ pa | ]; [ | discriminate ].
  destruct (parameter_of ff (snd p)) as [ pb | ]; [ | discriminate ].
  cbn [bind].
  destruct pa as [ parameterA | ]; [ | discriminate ].
  destruct pb as [ parameterB | ]; [ | discriminate ].
  cbn [deref bind].
  intros H; injection H as <-. destruct p; reflexivity.
Qed.

(** X18.  Without groups, a [SetupCalculations] that completes leaves one
    Van der Waals record for each pair of the molecule that is neither
    bonded nor 1-3, in the order of the pairs, and no other record. *)
Theorem vdw_list_is_the_filtered_pairs
        (loc : torsion_locals) (ff ff' : OBForceFieldUFF) (r : bool) :
  HasGroups ff = false ->
  SetupCalculations loc ff = Ok (r, ff') ->
  map (fun v => (VDWCalc.a v, VDWCalc.b v)) (_vdwcalculations ff')
  = filter (fun p => negb (IsConnected (_mol ff) (fst p) (snd p))
                     && negb (IsOneThree (_mol ff) (fst p) (snd p)))
           (mol_pairs (_mol ff)).
Proof.
  intros HG Hsetup.
  destruct (SetupCalculations_lists loc ff ff' r Hsetup) as [_ [_ [_ [Hv _]]]].
  rewrite (for_each_map_filter (setup_vdw ff) (fun v => (VDWCalc.a v, VDWCalc.b v))
             (fun p => p)
             (fun p => negb (IsConnected (_mol ff) (fst p) (snd p))
                       && negb (IsOneThree (_mol ff) (fst p) (snd p)))
             (mol_pairs (_mol ff))
             (fun p rx _ Hp => setup_vdw_kept ff p rx HG Hp) _ Hv).
  apply map_id.
Qed.

Lemma setup_electrostatic_record (ff : OBForceFieldUFF) (p : nat * nat)
      (rx : list EleCalc.t) :
  setup_electrostatic ff p = Ok rx ->
  forall e, In e rx ->
            exists ta tb,
              atom (_mol ff) (EleCalc.a e) = Ok ta
              /\ atom (_mol ff) (EleCalc.b e) = Ok tb
              /\ EleCalc.qq e
                 = KCAL_TO_KJ * 332.0637 * GetPartialCharge ta * GetPartialCharge tb
              /\ EleCalc.qq e <> 0.
Proof.
  unfold setup_electrostatic.
  destruct (GetAtom (_mol ff) (fst p)) as [ a | ]; [ | discriminate ].
  destruct (GetAtom (_mol ff) (snd p)) as [ b | ]; [ | discriminate ].
  cbn [deref bind].
  destruct (HasGroups ff && negb (in_interGroups ff a b));
    [ intros H; injection H as <-; intros e [] | ].
  destruct (IsConnected (_mol ff) a b); [ intros H; injection H as <-; intros e [] | ].
  destruct (IsOneThree (_mol ff) a b); [ intros H; injection H as <-; intros e [] | ].
  destruct (atom (_mol ff) a) as [ ta | ] eqn:Hta; [ | discriminate ].
  destruct (atom (_mol ff) b) as [ tb | ] eqn:Htb; [ | discriminate ].
  cbn [bind].
  destruct (Rneqb _ 0) eqn:Hq; intros H; injection H as <-;
    [ intros e [ <- | [] ] | intros e [] ].
  apply Rneqb_true in Hq. exists ta, tb. cbn. repeat split; assumption.
Qed.

(** X19.  Every record of the list that [SetupElectrostatics] builds
    carries [qq = KCAL_TO_KJ * 332.0637 * Qa * Qb] for the partial charges
    of its two atoms, and that product is not zero: a pair with an
    uncharged atom has no record. *)
Theorem electrostatic_records_are_charged
        (ff ff' : OBForceFieldUFF) (r : bool) (e : EleCalc.t) :
  SetupElectrostatics ff = Ok (r, ff') ->
  In e (_electrostaticcalculations ff') ->
  exists ta tb,
    atom (_mol ff) (EleCalc.a e) = Ok ta
    /\ atom (_mol ff) (EleCalc.b e) = Ok tb
    /\ EleCalc.qq e = KCAL_TO_KJ * 332.0637 * GetPartialCharge ta * GetPartialCharge tb
    /\ GetPartialCharge ta <> 0
    /\ GetPartialCharge tb <> 0.
Proof.
  unfold SetupElectrostatics.
  destruct (for_each (setup_electrostatic ff) _) as [ el | ] eqn:Hel; [ | discriminate ].
  cbn [bind]. intros H; injection H as _ <-. cbn [_electrostaticcalculations
                                                     set_electrostaticcalculations].
  intros Hin.
  destruct (for_each_In _ _ _ Hel e Hin) as [p [rx [_ [Hp Hrx]]]].
  destruct (setup_electrostatic_record ff p rx Hp e Hrx) as [ta [tb [Ha [Hb [Hqq Hnz]]]]].
  exists ta, tb. repeat split; try assumption.
  - intros E. apply Hnz. rewrite Hqq, E. ring.
  - intros E. apply Hnz. rewrite Hqq, E. ring.
Qed.

(** ** What the setups read *)

Lemma setup_torsions_ext (ff1 ff2 : OBForceFieldUFF) (ts : list (nat * nat * nat * nat)) :
  (forall loc t, setup_torsion ff1 loc t = setup_torsion ff2 loc t) ->
  forall loc, setup_torsions ff1 loc ts = setup_torsions ff2 loc ts.
Proof.
  intros H. induction ts as [ | t ts IH ]; intros loc; cbn [setup_torsions];
    [ reflexivity | ].
  rewrite H. destruct (setup_torsion ff2 loc t) as [ [r loc'] | ]; [ | reflexivity ].
  cbn [bind]. rewrite IH. reflexivity.
Qed.

Lemma SetupCalculations_reads_no_list
      (loc : torsion_locals) (ff : OBForceFieldUFF)
      (bl : list BondCalc.t) (al : list AngleCalc.t) (tl : list TorsionCalc.t)
      (ol : list OOPCalc.t) (vl : list VDWCalc.t) (el : list EleCalc.t) :
  SetupCalculations loc (set_calculations bl al tl ol vl ff)
  = match SetupCalculations loc ff with
    | Ok (r, ff') =>
        Ok (r, set_calculations (_bondcalculations ff') (_anglecalculations ff')
                                (_torsioncalculations ff') (_oopcalculations ff')
                                (_vdwcalculations ff')
                                (set_calculations bl al tl ol vl ff))
    | NullDeref => NullDeref
    end
  /\ SetupCalculations loc (set_electrostaticcalculations el ff)
     = match SetupCalculations loc ff with
       | Ok (r, ff') => Ok (r, set_electrostaticcalculations el ff')
       | NullDeref => NullDeref
       end
  /\ SetupElectrostatics (set_calculations bl al tl ol vl ff)
     = match SetupElectrostatics ff with
       | Ok (r, ff') => Ok (r, set_calculations bl al tl ol vl ff')
       | NullDeref => NullDeref
       end.
Proof.
  split; [ | split ].
  - unfold SetupCalculations.
    change (for_each (setup_bond (set_calculations bl al tl ol vl ff))
                     (mol_bonds (_mol (set_calculations bl al tl ol vl ff))))
      with (for_each (setup_bond ff) (mol_bonds (_mol ff))).
    destruct (for_each (setup_bond ff) _) as [ bl' | ]; [ | reflexivity ].
    change (for_each (setup_angle (set_calculations bl al tl ol vl ff))
                     (mol_angles (_mol (set_calculations bl al tl ol vl ff))))
      with (for_each (setup_angle ff) (mol_angles (_mol ff))).
    destruct (for_each (setup_angle ff) _) as [ al' | ]; [ | reflexivity ].
    rewrite (setup_torsions_ext (set_calculations bl al tl ol vl ff) ff _
                                (fun _ _ => eq_refl)).
    change (mol_torsions (_mol (set_calculations bl al tl ol vl ff)))
      with (mol_torsions (_mol ff)).
    destruct (setup_torsions ff loc _) as [ tl' | ]; [ | reflexivity ].
    change (for_each (setup_oop (set_calculations bl al tl ol vl ff))
                     (seq 1 (NumAtoms (_mol (set_calculations bl al tl ol vl ff)))))
      with (for_each (setup_oop ff) (seq 1 (NumAtoms (_mol ff)))).
    destruct (for_each (setup_oop ff) _) as [ ol' | ]; [ | reflexivity ].
    change (for_each (setup_vdw (set_calculations bl al tl ol vl ff))
                     (mol_pairs (_mol (set_calculations bl al tl ol vl ff))))
      with (for_each (setup_vdw ff) (mol_pairs (_mol ff))).
    destruct (for_each (setup_vdw ff) _) as [ vl' | ]; reflexivity.
  - unfold SetupCalculations.
    change (for_each (setup_bond (set_electrostaticcalculations el ff))
                     (mol_bonds (_mol (set_electrostaticcalculations el ff))))
      with (for_each (setup_bond ff) (mol_bonds (_mol ff))).
    destruct (for_each (setup_bond ff) _) as [ bl' | ]; [ | reflexivity ].
    change (for_each (setup_angle (set_electrostaticcalculations el ff))
                     (mol_angles (_mol (set_electrostaticcalculations el ff))))
      with (for_each (setup_angle ff) (mol_angles (_mol ff))).
    destruct (for_each (setup_angle ff) _) as [ al' | ]; [ | reflexivity ].
    rewrite (setup_torsions_ext (set_electrostaticcalculations el ff) ff _
                                (fun _ _ => eq_refl)).
    change (mol_torsions (_mol (set_electrostaticcalculations el ff)))
      with (mol_torsions (_mol ff)).
    destruct (setup_torsions ff loc _) as [ tl' | ]; [ | reflexivity ].
    change (for_each (setup_oop (set_electrostaticcalculations el ff))
                     (seq 1 (NumAtoms (_mol (set_electrostaticcalculations el ff)))))
      with (for_each (setup_oop ff) (seq 1 (NumAtoms (_mol ff)))).
    destruct (for_each (setup_oop ff) _) as [ ol' | ]; [ | reflexivity ].
    change (for_each (setup_vdw (set_electrostaticcalculations el ff))
                     (mol_pairs (_mol (set_electrostaticcalculations el ff))))
      with (for_each (setup_vdw ff) (mol_pairs (_mol ff))).
    destruct (for_each (setup_vdw ff) _) as [ vl' | ]; reflexivity.
  - unfold SetupElectrostatics.
    change (for_each (setup_electrostatic (set_calculations bl al tl ol vl ff))
                     (mol_pairs (_mol (set_calculations bl al tl ol vl ff))))
      with (for_each (setup_electrostatic ff) (mol_pairs (_mol ff))).
    destruct (for_each (setup_electrostatic ff) _) as [ el' | ]; reflexivity.
Qed.

Lemma SetupElectrostatics_shape (ff ff' : OBForceFieldUFF) (r : bool) :
  SetupElectrostatics ff = Ok (r, ff') ->
  ff' = set_electrostaticcalculations (_electrostaticcalculations ff') ff.
Proof.
  unfold SetupElectrostatics.
  destruct (for_each (setup_electrostatic ff) _) as [ el | ]; [ | discriminate ].
  cbn [bind]. intros H; injection H as _ <-. reflexivity.
Qed.

Lemma SetupElectrostatics_reads_no_list (ff : OBForceFieldUFF) (el : list EleCalc.t) :
  SetupElectrostatics (set_electrostaticcalculations el ff)
  = match SetupElectrostatics ff with
    | Ok (r, ff') => Ok (r, ff')
    | NullDeref => NullDeref
    end.
Proof.
  unfold SetupElectrostatics.
  change (for_each (setup_electrostatic (set_electrostaticcalculations el ff))
                   (mol_pairs (_mol (set_electrostaticcalculations el ff))))
    with (for_each (setup_electrostatic ff) (mol_pairs (_mol ff))).
  destruct (for_each (setup_electrostatic ff) _) as [ el' | ]; reflexivity.
Qed.

Lemma SetupCalculations_shape (loc : torsion_locals) (ff ff' : OBForceFieldUFF) (r : bool) :
  SetupCalculations loc ff = Ok (r, ff') ->
  exists bl al tl ol vl, ff' = set_calculations bl al tl ol vl ff.
Proof.
  intros H. destruct (SetupCalculations_lists loc ff ff' r H) as [_ [_ [_ [_ Hshape]]]].
  do 5 eexists. exact Hshape.
Qed.

Lemma SetupElectrostatics_shape' (ff ff' : OBForceFieldUFF) (r : bool) :
  SetupElectrostatics ff = Ok (r, ff') ->
  exists el, ff' = set_electrostaticcalculations el ff.
Proof. intros H. eexists. exact (SetupElectrostatics_shape ff ff' r H). Qed.

(** X20.  The two setups clear and rebuild their own lists and read none
    of the six lists: a setup that completed, run again (from the same
    contents of its uninitialised locals), gives the same force field, and
    [SetupCalculations] followed by [SetupElectrostatics] gives what the
    other order gives. *)
Theorem setups_rebuild_their_lists (loc : torsion_locals) (ff : OBForceFieldUFF) :
  (forall r ff', SetupCalculations loc ff = Ok (r, ff') ->
                 SetupCalculations loc ff' = Ok (r, ff'))
  /\ (forall r ff', SetupElectrostatics ff = Ok (r, ff') ->
                    SetupElectrostatics ff' = Ok (r, ff'))
  /\ (forall r1 ff1 r2 ff2,
         SetupCalculations loc ff = Ok (r1, ff1) ->
         SetupElectrostatics ff1 = Ok (r2, ff2) ->
         exists ff1',
           SetupElectrostatics ff = Ok (r2, ff1')
           /\ SetupCalculations loc ff1' = Ok (r1, ff2)).
Proof.
  split; [ | split ].
  - intros r ff' H.
    destruct (SetupCalculations_shape loc ff ff' r H) as [bl [al [tl [ol [vl ->]]]]].
    destruct (SetupCalculations_reads_no_list loc ff bl al tl ol vl []) as [E _].
    rewrite E, H. reflexivity.
  - intros r ff' H.
    destruct (SetupElectrostatics_shape' ff ff' r H) as [el ->].
    rewrite SetupElectrostatics_reads_no_list, H. reflexivity.
  - intros r1 ff1 r2 ff2 H1 H2.
    destruct (SetupCalculations_shape loc ff ff1 r1 H1) as [bl [al [tl [ol [vl ->]]]]].
    destruct (SetupCalculations_reads_no_list loc ff bl al tl ol vl []) as [_ [_ E3]].
    rewrite H2 in E3.
    destruct (SetupElectrostatics ff) as [ [r ff1'] | ] eqn:He; [ | discriminate ].
    injection E3 as <- ->.
    exists ff1'. split; [ reflexivity | ].
    destruct (SetupElectrostatics_shape' ff ff1' r2 He) as [el ->].
    destruct (SetupCalculations_reads_no_list loc ff [] [] [] [] [] el) as [_ [E2 _]].
    rewrite E2, H1. reflexivity.
Qed.

(** ** Molecules on which the setup completes *)

Lemma GetAtom_in_range (mol : OBMol) (idx : nat) :
  atom_in_range mol idx = true -> GetAtom mol idx = Some idx.
Proof. unfold atom_in_range, GetAtom. intros ->. reflexivity. Qed.

Lemma parameter_of_known (ff : OBForceFieldUFF) (a : nat) :
  types_known ff = true ->
  atom_in_range (_mol ff) a = true ->
  exists ta p, atom (_mol ff) a = Ok ta /\ parameter_of ff a = Ok (Some p).
Proof.
  intros Hk Ha. destruct (atom_in_range_Ok _ _ Ha) as [ta Hta].
  assert (Hin : In ta (mol_atoms (_mol ff))).
  { unfold atom in Hta. destruct a as [ | i ]; [ discriminate | ].
    destruct (nth_error (mol_atoms (_mol ff)) i) as [ t | ] eqn:E; [ | discriminate ].
    injection Hta as <-. apply nth_error_In in E. exact E. }
  unfold types_known in Hk. rewrite forallb_forall in Hk. specialize (Hk ta Hin).
  unfold type_known in Hk.
  destruct (GetParameterUFF (GetType ta) (_ffparams ff)) as [ p | ] eqn:Hp;
    [ | discriminate ].
  exists ta, p. split; [ exact Hta | ].
  unfold parameter_of. rewrite Hta. cbn [bind]. rewrite Hp. reflexivity.
Qed.

Lemma bonded_Some (mol : OBMol) (a b : nat) :
  bonded mol a b = true -> exists bd, GetBond mol a b = Some bd.
Proof.
  unfold bonded. destruct (GetBond mol a b) as [ bd | ]; [ | discriminate ].
  intros _. exists bd. reflexivity.
Qed.

Lemma setup_bond_Ok (ff : OBForceFieldUFF) (bond : OBBond) :
  types_known ff = true ->
  atom_in_range (_mol ff) (GetBeginAtom bond) = true ->
  atom_in_range (_mol ff) (GetEndAtom bond) = true ->
  exists r, setup_bond ff bond = Ok r.
Proof.
  intros Hk Ha Hb. unfold setup_bond.
  destruct (HasGroups ff && negb _); [ eexists; reflexivity | ].
  destruct (parameter_of_known ff _ Hk Ha) as [ta [pa [_ Hpa]]].
  destruct (parameter_of_known ff _ Hk Hb) as [tb [pb [_ Hpb]]].
  rewrite Hpa, Hpb. cbn [bind deref]. eexists; reflexivity.
Qed.

Lemma setup_angle_Ok (ff : OBForceFieldUFF) (angle : nat * nat * nat) :
  types_known ff = true ->
  angle_in_range (_mol ff) angle = true ->
  exists r, setup_angle ff angle = Ok r.
Proof.
  intros Hk Hr. unfold setup_angle. destruct angle as [[i0 i1] i2].
  unfold angle_in_range in Hr.
  apply andb_prop in Hr; destruct Hr as [Hr HbBC].
  apply andb_prop in Hr; destruct Hr as [Hr HbAB].
  apply andb_prop in Hr; destruct Hr as [Hr H2].
  apply andb_prop in Hr; destruct Hr as [H0 H1].
  rewrite !GetAtom_in_range by assumption. cbn [deref bind].
  destruct (HasGroups ff && negb _); [ eexists; reflexivity | ].
  destruct (parameter_of_known ff (i1 + 1) Hk H1) as [ta [pa [_ Hpa]]].
  destruct (parameter_of_known ff (i0 + 1) Hk H0) as [tb [pb [_ Hpb]]].
  destruct (parameter_of_known ff (i2 + 1) Hk H2) as [tc [pc [_ Hpc]]].
  rewrite Hpa, Hpb, Hpc. cbn [bind deref].
  destruct (bonded_Some _ _ _ HbAB) as [bAB HAB].
  destruct (bonded_Some _ _ _ HbBC) as [bBC HBC].
  rewrite HAB. cbn [bind deref]. rewrite HBC. cbn [bind deref].
  eexists; reflexivity.
Qed.

Lemma torsion_table_Ok (pB pC : OBFFParameter) (bnum cnum : nat) (torsiontype : R)
      (loc : torsion_locals) :
  exists loc', torsion_table (Some pB) (Some pC) bnum cnum torsiontype loc = Ok loc'.
Proof.
  unfold torsion_table, and_then, or_else, coordination_is. cbn [deref bind].
  destruct (Z.eqb (ipar pB 0) 3), (Z.eqb (ipar pC 0) 3), (Z.eqb (ipar pB 0) 2),
    (Z.eqb (ipar pC 0) 2); cbn [bind andb];
    destruct (is_oxygen bnum), (is_heavy_group6 bnum), (is_oxygen cnum),
      (is_heavy_group6 cnum), (is_group6 cnum), (is_group6 bnum);
    eexists; reflexivity.
Qed.

Lemma setup_torsion_Ok (ff : OBForceFieldUFF) (loc : torsion_locals)
      (t : nat * nat * nat * nat) :
  types_known ff = true ->
  torsion_in_range (_mol ff) t = true ->
  exists r, setup_torsion ff loc t = Ok r.
Proof.
  intros Hk Hr. unfold setup_torsion. destruct t as [[[i0 i1] i2] i3].
  unfold torsion_in_range in Hr.
  apply andb_prop in Hr; destruct Hr as [Hr HbBC].
  apply andb_prop in Hr; destruct Hr as [Hr H3].
  apply andb_prop in Hr; destruct Hr as [Hr H2].
  apply andb_prop in Hr; destruct Hr as [H0 H1].
  rewrite !GetAtom_in_range by assumption. cbn [deref bind].
  destruct (HasGroups ff && negb _); [ eexists; reflexivity | ].
  destruct (bonded_Some _ _ _ HbBC) as [bc Hbc]. rewrite Hbc. cbn [deref bind].
  destruct (parameter_of_known ff (i1 + 1) Hk H1) as [tb [pb [Htb Hpb]]].
  destruct (parameter_of_known ff (i2 + 1) Hk H2) as [tc [pc [Htc Hpc]]].
  rewrite Hpb, Hpc, Htb, Htc. cbn [bind].
  destruct (torsion_table_Ok pb pc (GetAtomicNum tb) (GetAtomicNum tc)
              (effective_bond_order bc) loc) as [loc' Hloc].
  rewrite Hloc. cbn [bind].
  destruct (IsNearZero _ _); eexists; reflexivity.
Qed.

Lemma setup_torsions_Ok (ff : OBForceFieldUFF) (ts : list (nat * nat * nat * nat)) :
  types_known ff = true ->
  forallb (torsion_in_range (_mol ff)) ts = true ->
  forall loc, exists rs, setup_torsions ff loc ts = Ok rs.
Proof.
  intros Hk. induction ts as [ | t ts IH ]; intros Hr loc; cbn [setup_torsions].
  - eexists; reflexivity.
  - cbn [forallb] in Hr. apply andb_prop in Hr. destruct Hr as [Ht Hts].
    destruct (setup_torsion_Ok ff loc t Hk Ht) as [[r loc'] Hs].
    rewrite Hs. cbn [bind].
    destruct (IH Hts loc') as [rs Hrs]. rewrite Hrs. cbn [bind].
    eexists; reflexivity.
Qed.

Lemma last_In {A : Type} (l : list A) (dflt : A) : In (last l dflt) (dflt :: l).
Proof.
  induction l as [ | x l IH ]; [ left; reflexivity | ].
  destruct l as [ | y l ]; [ right; left; reflexivity | ].
  change (last (x :: y :: l) dflt) with (last (y :: l) dflt).
  destruct IH as [E | Hin]; [ left; exact E | right; right; exact Hin ].
Qed.

Lemma setup_oop_Ok (ff : OBForceFieldUFF) (b : nat) :
  bonds_in_range (_mol ff) = true ->
  atom_in_range (_mol ff) b = true ->
  exists r, setup_oop ff b = Ok r.
Proof.
  intros Hwf Hb. unfold setup_oop.
  destruct (atom_in_range_Ok _ _ Hb) as [tb Htb]. rewrite Htb. cbn [bind].
  destruct (negb (oop_whitelisted tb)); [ eexists; reflexivity | ].
  destruct (neighbors (_mol ff) b) as [ | a [ | c [ | d rest ] ] ] eqn:Hn;
    cbn [oop_neighbors]; try (eexists; reflexivity).
  destruct (HasGroups ff && negb _); [ eexists; reflexivity | ].
  assert (Hin : forall x, In x (a :: c :: d :: rest) -> atom_in_range (_mol ff) x = true)
    by (intros x Hx; apply (neighbors_in_range _ b); [ exact Hwf | rewrite Hn; exact Hx ]).
  destruct (oop_coefficients_Ok ff (GetType tb) a c (last rest d))
    as [[[[c0 c1] c2] koop] Hk].
  - apply Hin. left; reflexivity.
  - apply Hin. right; left; reflexivity.
  - apply Hin. right; right. apply last_In.
  - rewrite Hk. cbn [bind]. eexists; reflexivity.
Qed.

Lemma setup_vdw_Ok (ff : OBForceFieldUFF) (p : nat * nat) :
  types_known ff = true ->
  pair_in_range (_mol ff) p = true ->
  exists r, setup_vdw ff p = Ok r.
Proof.
  intros Hk Hr. unfold setup_vdw, pair_in_range in *.
  apply andb_prop in Hr. destruct Hr as [Ha Hb].
  rewrite !GetAtom_in_range by assumption. cbn [deref bind].
  destruct (HasGroups ff && negb _); [ eexists; reflexivity | ].
  destruct (IsConnected _ _ _); [ eexists; reflexivity | ].
  destruct (IsOneThree _ _ _); [ eexists; reflexivity | ].
  destruct (parameter_of_known ff _ Hk Ha) as [ta [pa [_ Hpa]]].
  destruct (parameter_of_known ff _ Hk Hb) as [tb [pb [_ Hpb]]].
  rewrite Hpa, Hpb. cbn [bind deref]. eexists; reflexivity.
Qed.

Lemma setup_electrostatic_Ok (ff : OBForceFieldUFF) (p : nat * nat) :
  pair_in_range (_mol ff) p = true ->
  exists r, setup_electrostatic ff p = Ok r.
Proof.
  intros Hr. unfold setup_electrostatic, pair_in_range in *.
  apply andb_prop in Hr. destruct Hr as [Ha Hb].
  rewrite !GetAtom_in_range by assumption. cbn [deref bind].
  destruct (HasGroups ff && negb _); [ eexists; reflexivity | ].
  destruct (IsConnected _ _ _); [ eexists; reflexivity | ].
  destruct (IsOneThree _ _ _); [ eexists; reflexivity | ].
  destruct (atom_in_range_Ok _ _ Ha) as [ta Hta].
  destruct (atom_in_range_Ok _ _ Hb) as [tb Htb].
  rewrite Hta, Htb. cbn [bind].
  destruct (Rneqb _ 0); eexists; reflexivity.
Qed.

(** X21.  On a molecule whose bonds, angles, torsions and pairs name atoms
    of the molecule (the atoms of an angle and the middle atoms of a torsion
    being bonded), with a table that has an entry for the type of every
    atom, [SetupCalculations] and [SetupElectrostatics] dereference no null
    pointer and return true. *)
Theorem setups_complete_on_well_formed_molecules
        (loc : torsion_locals) (ff : OBForceFieldUFF) :
  well_formed (_mol ff) = true ->
  types_known ff = true ->
  (exists ff', SetupCalculations loc ff = Ok (true, ff'))
  /\ (exists ff', SetupElectrostatics ff = Ok (true, ff')).
Proof.
  intros Hwf Hk. unfold well_formed in Hwf.
  apply andb_prop in Hwf; destruct Hwf as [Hwf Hpairs].
  apply andb_prop in Hwf; destruct Hwf as [Hwf Htorsions].
  apply andb_prop in Hwf; destruct Hwf as [Hbonds Hangles].
  rewrite forallb_forall in Hpairs, Hangles.
  split.
  - unfold SetupCalculations.
    destruct (for_each_Ok (setup_bond ff) (mol_bonds (_mol ff))) as [bl Hbl].
    { intros bd Hbd. pose proof Hbonds as Hb. unfold bonds_in_range in Hb.
      rewrite forallb_forall in Hb. specialize (Hb bd Hbd).
      apply andb_prop in Hb. destruct Hb as [H1 H2].
      apply setup_bond_Ok; assumption. }
    destruct (for_each_Ok (setup_angle ff) (mol_angles (_mol ff))) as [al Hal].
    { intros x Hx. apply setup_angle_Ok; [ exact Hk | apply Hangles; exact Hx ]. }
    destruct (setup_torsions_Ok ff (mol_torsions (_mol ff)) Hk Htorsions loc) as [tl Htl].
    destruct (for_each_Ok (setup_oop ff) (seq 1 (NumAtoms (_mol ff)))) as [ol Hol].
    { intros b Hb. apply in_seq in Hb. apply setup_oop_Ok; [ exact Hbonds | ].
      unfold atom_in_range. apply andb_true_intro.
      split; apply Nat.leb_le; lia. }
    destruct (for_each_Ok (setup_vdw ff) (mol_pairs (_mol ff))) as [vl Hvl].
    { intros x Hx. apply setup_vdw_Ok; [ exact Hk | apply Hpairs; exact Hx ]. }
    rewrite Hbl, Hal, Htl, Hol, Hvl. cbn [bind]. eexists; reflexivity.
  - unfold SetupElectrostatics.
    destruct (for_each_Ok (setup_electrostatic ff) (mol_pairs (_mol ff))) as [el Hel].
    { intros x Hx. apply setup_electrostatic_Ok. apply Hpairs; exact Hx. }
    rewrite Hel. cbn [bind]. eexists; reflexivity.
Qed.

(** ** Torsion records *)

Lemma setup_torsions_In (ff : OBForceFieldUFF) (ts : list (nat * nat * nat * nat)) :
  forall loc rs,
    setup_torsions ff loc ts = Ok rs ->
    forall i, In i rs ->
              exists loc1 t r loc2,
                In t ts /\ setup_torsion ff loc1 t = Ok (r, loc2) /\ In i r.
Proof.
  induction ts as [ | t ts IH ]; intros loc rs; cbn [setup_torsions].
  - intros H; injection H as <-. intros i [].
  - destruct (setup_torsion ff loc t) as [ [r loc'] | ] eqn:Ht; [ | discriminate ].
    cbn [bind].
    destruct (setup_torsions ff loc' ts) as [ rs' | ] eqn:Hts; [ | discriminate ].
    cbn [bind]. intros H; injection H as <-. intros i Hi.
    apply in_app_or in Hi. destruct Hi as [Hi | Hi].
    + exists loc, t, r, loc'. split; [ left; reflexivity | split; assumption ].
    + destruct (IH loc' rs' Hts i Hi) as [loc1 [t' [r' [loc2 [H1 H2]]]]].
      exists loc1, t', r', loc2. split; [ right; exact H1 | exact H2 ].
Qed.

(** What one pass of the torsion loop pushes. *)
Lemma setup_torsion_record (ff : OBForceFieldUFF) (loc loc' : torsion_locals)
      (t : nat * nat * nat * nat) (r : list TorsionCalc.t) (i : TorsionCalc.t) :
  setup_torsion ff loc t = Ok (r, loc') ->
  In i r ->
  (TorsionCalc.a i, TorsionCalc.b i, TorsionCalc.c i, TorsionCalc.d i)
  = (fst (fst (fst t)) + 1, snd (fst (fst t)) + 1, snd (fst t) + 1, snd t + 1)%nat
  /\ (exists bc, GetBond (_mol ff) (TorsionCalc.b i) (TorsionCalc.c i) = Some bc
                 /\ TorsionCalc.tt i = effective_bond_order bc)
  /\ TorsionCalc.V i = loc_V loc'
  /\ TorsionCalc.n i = loc_n loc'
  /\ TorsionCalc.cosNPhi0 i = cos (IZR (loc_n loc') * DEG_TO_RAD * loc_phi0 loc')
  /\ IsNearZero (TorsionCalc.V i) IsNearZero_default = false.
Proof.
  unfold setup_torsion. destruct t as [[[i0 i1] i2] i3].
  destruct (GetAtom (_mol ff) (i0 + 1)) as [ a | ] eqn:Ha; [ | discriminate ].
  destruct (GetAtom (_mol ff) (i1 + 1)) as [ b | ] eqn:Hb; [ | discriminate ].
  destruct (GetAtom (_mol ff) (i2 + 1)) as [ c | ] eqn:Hc; [ | discriminate ].
  destruct (GetAtom (_mol ff) (i3 + 1)) as [ d | ] eqn:Hd; [ | discriminate ].
  apply GetAtom_Some in Ha, Hb, Hc, Hd. subst a b c d.
  cbn [deref bind].
  destruct (HasGroups ff && negb _); [ intros H; injection H as <- _; intros [] | ].
  destruct (GetBond (_mol ff) (i1 + 1) (i2 + 1)) as [ bc | ] eqn:Hbc; [ | discriminate ].
  cbn [deref bind].
  destruct (parameter_of ff (i1 + 1)) as [ pB | ]; [ | discriminate ].
  destruct (parameter_of ff (i2 + 1)) as [ pC | ]; [ | discriminate ].
  cbn [bind].
  destruct (atom (_mol ff) (i1 + 1)) as [ tb | ]; [ | discriminate ].
  destruct (atom (_mol ff) (i2 + 1)) as [ tc | ]; [ | discriminate ].
  cbn [bind].
  destruct (torsion_table pB pC _ _ _ loc) as [ loc1 | ]; [ | discriminate ].
  cbn [bind].
  destruct (IsNearZero (loc_V loc1) IsNearZero_default) eqn:HV;
    intros H; injection H as <- <-; [ intros [] | ].
  intros [ <- | [] ]. cbn.
  split; [ reflexivity | ].
  split; [ exists bc; split; [ exact Hbc | reflexivity ] | ].
  repeat split; try reflexivity. exact HV.
Qed.

(** X22.  Every torsion record that [SetupCalculations] leaves is over the
    four atoms of one of the molecule's torsions, its [tt] is the (aromatic
    1.5, amide 1.41) order of the bond between the two middle atoms, and its
    barrier [V] is at least 2e-6 in absolute value: torsions with a
    negligible barrier get no record. *)
Theorem torsion_records (loc : torsion_locals) (ff ff' : OBForceFieldUFF) (r : bool)
        (i : TorsionCalc.t) :
  SetupCalculations loc ff = Ok (r, ff') ->
  In i (_torsioncalculations ff') ->
  (exists i0 i1 i2 i3,
      In (i0, i1, i2, i3) (mol_torsions (_mol ff))
      /\ (TorsionCalc.a i, TorsionCalc.b i, TorsionCalc.c i, TorsionCalc.d i)
         = (i0 + 1, i1 + 1, i2 + 1, i3 + 1)%nat)
  /\ (exists bc, GetBond (_mol ff) (TorsionCalc.b i) (TorsionCalc.c i) = Some bc
                 /\ TorsionCalc.tt i = effective_bond_order bc)
  /\ 0.000002 <= Rabs (TorsionCalc.V i).
Proof.
  intros Hsetup Hin.
  destruct (SetupCalculations_lists loc ff ff' r Hsetup) as [_ [_ [Ht _]]].
  destruct (setup_torsions_In ff _ loc _ Ht i Hin) as [loc1 [t [rx [loc2 [Hts [Hrx Hi]]]]]].
  destruct (setup_torsion_record ff loc1 loc2 t rx i Hrx Hi)
    as [Habcd [Hbc [_ [_ [_ HV]]]]].
  destruct t as [[[i0 i1] i2] i3]. cbn [fst snd] in Habcd.
  split; [ exists i0, i1, i2, i3; split; assumption | ].
  split; [ exact Hbc | ].
  unfold IsNearZero, IsNearZero_default in HV. apply Rltb_false in HV. exact HV.
Qed.

(** X23.  A torsion about a bond one of whose atoms has a coordination
    other than 2 and 3 matches no branch of the setup: the locals [n], [V]
    and [phi0] keep what the torsion before it left (or, for the first
    torsion, what the uninitialised locals hold), and the record pushed, if
    any, is built from those. *)
Theorem torsion_of_other_coordination_inherits
        (ff : OBForceFieldUFF) (loc loc' : torsion_locals) (t : nat * nat * nat * nat)
        (rx : list TorsionCalc.t) (pB pC : OBFFParameter) :
  setup_torsion ff loc t = Ok (rx, loc') ->
  parameter_of ff (snd (fst (fst t)) + 1) = Ok (Some pB) ->
  parameter_of ff (snd (fst t) + 1) = Ok (Some pC) ->
  ((ipar pB 0 <> 2 /\ ipar pB 0 <> 3) \/ (ipar pC 0 <> 2 /\ ipar pC 0 <> 3))%Z ->
  loc' = loc
  /\ (forall i, In i rx ->
                TorsionCalc.V i = loc_V loc
                /\ TorsionCalc.n i = loc_n loc
                /\ TorsionCalc.cosNPhi0 i
                   = cos (IZR (loc_n loc) * DEG_TO_RAD * loc_phi0 loc)).
Proof.
  intros Hsetup HpB HpC Hcoord.
  assert (Hloc : loc' = loc).
  { revert Hsetup. unfold setup_torsion. destruct t as [[[i0 i1] i2] i3].
    cbn [fst snd] in HpB, HpC.
    destruct (GetAtom (_mol ff) (i0 + 1)) as [ a | ] eqn:Ha; [ | discriminate ].
    destruct (GetAtom (_mol ff) (i1 + 1)) as [ b | ] eqn:Hb; [ | discriminate ].
    destruct (GetAtom (_mol ff) (i2 + 1)) as [ c | ] eqn:Hc; [ | discriminate ].
    destruct (GetAtom (_mol ff) (i3 + 1)) as [ d | ] eqn:Hd; [ | discriminate ].
    apply GetAtom_Some in Ha, Hb, Hc, Hd. subst a b c d.
    cbn [deref bind].
    destruct (HasGroups ff && negb _); [ intros H; injection H as _ <-; reflexivity | ].
    destruct (GetBond (_mol ff) (i1 + 1) (i2 + 1)) as [ bc | ]; [ | discriminate ].
    cbn [deref bind]. rewrite HpB, HpC. cbn [bind].
    destruct (atom (_mol ff) (i1 + 1)) as [ tb | ]; [ | discriminate ].
    destruct (atom (_mol ff) (i2 + 1)) as [ tc | ]; [ | discriminate ].
    cbn [bind].
    assert (Htable : torsion_table (Some pB) (Some pC) (GetAtomicNum tb) (GetAtomicNum tc)
                                   (effective_bond_order bc) loc = Ok loc).
    { unfold torsion_table, and_then, or_else, coordination_is. cbn [deref bind].
      destruct Hcoord as [[H2 H3] | [H2 H3]];
        apply Z.eqb_neq in H2, H3; rewrite H2, H3; cbn [bind];
        destruct (Z.eqb (ipar pB 0) 3), (Z.eqb (ipar pB 0) 2),
          (Z.eqb (ipar pC 0) 3), (Z.eqb (ipar pC 0) 2);
        cbn [bind]; try reflexivity; try discriminate. }
    rewrite Htable. cbn [bind].
    destruct (IsNearZero _ _); intros H; injection H as _ <-; reflexivity. }
  split; [ exact Hloc | ].
  intros i Hi.
  destruct (setup_torsion_record ff loc loc' t rx i Hsetup Hi) as [_ [_ [HV [Hn [Hc _]]]]].
  rewrite Hloc in HV, Hn, Hc. repeat split; assumption.
Qed.

(** * The further properties on concrete inputs *)

Lemma line_search_keeps_frozen_atoms_witness :
  nth 1 (GetPositions (snd (Newton2NumLineSearch (energy_slope 1) zero_gradient
                                                 first_atom_only two_atom_minimizer)))
      Vector3d.Zero
  = nth 1 (GetPositions two_atom_minimizer) Vector3d.Zero
  /\ nth 1 (GetPositions (snd (LineSearch (energy_slope 1) zero_gradient
                                          first_atom_only two_atom_minimizer)))
         Vector3d.Zero
     = nth 1 (GetPositions two_atom_minimizer) Vector3d.Zero.
Proof.
  exact (line_search_keeps_frozen_atoms (energy_slope 1) zero_gradient
           first_atom_only two_atom_minimizer 1 eq_refl).
Defined.

Lemma TakeNSteps_step_accounting_witness :
  (cstep (d (snd (SteepestDescentTakeNSteps (energy_slope 1) zero_gradient 0 3
                                            (one_atom_minimizer 0)))) <= 100)%Z
  /\ (cstep (d (snd (ConjugateGradientsTakeNSteps (energy_slope 1) zero_gradient true 0 3
                                                  (FiniteVec unit_x) (one_atom_minimizer 0)))) <= 100)%Z.
Proof.
  pose proof (TakeNSteps_step_accounting (energy_slope 1) zero_gradient true 0 3 (FiniteVec unit_x)
                (one_atom_minimizer 0)) as H.
  cbv zeta in H. destruct H as [[_ [_ H1]] [_ [_ H2]]].
  split; [ apply H1 | apply H2 ]; reflexivity.
Defined.

Lemma optimizers_keep_function_current_witness :
  e_n1 (d (snd (SteepestDescentTakeNSteps (energy_slope 1) zero_gradient 0 1
                  (SteepestDescentInitialize (energy_slope 1) zero_gradient 100 0
                                             (one_atom_minimizer 0)))))
  = energy_slope 1
      (GetPositions (snd (SteepestDescentTakeNSteps (energy_slope 1) zero_gradient 0 1
                            (SteepestDescentInitialize (energy_slope 1) zero_gradient
                                                       100 0 (one_atom_minimizer 0))))).
Proof.
  pose proof (optimizers_keep_function_current (energy_slope 1) zero_gradient true 0
                100 0 1 (FiniteVec unit_x) (one_atom_minimizer 0)) as H.
  cbv zeta in H. destruct H as [[_ [_ H]] _].
  apply H. apply SteepestDescent_one_step. discriminate.
Defined.

Lemma optimizers_never_raise_energy_witness :
  energy_slope 1 (GetPositions (SteepestDescent (energy_slope 1) zero_gradient 0
                                                100 0.000001 (one_atom_minimizer 0)))
  <= energy_slope 1 (GetPositions (one_atom_minimizer 0))
  /\ energy_slope 1 (GetPositions (ConjugateGradients (energy_slope 1) zero_gradient true 0
                                                      100 0.000001 (FiniteVec unit_x)
                                                      (one_atom_minimizer 0)))
     <= energy_slope 1 (GetPositions (one_atom_minimizer 0)).
Proof.
  exact (optimizers_never_raise_energy (energy_slope 1) zero_gradient true 0
           100 0.000001 (FiniteVec unit_x) (one_atom_minimizer 0) eq_refl).
Defined.

Lemma SteepestDescent_stops_at_stationary_point_witness :
  fst (SteepestDescentTakeNSteps flat_energy zero_gradient 0 3
         (SteepestDescentInitialize flat_energy zero_gradient 100 0.000001
                                    two_atom_minimizer)) = false
  /\ GetPositions (snd (SteepestDescentTakeNSteps flat_energy zero_gradient 0 3
                          (SteepestDescentInitialize flat_energy zero_gradient 100 0.000001
                                                     two_atom_minimizer)))
     = GetPositions two_atom_minimizer
  /\ cstep (d (snd (SteepestDescentTakeNSteps flat_energy zero_gradient 0 3
                      (SteepestDescentInitialize flat_energy zero_gradient 100 0.000001
                                                 two_atom_minimizer)))) = 1%Z.
Proof.
  apply (SteepestDescent_stops_at_stationary_point flat_energy zero_gradient 0
           100 0.000001 2 two_atom_minimizer).
  - lra.
  - repeat constructor.
Defined.

Lemma distance_terms_dE_is_derivative_witness :
  derivable_pt_lim (bond_energy sample_bond) 4 (bond_dE sample_bond 4)
  /\ derivable_pt_lim (vdw_energy sample_vdw) 4 (vdw_dE sample_vdw 4)
  /\ derivable_pt_lim (electrostatic_energy sample_ele) 4 (electrostatic_dE sample_ele 4).
Proof.
  apply (distance_terms_dE_is_derivative sample_bond sample_vdw sample_ele 4).
  - lra.
  - cbn. lra.
Defined.

Lemma angle_special_forms_witness :
  0 <= angle_energy linear_angle 1 <= 2 * AngleCalc.ka linear_angle
  /\ angle_energy linear_angle 0 = 2 * AngleCalc.ka linear_angle
  /\ angle_energy linear_angle (180 * DEG_TO_RAD) = 0.
Proof.
  destruct (angle_special_forms linear_angle 1) as [H1 [H2 [H3 _]]].
  - cbn. lra.
  - left. reflexivity.
  - split; [ exact H1 | split; [ exact H2 | apply H3; reflexivity ] ].
Defined.

Lemma sin_sp3_nonzero : sin (109.47 * DEG_TO_RAD) <> 0.
Proof.
  assert (H : 0 < sin (109.47 * DEG_TO_RAD)).
  { pose proof PI_RGT_0 as Hpi.
    apply sin_gt_0; unfold DEG_TO_RAD; lra. }
  lra.
Qed.

Lemma butane_setup_angle :
  exists i,
    setup_angle (fresh_forcefield mol_butane) (1, 0, 2)%nat = Ok [i]
    /\ AngleCalc.coord i = 3%Z
    /\ AngleCalc.theta0 i = 109.47.
Proof.
  eexists. unfold setup_angle.
  cbn -[cos sin sqrt ln pow Rmult Rdiv Rplus Rminus Ropp IZR].
  repeat split; reflexivity.
Qed.

Lemma angle_general_form_witness :
  exists i,
    setup_angle (fresh_forcefield mol_butane) (1, 0, 2)%nat = Ok [i]
    /\ angle_energy i (AngleCalc.theta0 i * DEG_TO_RAD) = 0
    /\ angle_dE i (AngleCalc.theta0 i * DEG_TO_RAD) = 0.
Proof.
  destruct butane_setup_angle as [i [H [Hcoord Htheta]]].
  exists i. split; [ exact H | ].
  destruct (angle_general_form (fresh_forcefield mol_butane) (1, 0, 2)%nat i 0 H)
    as [_ HE].
  - rewrite Hcoord. repeat split; discriminate.
  - rewrite Htheta. exact sin_sp3_nonzero.
  - exact HE.
Defined.

Lemma vdw_well_witness :
  - VDWCalc.kab sample_vdw <= vdw_energy sample_vdw 4
  /\ vdw_energy sample_vdw (VDWCalc.ka sample_vdw) = - VDWCalc.kab sample_vdw
  /\ vdw_dE sample_vdw (VDWCalc.ka sample_vdw) = 0.
Proof.
  apply (vdw_well sample_vdw 4); cbn; lra.
Defined.

Lemma Energy_gradient_of_unlisted_atom_witness :
  nth 4 (snd (Energy distance_only distance_only degenerate_angle
                     degenerate_angle_derivative degenerate_dihedral_derivative
                     degenerate_dihedral degenerate_dihedral_derivative 1 2 4 8 16
                     true forcefield_with_records)) Vector3d.Zero
  = Vector3d.Zero.
Proof.
  apply (Energy_gradient_of_unlisted_atom distance_only distance_only degenerate_angle
           degenerate_angle_derivative degenerate_dihedral_derivative
           degenerate_dihedral degenerate_dihedral_derivative 1 2 4 8 16
           forcefield_with_records 4);
    repeat constructor; cbn; discriminate.
Defined.

(** A phosphorus center with three hydrogens, and formaldehyde. *)
Lemma oop_record_forms_witness :
  (exists records,
      setup_oop (fresh_forcefield mol_phosphine) 1 = Ok records
      /\ List.length records = 3%nat
      /\ forall i, In i records ->
                   OOPCalc.koop i = 22.0 * KCAL_TO_KJ / 3.0
                   /\ oop_dE i (84.4339 * DEG_TO_RAD) = 0
                   /\ oop_energy i (84.4339 * DEG_TO_RAD) <> 0)
  /\ (exists records,
         setup_oop (fresh_forcefield mol_formaldehyde) 1 = Ok records
         /\ List.length records = 3%nat
         /\ forall i, In i records -> oop_energy i 0 = 0).
Proof.
  split.
  - eexists. split; [ reflexivity | ]. split; [ reflexivity | ].
    intros i Hi.
    destruct (oop_record_forms (fresh_forcefield mol_phosphine) 1
                (mkAtom 15 "P_3+3" 0) _ i 0 eq_refl eq_refl Hi)
      as [_ [_ [_ H]]].
    destruct (H eq_refl) as [_ [Hk [_ [Hd [_ [_ Hnz]]]]]].
    split; [ exact Hk | ]. split; [ exact Hd | exact Hnz ].
  - eexists. split; [ reflexivity | ]. split; [ reflexivity | ].
    intros i Hi.
    destruct (oop_record_forms (fresh_forcefield mol_formaldehyde) 1
                (mkAtom 6 "C_2" 0) _ i 0 eq_refl eq_refl Hi)
      as [_ [_ [H _]]].
    apply (H eq_refl).
Defined.

Lemma vdw_list_is_the_filtered_pairs_witness :
  exists ff',
    SetupCalculations torsion_locals0 (fresh_forcefield mol_butane) = Ok (true, ff')
    /\ map (fun v => (VDWCalc.a v, VDWCalc.b v)) (_vdwcalculations ff')
       = filter (fun p => negb (IsConnected mol_butane (fst p) (snd p))
                          && negb (IsOneThree mol_butane (fst p) (snd p)))
                (mol_pairs mol_butane).
Proof.
  destruct butane_SetupCalculations as [bl [al [tl [ol [vl [H _]]]]]].
  eexists. split; [ exact H | ].
  exact (vdw_list_is_the_filtered_pairs torsion_locals0 (fresh_forcefield mol_butane)
           _ true eq_refl H).
Defined.

Lemma electrostatic_records_are_charged_witness :
  exists ff' e ta tb,
    SetupElectrostatics (fresh_forcefield mol_butane) = Ok (true, ff')
    /\ In e (_electrostaticcalculations ff')
    /\ atom mol_butane (EleCalc.a e) = Ok ta
    /\ atom mol_butane (EleCalc.b e) = Ok tb
    /\ GetPartialCharge ta <> 0
    /\ GetPartialCharge tb <> 0.
Proof.
  destruct (butane_SetupElectrostatics [] [] [] [] []) as [el [H Hel]].
  destruct el as [ | e [ | e' el ] ]; try discriminate Hel.
  assert (Hin : In e (_electrostaticcalculations
                        (set_electrostaticcalculations [e]
                           (set_calculations [] [] [] [] []
                                             (fresh_forcefield mol_butane)))))
    by (left; reflexivity).
  destruct (electrostatic_records_are_charged _ _ true e H Hin)
    as [ta [tb [Ha [Hb [_ [Hqa Hqb]]]]]].
  exists (set_electrostaticcalculations [e]
            (set_calculations [] [] [] [] [] (fresh_forcefield mol_butane))), e, ta, tb.
  repeat split; assumption.
Defined.

Lemma setups_complete_on_well_formed_molecules_witness :
  (exists ff', SetupCalculations torsion_locals0 (fresh_forcefield mol_butane)
               = Ok (true, ff'))
  /\ (exists ff', SetupElectrostatics (fresh_forcefield mol_butane) = Ok (true, ff')).
Proof.
  exact (setups_complete_on_well_formed_molecules torsion_locals0
           (fresh_forcefield mol_butane) eq_refl eq_refl).
Defined.

Lemma butane_torsion_list :
  exists ff' i,
    SetupCalculations torsion_locals0 (fresh_forcefield mol_butane) = Ok (true, ff')
    /\ In i (_torsioncalculations ff').
Proof.
  do 2 eexists. unfold SetupCalculations, setup_torsions, setup_torsion.
  cbn -[IsNearZero cos sin sqrt ln pow Rmult Rdiv Rplus Rminus Ropp IZR].
  rewrite butane_V_not_near_zero.
  cbn -[IsNearZero cos sin sqrt ln pow Rmult Rdiv Rplus Rminus Ropp IZR].
  split; [ reflexivity | left; reflexivity ].
Qed.

Lemma torsion_records_witness :
  exists ff' i,
    SetupCalculations torsion_locals0 (fresh_forcefield mol_butane) = Ok (true, ff')
    /\ In i (_torsioncalculations ff')
    /\ 0.000002 <= Rabs (TorsionCalc.V i).
Proof.
  destruct butane_torsion_list as [ff' [i [H Hin]]].
  exists ff', i. split; [ exact H | split; [ exact Hin | ] ].
  exact (proj2 (proj2 (torsion_records torsion_locals0 (fresh_forcefield mol_butane)
                                       ff' true i H Hin))).
Defined.

Lemma torsion_of_other_coordination_inherits_witness :
  exists rx loc',
    setup_torsion (fresh_forcefield mol_hydrogen_bridge) locals_after_sp3_sp3
                  (0, 1, 2, 3)%nat = Ok (rx, loc')
    /\ loc' = locals_after_sp3_sp3
    /\ (forall i, In i rx ->
                  TorsionCalc.V i = 1 /\ TorsionCalc.n i = 3%Z
                  /\ TorsionCalc.cosNPhi0 i = cos (IZR 3 * DEG_TO_RAD * 60)).
Proof.
  destruct (setup_torsion_Ok (fresh_forcefield mol_hydrogen_bridge) locals_after_sp3_sp3
              (0, 1, 2, 3)%nat eq_refl eq_refl) as [[rx loc'] H].
  exists rx, loc'. split; [ exact H | ].
  apply (torsion_of_other_coordination_inherits
           (fresh_forcefield mol_hydrogen_bridge) locals_after_sp3_sp3 loc'
           (0, 1, 2, 3)%nat rx param_H_ param_C_3 H eq_refl eq_refl).
  left. split; discriminate.
Defined.

(** * Bond records *)

Lemma CalculateBondDistance_sym (i j : OBFFParameter) (bondorder : R) :
  CalculateBondDistance i j bondorder = CalculateBondDistance j i bondorder.
Proof.
  unfold CalculateBondDistance. cbv zeta.
  replace (dpar j 8 * dpar j 0 + dpar i 8 * dpar i 0)
    with (dpar i 8 * dpar i 0 + dpar j 8 * dpar j 0) by ring.
  replace (dpar j 0 * dpar i 0 * (sqrt (dpar j 8) - sqrt (dpar i 8)) ^ 2)
    with (dpar i 0 * dpar j 0 * (sqrt (dpar i 8) - sqrt (dpar j 8)) ^ 2) by ring.
  replace (dpar j 0 + dpar i 0) with (dpar i 0 + dpar j 0) by ring.
  reflexivity.
Qed.

Lemma setup_bond_record (ff : OBForceFieldUFF) (bond : OBBond) (rx : list BondCalc.t)
      (i : BondCalc.t) :
  setup_bond ff bond = Ok rx ->
  In i rx ->
  exists pA pB,
    parameter_of ff (GetBeginAtom bond) = Ok (Some pA)
    /\ parameter_of ff (GetEndAtom bond) = Ok (Some pB)
    /\ i = BondCalc.mk (GetBeginAtom bond) (GetEndAtom bond) (effective_bond_order bond)
             (CalculateBondDistance pA pB (effective_bond_order bond))
             ((0.5 * KCAL_TO_KJ * 664.12 * dpar pA 5 * dpar pB 5)
              / (CalculateBondDistance pA pB (effective_bond_order bond)
                 * CalculateBondDistance pA pB (effective_bond_order bond)
                 * CalculateBondDistance pA pB (effective_bond_order bond))).
Proof.
  unfold setup_bond.
  destruct (HasGroups ff && negb _); [ intros H; injection H as <-; intros [] | ].
  destruct (parameter_of ff (GetBeginAtom bond)) as [ pa | ]; [ | discriminate ].
  destruct (parameter_of ff (GetEndAtom bond)) as [ pb | ]; [ | discriminate ].
  cbn [bind].
  destruct pa as [ pA | ]; [ | discriminate ].
  destruct pb as [ pB | ]; [ | discriminate ].
  cbn [deref bind].
  intros H; injection H as <-. intros [ <- | [] ].
  exists pA, pB. repeat split; reflexivity.
Qed.

(** X24.  Every bond record left by [SetupCalculations] belongs to one of
    the molecule's bonds: [bt] is the order of the bond (1.5 if aromatic,
    1.41 if amide, amide winning over aromatic), [r0] is
    [CalculateBondDistance] of the two atoms' parameters, which does not
    depend on the direction of the bond and is twice [r1] for a single bond
    between two atoms of one type, and [kb r0^3] is
    [0.5 KCAL_TO_KJ 664.12 Z1_a Z1_b] when [r0] is not zero. *)
Theorem bond_records (loc : torsion_locals) (ff ff' : OBForceFieldUFF) (r : bool)
        (i : BondCalc.t) :
  SetupCalculations loc ff = Ok (r, ff') ->
  In i (_bondcalculations ff') ->
  exists bond pA pB,
    In bond (mol_bonds (_mol ff))
    /\ parameter_of ff (BondCalc.a i) = Ok (Some pA)
    /\ parameter_of ff (BondCalc.b i) = Ok (Some pB)
    /\ (BondCalc.a i, BondCalc.b i) = (GetBeginAtom bond, GetEndAtom bond)
    /\ BondCalc.bt i
       = (if IsAmide bond then 1.41
          else if IsAromatic bond then 1.5 else INR (GetBondOrder bond))
    /\ BondCalc.r0 i = CalculateBondDistance pA pB (BondCalc.bt i)
    /\ BondCalc.r0 i = CalculateBondDistance pB pA (BondCalc.bt i)
    /\ (pA = pB -> BondCalc.bt i = 1 -> BondCalc.r0 i = 2 * dpar pA 0)
    /\ (BondCalc.r0 i <> 0 ->
        BondCalc.kb i * BondCalc.r0 i ^ 3
        = 0.5 * KCAL_TO_KJ * 664.12 * dpar pA 5 * dpar pB 5).
Proof.
  intros Hsetup Hin.
  destruct (SetupCalculations_lists loc ff ff' r Hsetup) as [Hb _].
  destruct (for_each_In _ _ _ Hb i Hin) as [bond [rx [Hbond [Hrx Hi]]]].
  destruct (setup_bond_record ff bond rx i Hrx Hi) as [pA [pB [HpA [HpB ->]]]].
  exists bond, pA, pB. cbn [BondCalc.a BondCalc.b BondCalc.bt BondCalc.r0 BondCalc.kb].
  split; [ exact Hbond | ]. split; [ exact HpA | ]. split; [ exact HpB | ].
  split; [ reflexivity | ].
  split; [ unfold effective_bond_order; destruct (IsAmide bond), (IsAromatic bond);
           reflexivity | ].
  split; [ reflexivity | ].
  split; [ apply CalculateBondDistance_sym | ].
  split.
  - intros -> ->. unfold CalculateBondDistance. cbv zeta. rewrite ln_1.
    replace (sqrt (dpar pB 8) - sqrt (dpar pB 8)) with 0 by ring.
    unfold Rdiv. ring.
  - intros Hr0. field. exact Hr0.
Qed.

(** * The parameter file and the atom types *)

Lemma coordination_of_char_range (c : ascii) : (1 <= coordination_of_char c <= 7)%Z.
Proof.
  unfold coordination_of_char.
  repeat match goal with
         | |- context [if ?b then _ else _] => destruct b
         end; lia.
Qed.

Section ParamFileFacts.

Variable tokenize : string -> list string.
Variable atof : string -> R.

Lemma parse_param_line_entry (buffer : string) (rx : list OBFFParameter)
      (p : OBFFParameter) :
  parse_param_line tokenize atof buffer = Ok rx ->
  In p rx ->
  rx = [p]
  /\ (13 <= List.length (tokenize buffer))%nat
  /\ EQn buffer "param" 5 = true
  /\ _a p = nth 1 (tokenize buffer) EmptyString
  /\ _dpar p = map (fun k => atof (nth k (tokenize buffer) EmptyString)) (seq 2 11)
  /\ exists c, third_char (_a p) = Ok c /\ _ipar p = [coordination_of_char c].
Proof.
  unfold parse_param_line. cbv zeta.
  destruct (List.length (tokenize buffer) <? 13)%nat eqn:Hlen;
    [ intros H; injection H as <-; intros [] | ].
  destruct (EQn buffer "param" 5); [ | intros H; injection H as <-; intros [] ].
  destruct (third_char (nth 1 (tokenize buffer) EmptyString)) as [ c | ] eqn:Hc;
    [ | discriminate ].
  cbn [bind]. intros H; injection H as <-. intros [ <- | [] ].
  apply Nat.ltb_ge in Hlen.
  repeat split; try reflexivity; try assumption.
  exists c. split; [ exact Hc | reflexivity ].
Qed.

(** X25.  [ParseParamFile] returns false whether or not UFF.prm could be
    opened (it ends with [return 0]).  It appends to the table: the entries
    already there stay in front, so that a lookup that succeeded before
    gives the same entry after, and parsing the file a second time changes
    no lookup.  Every entry appended comes from a line of at least 13
    tokens that begins with "param", and has eleven reals and one
    coordination number between 1 and 7. *)
Theorem ParseParamFile_appends
        (file : option (list string)) (ff ff' : OBForceFieldUFF) (r : bool) :
  ParseParamFile tokenize atof file ff = Ok (r, ff') ->
  r = false
  /\ (exists entries,
         _ffparams ff' = _ffparams ff ++ entries
         /\ (file = None -> entries = [])
         /\ Forall (fun p => List.length (_dpar p) = 11%nat
                             /\ exists c, _ipar p = [c] /\ (1 <= c <= 7)%Z)
                   entries)
  /\ (forall a, GetParameterUFF a (_ffparams ff) <> None ->
                GetParameterUFF a (_ffparams ff') = GetParameterUFF a (_ffparams ff))
  /\ (forall r2 ff2,
         ParseParamFile tokenize atof file ff' = Ok (r2, ff2) ->
         forall a, GetParameterUFF a (_ffparams ff2) = GetParameterUFF a (_ffparams ff')).
Proof.
  unfold ParseParamFile. destruct file as [ lines | ].
  - destruct (for_each (parse_param_line tokenize atof) lines) as [ entries | ] eqn:He;
      [ | discriminate ].
    cbn [bind]. intros H; injection H as <- <-. cbn [_ffparams set_ffparams].
    split; [ reflexivity | ]. split; [ | split ].
    + exists entries. split; [ reflexivity | ]. split; [ discriminate | ].
      apply Forall_forall. intros p Hp.
      destruct (for_each_In _ _ _ He p Hp) as [buffer [rx [_ [Hrx Hin]]]].
      destruct (parse_param_line_entry buffer rx p Hrx Hin)
        as [_ [_ [_ [_ [Hd [c [_ Hi]]]]]]].
      split.
      * rewrite Hd, length_map, length_seq. reflexivity.
      * exists (coordination_of_char c). split; [ exact Hi | ].
        apply coordination_of_char_range.
    + intros a Ha. rewrite GetParameterUFF_app.
      destruct (GetParameterUFF a (_ffparams ff)); [ reflexivity | congruence ].
    + intros r2 ff2 H; injection H as _ <-.
      intros a. cbn [_ffparams set_ffparams].
      rewrite (GetParameterUFF_app a (_ffparams ff ++ entries) entries).
      destruct (GetParameterUFF a (_ffparams ff ++ entries)) eqn:E; [ reflexivity | ].
      rewrite GetParameterUFF_app in E.
      destruct (GetParameterUFF a (_ffparams ff)); [ discriminate | exact E ].
  - intros H; injection H as <- <-.
    split; [ reflexivity | ]. split; [ | split ].
    + exists []. split; [ symmetry; apply app_nil_r | ].
      split; [ reflexivity | constructor ].
    + reflexivity.
    + intros r2 ff2 H; injection H as _ <-. reflexivity.
Qed.

End ParamFileFacts.


Lemma nth_error_set_nth {A : Type} (v : A) (l : list A) :
  forall i k,
    (i < List.length l)%nat ->
    nth_error (set_nth i v l) k = if Nat.eqb i k then Some v else nth_error l k.
Proof.
  induction l as [ | a l IH ]; intros [ | i ] [ | k ] H; cbn in *; try lia;
    try reflexivity.
  apply IH. lia.
Qed.

Lemma map_set_nth_same {A B : Type} (f : A -> B) (v old : A) (l : list A) :
  forall i, nth_error l i = Some old -> f v = f old ->
            map f (set_nth i v l) = map f l.
Proof.
  induction l as [ | a l IH ]; intros [ | i ] H E; cbn in *; try discriminate.
  - injection H as ->. rewrite E. reflexivity.
  - rewrite (IH i H E). reflexivity.
Qed.

Lemma same_skeleton_refl (mol : OBMol) : same_skeleton mol mol.
Proof. repeat split. Qed.

Lemma same_skeleton_trans (m1 m2 m3 : OBMol) :
  same_skeleton m1 m2 -> same_skeleton m2 m3 -> same_skeleton m1 m3.
Proof.
  intros [A1 [A2 [A3 [A4 [A5 A6]]]]] [B1 [B2 [B3 [B4 [B5 B6]]]]].
  repeat split; congruence.
Qed.

Lemma SetType_SetType (ty ty' : string) (t : OBAtom) :
  SetType ty' (SetType ty t) = SetType ty' t.
Proof. reflexivity. Qed.

Lemma set_atom_type_spec (ty : string) (mol mol' : OBMol) (j : list nat) :
  set_atom_type ty mol j = Ok mol' ->
  same_skeleton mol mol'
  /\ (forall a t, atom mol a = Ok t ->
                  atom mol' a = Ok (if typed_by [j] a then SetType ty t else t)).
Proof.
  unfold set_atom_type. destruct j as [ | first j ]; [ discriminate | ].
  cbn [nth_error deref bind].
  destruct (GetAtom mol first) as [ a0 | ] eqn:Ha0; [ | discriminate ].
  pose proof (GetAtom_Some _ _ _ Ha0) as ->.
  cbn [deref bind].
  destruct (atom mol first) as [ atm | ] eqn:Hatm; [ | discriminate ].
  cbn [bind]. intros H; injection H as <-.
  unfold atom in Hatm. destruct first as [ | i ]; [ discriminate | ].
  destruct (nth_error (mol_atoms mol) i) as [ old | ] eqn:Hi; [ | discriminate ].
  injection Hatm as <-.
  replace (S i - 1)%nat with i by lia.
  split.
  - unfold same_skeleton. cbn.
    rewrite (map_set_nth_same GetAtomicNum (SetType ty old) old _ i Hi eq_refl).
    rewrite (map_set_nth_same GetPartialCharge (SetType ty old) old _ i Hi eq_refl).
    repeat split.
  - intros a t. unfold atom, typed_by. cbn [existsb mol_atoms orb].
    destruct a as [ | k ]; [ discriminate | ].
    rewrite nth_error_set_nth
      by (apply nth_error_Some; rewrite Hi; discriminate).
    rewrite orb_false_r. cbn [Nat.eqb].
    destruct (Nat.eqb i k) eqn:E.
    + apply Nat.eqb_eq in E. subst k. rewrite Hi. cbn.
      intros H; injection H as <-. reflexivity.
    + intros H; exact H.
Qed.

Lemma set_atom_types_spec (ty : string) (mlist : list (list nat)) :
  forall mol mol',
    set_atom_types ty mol mlist = Ok mol' ->
    same_skeleton mol mol'
    /\ (forall a t, atom mol a = Ok t ->
                    atom mol' a = Ok (if typed_by mlist a then SetType ty t else t)).
Proof.
  induction mlist as [ | j mlist IH ]; intros mol mol'; cbn [set_atom_types].
  - intros H; injection H as <-. split; [ apply same_skeleton_refl | ].
    intros a t Ht. exact Ht.
  - destruct (set_atom_type ty mol j) as [ mol1 | ] eqn:H1; [ | discriminate ].
    cbn [bind]. intros H2.
    destruct (set_atom_type_spec ty mol mol1 j H1) as [S1 T1].
    destruct (IH mol1 mol' H2) as [S2 T2].
    split; [ exact (same_skeleton_trans _ _ _ S1 S2) | ].
    intros a t Ht. rewrite (T2 a _ (T1 a t Ht)).
    unfold typed_by in *. cbn [existsb] in *.
    rewrite orb_false_r.
    destruct (match j with first :: _ => Nat.eqb first a | [] => false end),
      (existsb _ mlist); reflexivity.
Qed.

Lemma find_pointwise {A : Type} (f g : A -> bool) (l : list A) :
  (forall x, f x = g x) -> find f l = find g l.
Proof.
  intros H. induction l as [ | x l IH ]; [ reflexivity | ].
  cbn [find]. rewrite H, IH. reflexivity.
Qed.

Lemma find_app {A : Type} (f : A -> bool) (l1 l2 : list A) :
  find f (l1 ++ l2) = match find f l1 with
                      | Some x => Some x
                      | None => find f l2
                      end.
Proof.
  induction l1 as [ | x l1 IH ]; [ reflexivity | ].
  cbn [app find]. destruct (f x); [ reflexivity | exact IH ].
Qed.

Section AtomTypingFacts.

Variable tokenize : string -> list string.
Variable OBSmartsPattern : Type.
Variable Init : string -> option OBSmartsPattern.
Variable Match : OBSmartsPattern -> OBMol -> list (list nat).

(** The matcher reads elements and bonds, not the force-field types. *)
Hypothesis Match_skeleton :
  forall sp mol mol', same_skeleton mol mol' -> Match sp mol' = Match sp mol.

Lemma apply_type_rules_spec (rules : list (OBSmartsPattern * string)) :
  forall mol mol',
    apply_type_rules Match rules mol = Ok mol' ->
    same_skeleton mol mol'
    /\ (forall a t,
           atom mol a = Ok t ->
           atom mol' a
           = Ok (match find (fun rule => typed_by (Match (fst rule) mol) a) (rev rules) with
                 | Some rule => SetType (snd rule) t
                 | None => t
                 end)).
Proof.
  induction rules as [ | [sp ty] rules IH ]; intros mol mol'; cbn [apply_type_rules].
  - intros H; injection H as <-. split; [ apply same_skeleton_refl | ].
    intros a t Ht. exact Ht.
  - destruct (set_atom_types ty mol (Match sp mol)) as [ mol1 | ] eqn:H1;
      [ | discriminate ].
    cbn [bind]. intros H2.
    destruct (set_atom_types_spec ty _ mol mol1 H1) as [S1 T1].
    destruct (IH mol1 mol' H2) as [S2 T2].
    split; [ exact (same_skeleton_trans _ _ _ S1 S2) | ].
    intros a t Ht. rewrite (T2 a _ (T1 a t Ht)).
    cbn [rev]. rewrite find_app. cbn [find fst snd].
    assert (E : find (fun rule => typed_by (Match (fst rule) mol1) a) (rev rules)
                = find (fun rule => typed_by (Match (fst rule) mol) a) (rev rules)).
    { apply find_pointwise. intros rule. rewrite (Match_skeleton _ mol mol1 S1). reflexivity. }
    rewrite E. clear E.
    destruct (find (fun rule => typed_by (Match (fst rule) mol) a) (rev rules))
      as [ rule | ].
    + destruct (typed_by (Match sp mol) a); reflexivity.
    + destruct (typed_by (Match sp mol) a); reflexivity.
Qed.

(** X26.  [SetTypes] changes nothing but atom types.  When it returns
    false (UFF.prm could not be opened, or the pattern of an "atom" line did
    not parse) no type has been set.  When it returns true, every atom has
    the type of the last "atom" line of the file whose pattern has a map
    that begins at the atom, and its former type when there is no such
    line. *)
Theorem SetTypes_last_rule_wins (file : option (list string)) (mol mol' : OBMol)
        (r : bool) :
  SetTypes tokenize Init Match file mol = Ok (r, mol') ->
  same_skeleton mol mol'
  /\ (r = false -> mol' = mol)
  /\ (r = true ->
      exists lines rules,
        file = Some lines
        /\ read_type_rules tokenize Init lines = Ok (Some rules)
        /\ (forall a t,
               atom mol a = Ok t ->
               atom mol' a
               = Ok (match find (fun rule => typed_by (Match (fst rule) mol) a)
                                (rev rules) with
                     | Some rule => SetType (snd rule) t
                     | None => t
                     end))).
Proof.
  unfold SetTypes. destruct file as [ lines | ].
  - destruct (read_type_rules tokenize Init lines) as [ [ rules | ] | ] eqn:Hr;
      [ | | discriminate ]; cbn [bind].
    + destruct (apply_type_rules Match rules mol) as [ mol1 | ] eqn:Ha; [ | discriminate ].
      cbn [bind]. intros H; injection H as <- <-.
      destruct (apply_type_rules_spec rules mol mol1 Ha) as [S1 T1].
      split; [ exact S1 | ]. split; [ discriminate | ].
      intros _. exists lines, rules. repeat split; [ exact Hr | exact T1 ].
    + intros H; injection H as <- <-.
      split; [ apply same_skeleton_refl | ]. split; [ reflexivity | discriminate ].
  - intros H; injection H as <- <-.
    split; [ apply same_skeleton_refl | ]. split; [ reflexivity | discriminate ].
Qed.

End AtomTypingFacts.

(** * The host side of the OpenCL electrostatic term *)


Lemma InitSelfPairs_body_spec (mol : OBMol) (term : MMFF94ElectroTermOpenCL)
      (ij : nat * nat) :
  InitSelfPairs_body mol term ij
  = mkElectroTerm (m_selfPairs term ++ filter (self_kind mol) [ij])
                  (m_oneFourPairs term ++ filter (one_four_kind mol) [ij]).
Proof.
  destruct ij as [i j]. unfold InitSelfPairs_body, one_four_kind, self_kind.
  cbn [filter fst snd].
  destruct (Nat.eqb i j); cbn [orb negb andb]; [ rewrite app_nil_r; reflexivity | ].
  destruct (IsConnected mol (i + 1) (j + 1)); cbn [orb negb andb];
    [ rewrite app_nil_r; reflexivity | ].
  destruct (IsOneThree mol (i + 1) (j + 1)); cbn [orb negb andb];
    [ rewrite app_nil_r; reflexivity | ].
  destruct (IsOneFour mol (i + 1) (j + 1)); [ rewrite app_nil_r; reflexivity | ].
  rewrite !app_nil_r. destruct term; reflexivity.
Qed.

Lemma InitSelfPairs_fold (mol : OBMol) (pairs : list (nat * nat)) :
  forall term,
    fold_left (InitSelfPairs_body mol) pairs term
    = mkElectroTerm (m_selfPairs term ++ filter (self_kind mol) pairs)
                    (m_oneFourPairs term ++ filter (one_four_kind mol) pairs).
Proof.
  induction pairs as [ | ij pairs IH ]; intros term; cbn [fold_left].
  - cbn [filter]. rewrite !app_nil_r. destruct term; reflexivity.
  - rewrite IH, InitSelfPairs_body_spec. cbn [m_selfPairs m_oneFourPairs].
    rewrite <- !app_assoc.
    change (ij :: pairs) with ([ij] ++ pairs). rewrite !filter_app. reflexivity.
Qed.

Lemma In_index_pairs (n i j : nat) : In (i, j) (index_pairs n) <-> (i < n /\ j < n)%nat.
Proof.
  unfold index_pairs. rewrite in_flat_map. split.
  - intros [i' [Hi Hj]]. apply in_map_iff in Hj. destruct Hj as [j' [E Hj]].
    injection E as -> ->. apply in_seq in Hi, Hj. lia.
  - intros [Hi Hj]. exists i. split; [ apply in_seq; lia | ].
    apply in_map_iff. exists j. split; [ reflexivity | apply in_seq; lia ].
Qed.

(** X27.  [InitSelfPairs] appends to the two lists without clearing them
    (a second call files every pair a second time).  What it appends to
    [m_selfPairs] are the pairs [(i, j)] of atom indices, in the order of
    the double loop, with [i = j] or the atoms bonded or 1-3; to
    [m_oneFourPairs], the other pairs whose atoms are 1-4.  So every
    [(i, i)] is a self pair, a pair is filed with its mirror image, under at
    most one of the two lists, and all indices are below the number of
    atoms. *)
Theorem InitSelfPairs_lists (mol : OBMol) (term : MMFF94ElectroTermOpenCL) :
  let n := NumAtoms mol in
  let fresh := InitSelfPairs mol (mkElectroTerm [] []) in
  m_selfPairs (InitSelfPairs mol term) = m_selfPairs term ++ m_selfPairs fresh
  /\ m_oneFourPairs (InitSelfPairs mol term) = m_oneFourPairs term ++ m_oneFourPairs fresh
  /\ m_selfPairs fresh = filter (self_kind mol) (index_pairs n)
  /\ m_oneFourPairs fresh = filter (one_four_kind mol) (index_pairs n)
  /\ (forall i, (i < n)%nat -> In (i, i) (m_selfPairs fresh))
  /\ (forall i j, In (i, j) (m_selfPairs fresh) -> In (j, i) (m_selfPairs fresh))
  /\ (forall ij, In ij (m_selfPairs fresh) -> ~ In ij (m_oneFourPairs fresh))
  /\ (forall i j, In (i, j) (m_selfPairs fresh ++ m_oneFourPairs fresh) ->
                  (i < n /\ j < n)%nat).
Proof.
  cbv zeta. unfold InitSelfPairs. rewrite !InitSelfPairs_fold.
  cbn [m_selfPairs m_oneFourPairs app].
  split; [ reflexivity | ]. split; [ reflexivity | ].
  split; [ reflexivity | ]. split; [ reflexivity | ].
  split; [ | split; [ | split ] ].
  - intros i Hi. apply filter_In. split; [ apply In_index_pairs; lia | ].
    unfold self_kind. cbn [fst snd]. rewrite Nat.eqb_refl. reflexivity.
  - intros i j Hij. apply filter_In in Hij. destruct Hij as [Hin Hk].
    apply filter_In. split; [ apply In_index_pairs; apply In_index_pairs in Hin; lia | ].
    unfold self_kind in *. cbn [fst snd] in *.
    rewrite (Nat.eqb_sym j i), (IsConnected_sym mol (j + 1)), (IsOneThree_sym mol (j + 1)).
    exact Hk.
  - intros ij H1 H2. apply filter_In in H1, H2.
    destruct H1 as [_ H1], H2 as [_ H2]. unfold one_four_kind in H2.
    rewrite H1 in H2. discriminate H2.
  - intros i j Hij. apply in_app_or in Hij.
    destruct Hij as [Hij | Hij]; apply filter_In in Hij; apply In_index_pairs, Hij.
Qed.

Lemma at_in_range {A : Type} (v : list A) (i : nat) :
  (i < List.length v)%nat -> exists a, at_ v i = Returns a.
Proof.
  intros H. unfold at_. destruct (nth_error v i) as [ a | ] eqn:E.
  - exists a; reflexivity.
  - apply nth_error_None in E. lia.
Qed.

Lemma total_set_nth (F : Vec) (v : list Vec) :
  forall i g,
    nth_error v i = Some g ->
    total (set_nth i (Vector3d.add g F) v) = Vector3d.add (total v) F.
Proof.
  induction v as [ | a v IH ]; intros [ | i ] g H; cbn in H; try discriminate.
  - injection H as ->. cbn. apply vec_eq; cbn; lra.
  - cbn [set_nth total fold_right]. fold (total (set_nth i (Vector3d.add g F) v)).
    rewrite (IH i g H). fold (total v). apply vec_eq; cbn; lra.
Qed.

Lemma add_at_in_range (i : nat) (F : Vec) (v : list Vec) :
  (i < List.length v)%nat ->
  exists v', add_at i F v = Returns v'
             /\ List.length v' = List.length v
             /\ total v' = Vector3d.add (total v) F.
Proof.
  intros H. unfold add_at. destruct (nth_error v i) as [ g | ] eqn:E.
  - eexists. split; [ reflexivity | ]. split; [ apply length_set_nth | ].
    apply total_set_nth. exact E.
  - apply nth_error_None in E. lia.
Qed.

(** A pass over one pair whose indices are in range returns, and what it
    adds to one gradient it takes from the other. *)
Lemma pair_gradient_balanced (charges : list R) (positions : list Vec)
      (acc : R * list Vec) (i j : nat) :
  (i < List.length positions)%nat -> (j < List.length positions)%nat ->
  (i < List.length charges)%nat -> (j < List.length charges)%nat ->
  (i < List.length (snd acc))%nat -> (j < List.length (snd acc))%nat ->
  (exists acc', self_pair_gradient charges positions acc (i, j) = Returns acc'
                /\ List.length (snd acc') = List.length (snd acc)
                /\ total (snd acc') = total (snd acc))
  /\ (exists acc', one_four_pair_gradient charges positions acc (i, j) = Returns acc'
                   /\ List.length (snd acc') = List.length (snd acc)
                   /\ total (snd acc') = total (snd acc)).
Proof.
  intros Hpi Hpj Hci Hcj Hgi Hgj.
  destruct (at_in_range positions i Hpi) as [ai Hai].
  destruct (at_in_range positions j Hpj) as [aj Haj].
  destruct (at_in_range charges i Hci) as [qi Hqi].
  destruct (at_in_range charges j Hcj) as [qj Hqj].
  assert (Hbalance : forall F : Vec -> Vec -> R -> R -> R,
             exists g2,
               and_also (add_at i (Vector3d.scale (Vector3d.sub ai aj) (F ai aj qi qj))
                                (snd acc))
                        (fun g1 =>
                           and_also (add_at j (Vector3d.scale (Vector3d.sub ai aj)
                                                              (- F ai aj qi qj)) g1)
                                    (fun g2 => Returns g2))
               = Returns g2
               /\ List.length g2 = List.length (snd acc)
               /\ total g2 = total (snd acc)).
  { intros F.
    destruct (add_at_in_range i (Vector3d.scale (Vector3d.sub ai aj) (F ai aj qi qj))
                              (snd acc) Hgi) as [g1 [H1 [L1 T1]]].
    rewrite H1. cbn [and_also].
    destruct (add_at_in_range j (Vector3d.scale (Vector3d.sub ai aj) (- F ai aj qi qj))
                              g1) as [g2 [H2 [L2 T2]]]; [ rewrite L1; exact Hgj | ].
    rewrite H2. cbn [and_also]. exists g2.
    split; [ reflexivity | ]. split; [ congruence | ].
    rewrite T2, T1. apply vec_eq; cbn; lra. }
  split.
  - unfold self_pair_gradient. rewrite Hai, Haj, Hqi, Hqj. cbn [and_also]. cbv zeta.
    destruct (Hbalance (fun ai aj qi qj =>
                          332.0716 * (qi * qj)
                          / ((Vector3d.norm (Vector3d.sub ai aj) + 0.05)
                             * (Vector3d.norm (Vector3d.sub ai aj) + 0.05)
                             * (Vector3d.norm (Vector3d.sub ai aj) + 0.05))))
      as [g2 [H [L T]]].
    cbv beta in H.
    destruct (add_at i _ (snd acc)) as [ g1 | | ]; try discriminate H.
    cbn [and_also] in *.
    destruct (add_at j _ g1) as [ g2' | | ]; try discriminate H.
    cbn [and_also] in *. injection H as ->.
    eexists. split; [ reflexivity | ]. cbn [snd]. split; assumption.
  - unfold one_four_pair_gradient. rewrite Hai, Haj, Hqi, Hqj. cbn [and_also]. cbv zeta.
    destruct (Hbalance (fun ai aj qi qj =>
                          - 0.25 * 332.0716 * (qi * qj)
                          / ((Vector3d.norm (Vector3d.sub ai aj) + 0.05)
                             * (Vector3d.norm (Vector3d.sub ai aj) + 0.05))))
      as [g2 [H [L T]]].
    cbv beta in H.
    destruct (add_at i _ (snd acc)) as [ g1 | | ]; try discriminate H.
    cbn [and_also] in *.
    destruct (add_at j _ g1) as [ g2' | | ]; try discriminate H.
    cbn [and_also] in *. injection H as ->.
    eexists. split; [ reflexivity | ]. cbn [snd]. split; assumption.
Qed.

Lemma loop_pairs_balanced
      (body : R * list Vec -> nat * nat -> outcome (R * list Vec)) (n : nat)
      (pairs : list (nat * nat)) :
  (forall acc i j,
      (i < n)%nat -> (j < n)%nat -> List.length (snd acc) = n ->
      exists acc', body acc (i, j) = Returns acc'
                   /\ List.length (snd acc') = List.length (snd acc)
                   /\ total (snd acc') = total (snd acc)) ->
  (forall i j, In (i, j) pairs -> (i < n /\ j < n)%nat) ->
  forall acc,
    List.length (snd acc) = n ->
    exists acc', loop_pairs body pairs acc = Returns acc'
                 /\ List.length (snd acc') = n
                 /\ total (snd acc') = total (snd acc).
Proof.
  intros Hbody. induction pairs as [ | [i j] pairs IH ]; intros Hin acc Hlen;
    cbn [loop_pairs].
  - exists acc. repeat split; assumption.
  - destruct (Hin i j (or_introl eq_refl)) as [Hi Hj].
    destruct (Hbody acc i j Hi Hj Hlen) as [acc1 [H1 [L1 T1]]].
    rewrite H1. cbn [and_also].
    destruct (IH (fun i' j' H => Hin i' j' (or_intror H)) acc1) as [acc' [H' [L' T']]];
      [ congruence | ].
    exists acc'. split; [ exact H' | ]. split; [ exact L' | congruence ].
Qed.

(** X28.  With charge, position and gradient arrays as long as the
    molecule has atoms, [ComputeSelfGradients] over the pairs that
    [InitSelfPairs] filed returns: no [at()] throws and no gradient is
    indexed past the end.  The gradient array keeps its length and the sum
    of its vectors: what a pair adds to the gradient of one atom it takes
    from the gradient of the other. *)
Theorem ComputeSelfGradients_balanced
        (mol : OBMol) (charges : list R) (positions gradients : list Vec) :
  List.length charges = NumAtoms mol ->
  List.length positions = NumAtoms mol ->
  List.length gradients = NumAtoms mol ->
  exists E g,
    ComputeSelfGradients (InitSelfPairs mol (mkElectroTerm [] [])) charges positions
                         gradients = Returns (E, g)
    /\ List.length g = List.length gradients
    /\ total g = total gradients.
Proof.
  intros Hc Hp Hg. unfold ComputeSelfGradients.
  destruct (InitSelfPairs_lists mol (mkElectroTerm [] []))
    as [_ [_ [_ [_ [_ [_ [_ Hrange]]]]]]].
  cbv zeta in Hrange.
  set (term := InitSelfPairs mol (mkElectroTerm [] [])) in *.
  destruct (loop_pairs_balanced (self_pair_gradient charges positions) (NumAtoms mol)
              (m_selfPairs term)) with (acc := (0.0, gradients))
    as [acc1 [H1 [L1 T1]]].
  - intros acc i j Hi Hj Hlen.
    apply pair_gradient_balanced; lia.
  - intros i j Hin. apply Hrange. apply in_or_app. left; exact Hin.
  - exact Hg.
  - rewrite H1. cbn [and_also].
    destruct (loop_pairs_balanced (one_four_pair_gradient charges positions)
                (NumAtoms mol) (m_oneFourPairs term)) with (acc := acc1)
      as [[E g] [H2 [L2 T2]]].
    + intros acc i j Hi Hj Hlen.
      apply pair_gradient_balanced; lia.
    + intros i j Hin. apply Hrange. apply in_or_app. right; exact Hin.
    + exact L1.
    + exists E, g. split; [ exact H2 | ]. cbn [snd] in *.
      split; [ congruence | congruence ].
Qed.

(** * The step length of the simple line search *)

Lemma LineSearch_move_length (step : R) (dir : list Vec) :
  forall cur, List.length (LineSearch_move cur dir step) = List.length cur.
Proof.
  induction dir as [ | dc dir IH ]; intros cur; [ destruct cur; reflexivity | ].
  destruct cur as [ | cc cur ]; [ reflexivity | ].
  cbn [LineSearch_move List.length]. rewrite IH. reflexivity.
Qed.

Section LineSearchLength.

Variable energy : list Vec -> R.
Variable gradient : list Vec -> list Vec.

Lemma LineSearch_loop_alpha (dir : list Vec) (len : nat) (n : nat) :
  forall e1 step alpha f,
    0 <= step <= 1 ->
    List.length (m_positions f) = len ->
    let r := LineSearch_loop energy gradient n dir e1 step alpha f in
    alpha <= fst r <= alpha + INR n
    /\ List.length (m_positions (snd r)) = len.
Proof.
  induction n as [ | n IH ]; intros e1 step alpha f Hstep Hlen.
  - cbn. split; [ lra | exact Hlen ].
  - cbv zeta. rewrite S_INR. cbn [LineSearch_loop].
    pose proof (pos_INR n) as Hn.
    assert (Hmove : List.length (LineSearch_move (m_positions f) dir step) = len)
      by (rewrite LineSearch_move_length; exact Hlen).
    destruct (IsNear _ e1 0.001).
    { cbn [fst snd]. split; [ lra | exact Hmove ]. }
    destruct (Rgtb _ e1).
    { destruct (IH e1 (step * 0.1) alpha
                   (SetPositions (m_positions f)
                      (Compute energy gradient Value
                         (SetPositions (LineSearch_move (m_positions f) dir step) f))))
        as [Ha Hl]; [ nra | exact Hlen | ].
      split; [ lra | exact Hl ]. }
    destruct (Rltb _ e1).
    { assert (Hnext : 0 <= (if Rgtb (step * 2.15) 1.0 then 1.0 else step * 2.15) <= 1).
      { unfold Rgtb. destruct (Rltb 1.0 (step * 2.15)) eqn:Hc.
        - lra.
        - apply Rltb_false in Hc. lra. }
      destruct (IH (m_value (Compute energy gradient Value
                               (SetPositions (LineSearch_move (m_positions f) dir step) f)))
                   (if Rgtb (step * 2.15) 1.0 then 1.0 else step * 2.15)
                   (alpha + step)
                   (Compute energy gradient Value
                      (SetPositions (LineSearch_move (m_positions f) dir step) f)))
        as [Ha Hl]; [ exact Hnext | exact Hmove | ].
      split; [ lra | exact Hl ]. }
    destruct (IH e1 step alpha
                 (Compute energy gradient Value
                    (SetPositions (LineSearch_move (m_positions f) dir step) f)))
      as [Ha Hl]; [ exact Hstep | exact Hmove | ].
    split; [ lra | exact Hl ].
Qed.

(** X29.  [LineSearch] returns a step length between 0 and 10 (at most
    ten trial steps, none longer than 1), and leaves as many positions as
    there were and the minimizer's private data as they were. *)
Theorem LineSearch_step_length (direction : list Vec) (m : OBMinimize) :
  let r := LineSearch energy gradient direction m in
  0 <= fst r <= 10
  /\ List.length (GetPositions (snd r)) = List.length (GetPositions m)
  /\ d (snd r) = d m.
Proof.
  cbv zeta. unfold LineSearch.
  pose proof (LineSearch_loop_alpha direction (List.length (GetPositions m)) 10
                (m_value (Compute energy gradient Value (m_function m))) 0.2 0.0
                (Compute energy gradient Value (m_function m))) as H.
  cbv zeta in H.
  destruct (LineSearch_loop energy gradient 10 direction _ 0.2 0.0 _) as [alpha f].
  cbn [fst snd] in *.
  destruct H as [Ha Hl]; [ lra | reflexivity | ].
  replace (INR 10) with 10 in Ha by (simpl; lra).
  split; [ lra | ]. split; [ exact Hl | reflexivity ].
Qed.

End LineSearchLength.

(** * The properties of the file readers and of the OpenCL term on concrete inputs *)

Lemma butane_bond_list :
  exists ff' i,
    SetupCalculations torsion_locals0 (fresh_forcefield mol_butane) = Ok (true, ff')
    /\ In i (_bondcalculations ff').
Proof.
  do 2 eexists. unfold SetupCalculations, setup_torsions, setup_torsion.
  cbn -[IsNearZero cos sin sqrt ln pow Rmult Rdiv Rplus Rminus Ropp IZR].
  rewrite butane_V_not_near_zero.
  cbn -[IsNearZero cos sin sqrt ln pow Rmult Rdiv Rplus Rminus Ropp IZR].
  split; [ reflexivity | left; reflexivity ].
Qed.

Lemma bond_records_witness :
  exists ff' i bond pA pB,
    SetupCalculations torsion_locals0 (fresh_forcefield mol_butane) = Ok (true, ff')
    /\ In i (_bondcalculations ff')
    /\ In bond (mol_bonds mol_butane)
    /\ (BondCalc.a i, BondCalc.b i) = (GetBeginAtom bond, GetEndAtom bond)
    /\ BondCalc.r0 i = CalculateBondDistance pA pB (BondCalc.bt i)
    /\ BondCalc.r0 i = CalculateBondDistance pB pA (BondCalc.bt i).
Proof.
  destruct butane_bond_list as [ff' [i [H Hin]]].
  destruct (bond_records torsion_locals0 (fresh_forcefield mol_butane) ff' true i H Hin)
    as [bond [pA [pB [Hb [_ [_ [Hab [_ [Hr0 [Hr0' _]]]]]]]]]].
  exists ff', i, bond, pA, pB. repeat split; assumption.
Defined.

Lemma ParseParamFile_sample :
  exists ff',
    ParseParamFile sample_tokenize sample_atof (Some sample_file)
                   (fresh_forcefield mol_butane) = Ok (false, ff').
Proof. eexists. cbn. reflexivity. Qed.

Lemma ParseParamFile_appends_witness :
  exists ff',
    ParseParamFile sample_tokenize sample_atof (Some sample_file)
                   (fresh_forcefield mol_butane) = Ok (false, ff')
    /\ (forall a, GetParameterUFF a uff_table <> None ->
                  GetParameterUFF a (_ffparams ff') = GetParameterUFF a uff_table).
Proof.
  destruct ParseParamFile_sample as [ff' H].
  exists ff'. split; [ exact H | ].
  destruct (ParseParamFile_appends sample_tokenize sample_atof (Some sample_file)
              (fresh_forcefield mol_butane) ff' false H) as [_ [_ [Hkeep _]]].
  exact Hkeep.
Defined.

Lemma match_element_skeleton (element : nat) (mol mol' : OBMol) :
  same_skeleton mol mol' -> match_element element mol' = match_element element mol.
Proof. intros [H _]. unfold match_element. rewrite H. reflexivity. Qed.

Lemma SetTypes_sample :
  exists mol',
    SetTypes sample_tokenize element_pattern match_element (Some sample_file)
             mol_untyped_methyl = Ok (true, mol')
    /\ map GetType (mol_atoms mol') = ["C_3"; "H_"; "O"]%string.
Proof. eexists. cbn. split; reflexivity. Qed.

Lemma SetTypes_last_rule_wins_witness :
  exists mol',
    SetTypes sample_tokenize element_pattern match_element (Some sample_file)
             mol_untyped_methyl = Ok (true, mol')
    /\ same_skeleton mol_untyped_methyl mol'.
Proof.
  destruct SetTypes_sample as [mol' [H _]].
  exists mol'. split; [ exact H | ].
  exact (proj1 (SetTypes_last_rule_wins sample_tokenize nat element_pattern match_element
                  match_element_skeleton (Some sample_file) mol_untyped_methyl mol'
                  true H)).
Defined.

Lemma ComputeSelfGradients_balanced_witness :
  exists E g,
    ComputeSelfGradients (InitSelfPairs mol_butane (mkElectroTerm [] []))
                         butane_charges butane_positions butane_gradients
    = Returns (E, g)
    /\ List.length g = List.length butane_gradients
    /\ total g = total butane_gradients.
Proof.
  exact (ComputeSelfGradients_balanced mol_butane butane_charges butane_positions
           butane_gradients eq_refl eq_refl eq_refl).
Defined.

(** * Conjugate gradients without analytical gradients *)

Lemma CG_direction_loop_ignores_gradients (c N : Z) (idxs : list nat) :
  forall gradients gradients' grad2 stored,
    CG_direction_loop false idxs c N gradients grad2 stored
    = CG_direction_loop false idxs c N gradients' grad2 stored.
Proof.
  induction idxs as [ | idx idxs IH ]; intros gradients gradients' grad2 stored;
    cbn [CG_direction_loop]; [ reflexivity | ].
  apply IH.
Qed.

Lemma CG_direction_loop_reset (c N : Z) (gradients : list Vec) (grad2 : Direction)
      (idxs : list nat) :
  (to_size_t c mod N)%Z = 0%Z ->
  forall stored idx,
    (idx < List.length stored)%nat ->
    nth idx (snd (CG_direction_loop false idxs c N gradients grad2 stored))
        (FiniteVec Vector3d.Zero)
    = if in_dec Nat.eq_dec idx idxs then grad2
      else nth idx stored (FiniteVec Vector3d.Zero).
Proof.
  intros Hmod.
  assert (Hatom : forall stored_idx, CG_atom_direction c N grad2 stored_idx = grad2).
  { intros s. unfold CG_atom_direction. rewrite Hmod. reflexivity. }
  induction idxs as [ | i idxs IH ]; intros stored idx Hlen; cbn [CG_direction_loop].
  - reflexivity.
  - rewrite Hatom. rewrite IH by (rewrite length_set_nth; exact Hlen).
    destruct (in_dec Nat.eq_dec idx idxs) as [ Hin | Hout ].
    + destruct (in_dec Nat.eq_dec idx (i :: idxs)) as [ _ | Hout' ]; [ reflexivity | ].
      exfalso. apply Hout'. right. exact Hin.
    + destruct (Nat.eq_dec i idx) as [ -> | Hne ].
      * destruct (in_dec Nat.eq_dec idx (idx :: idxs)) as [ _ | Hout' ];
          [ | exfalso; apply Hout'; left; reflexivity ].
        apply nth_set_nth_eq. exact Hlen.
      * rewrite nth_set_nth_neq by exact Hne.
        destruct (in_dec Nat.eq_dec idx (i :: idxs)) as [ [ E | Hin ] | _ ];
          [ congruence | contradiction | reflexivity ].
Qed.

(** X30.  For a function without analytical gradients the branch that
    would compute numerical gradients is commented out: the search
    direction of a conjugate-gradient step does not depend on the gradient
    array of the function, and in a step where the direction is reset
    ([cstep % size == 0]) every atom gets one and the same vector, the
    contents of the local [grad2], which no statement has assigned. *)
Theorem CG_direction_without_analytical_gradients (c : Z) (grad2 : Direction) (m : OBMinimize) :
  (forall gradients',
      CG_direction false c grad2
                   (mkMinimize (mkFunction (GetPositions m) gradients'
                                           (m_value (m_function m))) (d m))
      = CG_direction false c grad2 m)
  /\ ((to_size_t c mod Z.of_nat (List.length (GetPositions m)))%Z = 0%Z ->
      forall idx,
        (idx < List.length (GetPositions m))%nat ->
        (idx < List.length (grad1 (d m)))%nat ->
        nth idx (snd (CG_direction false c grad2 m)) (FiniteVec Vector3d.Zero) = grad2).
Proof.
  split.
  - intros gradients'. unfold CG_direction.
    cbn [GetPositions GetGradients m_function m_positions m_gradients d].
    apply CG_direction_loop_ignores_gradients.
  - intros Hmod idx Hidx Hlen. unfold CG_direction.
    rewrite (CG_direction_loop_reset _ _ _ _ _ Hmod _ idx)
      by (rewrite length_map; exact Hlen).
    destruct (in_dec Nat.eq_dec idx (seq 0 (List.length (GetPositions m))))
      as [ _ | Hout ]; [ reflexivity | ].
    exfalso. apply Hout. apply in_seq. lia.
Qed.

(** * The direction of a conjugate-gradient step *)

Lemma ddiv_Finite (u v : R) : v <> 0 -> ddiv (Finite u) (Finite v) = Finite (u / v).
Proof.
  intros Hv. unfold ddiv, Rneqb. destruct (Req_dec_T v 0); [ contradiction | reflexivity ].
Qed.

Lemma ddiv_by_zero (u v : R) : v = 0 -> ddiv (Finite u) (Finite v) = NonFinite.
Proof.
  intros Hv. unfold ddiv, Rneqb. destruct (Req_dec_T v 0); [ reflexivity | contradiction ].
Qed.

Lemma CG_atom_direction_update (c N : Z) (g s : Vec) :
  (to_size_t c mod N)%Z <> 0%Z ->
  Vector3d.dot s s <> 0 ->
  CG_atom_direction c N (FiniteVec g) (FiniteVec s)
  = FiniteVec (Vector3d.add g (Vector3d.scale s (Vector3d.dot g g / Vector3d.dot s s))).
Proof.
  intros Hmod Hs. unfold CG_atom_direction.
  apply Z.eqb_neq in Hmod. rewrite Hmod. cbn [negb].
  rewrite ddiv_Finite by exact Hs. reflexivity.
Qed.

Lemma CG_atom_direction_zero_stored (c N : Z) (g s : Vec) :
  (to_size_t c mod N)%Z <> 0%Z ->
  Vector3d.dot s s = 0 ->
  CG_atom_direction c N (FiniteVec g) (FiniteVec s) = NonFiniteVec.
Proof.
  intros Hmod Hs. unfold CG_atom_direction.
  apply Z.eqb_neq in Hmod. rewrite Hmod. cbn [negb].
  rewrite ddiv_by_zero by exact Hs. reflexivity.
Qed.

Lemma CG_atom_direction_reset (c N : Z) (g s : Direction) :
  (to_size_t c mod N)%Z = 0%Z ->
  CG_atom_direction c N g s = g.
Proof.
  intros Hmod. unfold CG_atom_direction.
  apply Z.eqb_eq in Hmod. rewrite Hmod. reflexivity.
Qed.

(** The direction of one atom in the step that starts in [m]. *)
Lemma ConjugateGradients_step_direction_nth
      (hasGradients : bool) (grad2 : Direction) (m : OBMinimize) (idx : nat) :
  (idx < List.length (GetPositions m))%nat ->
  List.length (grad1 (d m)) = List.length (GetPositions m) ->
  nth idx (ConjugateGradients_step_direction hasGradients grad2 m)
      (FiniteVec Vector3d.Zero)
  = CG_atom_direction (cstep (d m) + 1) (Z.of_nat (List.length (GetPositions m)))
      (if hasGradients then FiniteVec (nth idx (GetGradients m) Vector3d.Zero)
       else if Nat.eqb idx 0 then grad2
            else nth (idx - 1) (ConjugateGradients_step_direction hasGradients grad2 m)
                     (FiniteVec Vector3d.Zero))
      (FiniteVec (nth idx (grad1 (d m)) Vector3d.Zero)).
Proof.
  intros Hidx Hlen.
  unfold ConjugateGradients_step_direction, CG_direction.
  unfold GetPositions, GetGradients, set_cstep in *.
  cbn [d cstep grad1 m_function].
  rewrite CG_direction_loop_seq; [ | rewrite length_map; lia | lia ].
  rewrite (map_nth FiniteVec). reflexivity.
Qed.

Lemma LineSearchTakeStep_length (step : R) (dir : list Vec) :
  forall orig P, List.length (LineSearchTakeStep orig dir step P) = List.length P.
Proof.
  induction dir as [ | dc dir IH ]; intros orig P;
    [ destruct orig, P; reflexivity | ].
  destruct orig as [ | oc orig ]; [ destruct P; reflexivity | ].
  destruct P as [ | p P ]; [ reflexivity | ].
  cbn [LineSearchTakeStep List.length]. rewrite IH. reflexivity.
Qed.

Section ConjugateGradientSteps.

Variable energy : list Vec -> R.
Variable gradient : list Vec -> list Vec.
Variable Newton2Num : Z.

Lemma Newton2Num_loop_length (orig dir : list Vec) (max_scl : R) (k : nat) :
  forall step opt_step opt_e f,
    List.length (m_positions (snd (Newton2Num_loop energy gradient k orig dir max_scl
                                                   step opt_step opt_e f)))
    = List.length (m_positions f).
Proof.
  induction k as [ | k IH ]; intros step opt_step opt_e f; cbn [Newton2Num_loop].
  - cbn. apply LineSearchTakeStep_length.
  - destruct (Rneqb _ 0.0); [ rewrite IH | ]; cbn;
      rewrite !LineSearchTakeStep_length; reflexivity.
Qed.

Lemma LineSearch_loop_length (dir : list Vec) (n : nat) :
  forall e1 step alpha f,
    List.length (m_positions (snd (LineSearch_loop energy gradient n dir e1 step alpha f)))
    = List.length (m_positions f).
Proof.
  induction n as [ | n IH ]; intros e1 step alpha f; cbn [LineSearch_loop].
  - reflexivity.
  - destruct (IsNear _ e1 0.001); [ cbn; apply LineSearch_move_length | ].
    destruct (Rgtb _ e1); [ rewrite IH; reflexivity | ].
    destruct (Rltb _ e1); rewrite IH; cbn; apply LineSearch_move_length.
Qed.

Lemma perform_linesearch_length (dir : list Vec) (m : OBMinimize) :
  List.length (GetPositions (snd (perform_linesearch energy gradient Newton2Num dir m)))
  = List.length (GetPositions m).
Proof.
  unfold perform_linesearch, GetPositions.
  destruct (Z.eqb (linesearch (d m)) Newton2Num).
  - unfold Newton2NumLineSearch.
    pose proof (Newton2Num_loop_length (GetPositions m) dir
                  (5.0 / Newton2Num_scale dir) 4 (0.025 / Newton2Num_scale dir)
                  0.0 (e_n1 (d m)) (m_function m)) as H.
    destruct (Newton2Num_loop energy gradient 4 _ dir _ _ 0.0 _ _)
      as [[opt_step opt_e] f1].
    cbn [snd] in H.
    destruct (Rneqb opt_step 0.0); cbn; rewrite !LineSearchTakeStep_length; exact H.
  - unfold LineSearch.
    pose proof (LineSearch_loop_length dir 10
                  (m_value (Compute energy gradient Value (m_function m))) 0.2 0.0
                  (Compute energy gradient Value (m_function m))) as H.
    destruct (LineSearch_loop energy gradient 10 dir _ 0.2 0.0 _) as [alpha f].
    exact H.
Qed.

(** Either line search leaves an atom with a zero direction where it is. *)
Lemma perform_linesearch_frozen (dir : list Vec) (m : OBMinimize) (c : nat) :
  nth c dir Vector3d.Zero = Vector3d.Zero ->
  nth c (GetPositions (snd (perform_linesearch energy gradient Newton2Num dir m)))
      Vector3d.Zero
  = nth c (GetPositions m) Vector3d.Zero.
Proof.
  intros Hd. unfold perform_linesearch.
  destruct (Z.eqb (linesearch (d m)) Newton2Num).
  - unfold Newton2NumLineSearch.
    set (scale := Newton2Num_scale dir).
    pose proof (Newton2Num_loop_positions energy gradient (GetPositions m) dir
                  (5.0 / scale) 4 (0.025 / scale) 0.0 (e_n1 (d m)) (m_function m)) as Hp.
    destruct (Newton2Num_loop energy gradient 4 (GetPositions m) dir (5.0 / scale)
                (0.025 / scale) 0.0 (e_n1 (d m)) (m_function m))
      as [[opt_step opt_e] f1].
    cbn [snd] in Hp.
    destruct Hp as [s Hs].
    { exists 0. unfold stepped. rewrite TakeStep_zero. reflexivity. }
    assert (Hany : forall o P, nth c P Vector3d.Zero = nth c (GetPositions m) Vector3d.Zero ->
                               nth c (LineSearchTakeStep (GetPositions m) dir o P)
                                   Vector3d.Zero
                               = nth c (GetPositions m) Vector3d.Zero)
      by (intros o P HP; apply nth_TakeStep_frozen; assumption).
    assert (Hf1 : nth c (m_positions f1) Vector3d.Zero
                  = nth c (GetPositions m) Vector3d.Zero)
      by (rewrite Hs; unfold stepped; apply Hany; reflexivity).
    destruct (Rneqb opt_step 0.0);
      cbn [snd GetPositions m_function SetPositions m_positions TakeStepAndCompute Compute];
      fold (GetPositions m); apply Hany; [ exact Hf1 | apply Hany; exact Hf1 ].
  - unfold LineSearch.
    pose proof (LineSearch_loop_frozen energy gradient dir c
                  (nth c (GetPositions m) Vector3d.Zero)
                  10 Hd (m_value (Compute energy gradient Value (m_function m))) 0.2 0.0
                  (Compute energy gradient Value (m_function m)) eq_refl) as H.
    destruct (LineSearch_loop energy gradient 10 dir _ 0.2 0.0 _) as [alpha f].
    exact H.
Qed.

(** The state a step returns with: the positions are those of the line
    search along the direction array, the gradient array is that of these
    positions, [d->grad1] is the gradient array the step started from, and
    the step is counted. *)
Lemma ConjugateGradients_step_state
      (hasGradients : bool) (grad2 : Direction) (m : OBMinimize) :
  let dir := map finite_direction (ConjugateGradients_step_direction hasGradients grad2 m) in
  let m2 := set_grad1 dir (set_cstep (cstep (d m) + 1) m) in
  let m3 := snd (perform_linesearch energy gradient Newton2Num dir m2) in
  let r := ConjugateGradients_step energy gradient hasGradients Newton2Num grad2 m in
  GetPositions (snd r) = GetPositions m3
  /\ GetGradients (snd r) = gradient (GetPositions m3)
  /\ grad1 (d (snd r)) = GetGradients m
  /\ cstep (d (snd r)) = (cstep (d m) + 1)%Z.
Proof.
  cbv zeta. rewrite ConjugateGradients_step_unfold. cbv zeta.
  unfold ConjugateGradients_step_direction.
  set (m1 := set_cstep (cstep (d m) + 1) m).
  set (dir := CG_direction hasGradients (cstep (d m1)) grad2 m1).
  set (m2 := set_grad1 (map finite_direction (snd dir)) m1).
  change (grad1 (d m2)) with (map finite_direction (snd dir)).
  destruct (perform_linesearch_gradients energy gradient Newton2Num
              (map finite_direction (snd dir)) m2) as [Hg Hd].
  set (m3 := snd (perform_linesearch energy gradient Newton2Num
                                     (map finite_direction (snd dir)) m2)) in *.
  assert (Hc : cstep (d m3) = (cstep (d m) + 1)%Z) by (rewrite Hd; reflexivity).
  destruct (IsNear _ _ _); [ | destruct (Z.eqb _ _) ];
    cbn [snd set_e_n1 set_function set_grad1 GetPositions GetGradients m_function d
         Compute m_positions m_gradients grad1 cstep];
    fold (GetPositions m3); fold (GetGradients m3);
    (split; [ reflexivity | split; [ reflexivity | split; [ exact Hg | exact Hc ] ] ]).
Qed.

(** C8.  Two consecutive passes of the loop of
    [ConjugateGradientsTakeNSteps], the first from the state [m].  The
    count each pass tests is [d->cstep] after its increment.  The first
    pass searches along its direction array and then stores in [d->grad1],
    under "save the direction", the gradient array it started from, not
    that direction array.  So the second pass, when its count is not a
    multiple of the number of atoms, gives atom [idx] the direction
    [g_new + beta * g_old] with [beta = (g_new . g_new) / (g_old . g_old)],
    where [g_old] and [g_new] are the atom's gradients before and after the
    first pass and both dot products are those of the atom's own
    3-vectors: the direction of the first pass does not enter.  When
    [g_old] is zero, [beta] is not finite, the direction is NaN and the
    line search leaves the atom where it is.  When the count is a multiple
    of the number of atoms the direction is [g_new].  For a function
    without analytical gradients the gradient is not read at all: the
    direction is built from the local [grad2], which holds the direction
    of the atom before. *)
Theorem ConjugateGradients_direction_from_stored_gradient
        (hasGradients : bool) (grad2 : Direction) (m : OBMinimize) (idx : nat) :
  let N := Z.of_nat (List.length (GetPositions m)) in
  let r := ConjugateGradients_step energy gradient hasGradients Newton2Num grad2 m in
  let m' := snd r in
  let d_old := ConjugateGradients_step_direction hasGradients grad2 m in
  let d_new := ConjugateGradients_step_direction hasGradients (snd (fst r)) m' in
  let g_old := nth idx (GetGradients m) Vector3d.Zero in
  let g_new := nth idx (GetGradients m') Vector3d.Zero in
  (0 <= cstep (d m))%Z ->
  (cstep (d m) + 2 < 2 ^ 31)%Z ->
  (idx < List.length (GetPositions m))%nat ->
  List.length (GetGradients m) = List.length (GetPositions m) ->
  List.length (grad1 (d m)) = List.length (GetPositions m) ->
  (hasGradients = true ->
   nth idx d_old (FiniteVec Vector3d.Zero)
   = CG_atom_direction (cstep (d m) + 1) N (FiniteVec g_old)
                       (FiniteVec (nth idx (grad1 (d m)) Vector3d.Zero)))
  /\ GetPositions m'
     = GetPositions
         (snd (perform_linesearch energy gradient Newton2Num
                 (map finite_direction d_old)
                 (set_grad1 (map finite_direction d_old)
                            (set_cstep (cstep (d m) + 1) m))))
  /\ List.length (GetPositions m') = List.length (GetPositions m)
  /\ cstep (d m') = (cstep (d m) + 1)%Z
  /\ GetGradients m' = gradient (GetPositions m')
  /\ grad1 (d m') = GetGradients m
  /\ (hasGradients = true ->
      ((cstep (d m) + 2) mod N)%Z <> 0%Z ->
      Vector3d.dot g_old g_old <> 0 ->
      nth idx d_new (FiniteVec Vector3d.Zero)
      = FiniteVec (Vector3d.add g_new
                     (Vector3d.scale g_old
                        (Vector3d.dot g_new g_new / Vector3d.dot g_old g_old))))
  /\ (hasGradients = true ->
      ((cstep (d m) + 2) mod N)%Z <> 0%Z ->
      Vector3d.dot g_old g_old = 0 ->
      nth idx d_new (FiniteVec Vector3d.Zero) = NonFiniteVec
      /\ nth idx (GetPositions
                    (snd (ConjugateGradients_step energy gradient hasGradients Newton2Num
                                                  (snd (fst r)) m')))
             Vector3d.Zero
         = nth idx (GetPositions m') Vector3d.Zero)
  /\ (hasGradients = true ->
      ((cstep (d m) + 2) mod N)%Z = 0%Z ->
      nth idx d_new (FiniteVec Vector3d.Zero) = FiniteVec g_new)
  /\ (hasGradients = false ->
      nth idx d_new (FiniteVec Vector3d.Zero)
      = CG_atom_direction (cstep (d m) + 2) N
          (if Nat.eqb idx 0 then snd (fst r)
           else nth (idx - 1) d_new (FiniteVec Vector3d.Zero))
          (FiniteVec g_old)).
Proof.
  intros N r m' d_old d_new g_old g_new Hc0 Hc2 Hidx Hgrad Hstored.
  destruct (ConjugateGradients_step_state hasGradients grad2 m)
    as [Hpos [Hcur [Hsave Hcount]]].
  fold r in Hpos, Hcur, Hsave, Hcount. fold m' in Hpos, Hcur, Hsave, Hcount.
  fold d_old in Hpos, Hcur.
  assert (Hlen : List.length (GetPositions m') = List.length (GetPositions m)).
  { rewrite Hpos, perform_linesearch_length. reflexivity. }
  assert (Hsz : to_size_t (cstep (d m) + 2) = (cstep (d m) + 2)%Z).
  { unfold to_size_t. apply Z.mod_small.
    assert ((2 ^ 31 < 2 ^ 64)%Z) by reflexivity. lia. }
  assert (Hnew : nth idx d_new (FiniteVec Vector3d.Zero)
                 = CG_atom_direction (cstep (d m) + 2) N
                     (if hasGradients then FiniteVec g_new
                      else if Nat.eqb idx 0 then snd (fst r)
                           else nth (idx - 1) d_new (FiniteVec Vector3d.Zero))
                     (FiniteVec g_old)).
  { unfold d_new.
    rewrite ConjugateGradients_step_direction_nth;
      [ | rewrite Hlen; exact Hidx | rewrite Hsave, Hlen; exact Hgrad ].
    rewrite Hsave, Hlen, Hcount.
    replace (cstep (d m) + 1 + 1)%Z with (cstep (d m) + 2)%Z by lia.
    reflexivity. }
  split.
  { intros ->. unfold d_old.
    rewrite ConjugateGradients_step_direction_nth by assumption. reflexivity. }
  split; [ exact Hpos | ].
  split; [ exact Hlen | ].
  split; [ exact Hcount | ].
  split; [ rewrite Hcur, Hpos; reflexivity | ].
  split; [ exact Hsave | ].
  split.
  { intros Hhas Hmod Hnz. rewrite Hnew, Hhas.
    apply CG_atom_direction_update; [ rewrite Hsz; exact Hmod | exact Hnz ]. }
  split.
  { intros Hhas Hmod Hz.
    assert (Hnan : nth idx d_new (FiniteVec Vector3d.Zero) = NonFiniteVec).
    { rewrite Hnew, Hhas.
      apply CG_atom_direction_zero_stored; [ rewrite Hsz; exact Hmod | exact Hz ]. }
    split; [ exact Hnan | ].
    destruct (ConjugateGradients_step_state hasGradients (snd (fst r)) m')
      as [Hpos' _].
    rewrite Hpos'. fold d_new.
    rewrite perform_linesearch_frozen; [ reflexivity | ].
    change Vector3d.Zero with (finite_direction (FiniteVec Vector3d.Zero)) at 1.
    rewrite map_nth, Hnan. reflexivity. }
  split.
  { intros Hhas Hmod. rewrite Hnew, Hhas.
    apply CG_atom_direction_reset. rewrite Hsz. exact Hmod. }
  intros Hhas. rewrite Hnew, Hhas. reflexivity.
Qed.

End ConjugateGradientSteps.

Lemma dot_unit_x : Vector3d.dot unit_x unit_x = 1.
Proof. unfold Vector3d.dot, unit_x; simpl; lra. Qed.

(** Three atoms in a uniform field [g = (1, 0, 0)], atom 0.  The first
    pass searches along [g + 1 * g = (2, 0, 0)]; the second pass, whose
    count 2 is not a multiple of 3, has [beta = 1] and searches along
    [g + 1 * g = (2, 0, 0)] again, where the current gradient plus [beta]
    times the direction of the first pass is [(3, 0, 0)].  With no force on
    atom 1 the second pass computes no finite direction for that atom. *)
Lemma ConjugateGradients_direction_from_stored_gradient_witness :
  nth 0 (ConjugateGradients_step_direction true (FiniteVec Vector3d.Zero)
           (three_atom_minimizer [unit_x; unit_x; unit_x]))
      (FiniteVec Vector3d.Zero)
  = FiniteVec (Vector3d.mk 2 0 0)
  /\ nth 0 (ConjugateGradients_step_direction true
              (snd (fst (ConjugateGradients_step flat_energy uniform_gradient true 0
                           (FiniteVec Vector3d.Zero)
                           (three_atom_minimizer [unit_x; unit_x; unit_x]))))
              (snd (ConjugateGradients_step flat_energy uniform_gradient true 0
                      (FiniteVec Vector3d.Zero)
                      (three_atom_minimizer [unit_x; unit_x; unit_x]))))
         (FiniteVec Vector3d.Zero)
     = FiniteVec (Vector3d.mk 2 0 0)
  /\ FiniteVec (Vector3d.mk 2 0 0)
     <> FiniteVec (Vector3d.add unit_x
                     (Vector3d.scale (Vector3d.mk 2 0 0)
                        (Vector3d.dot unit_x unit_x / Vector3d.dot unit_x unit_x)))
  /\ nth 1 (ConjugateGradients_step_direction true
              (snd (fst (ConjugateGradients_step flat_energy resting_gradient true 0
                           (FiniteVec Vector3d.Zero)
                           (three_atom_minimizer [unit_x; Vector3d.Zero; unit_x]))))
              (snd (ConjugateGradients_step flat_energy resting_gradient true 0
                      (FiniteVec Vector3d.Zero)
                      (three_atom_minimizer [unit_x; Vector3d.Zero; unit_x]))))
         (FiniteVec Vector3d.Zero)
     = NonFiniteVec.
Proof.
  assert (H0 : (0 <= 0)%Z) by lia.
  assert (H2 : (0 + 2 < 2 ^ 31)%Z) by reflexivity.
  assert (Hmod1 : (to_size_t (0 + 1) mod 3)%Z <> 0%Z) by (vm_compute; discriminate).
  assert (Hmod2 : ((0 + 2) mod 3)%Z <> 0%Z) by (vm_compute; discriminate).
  assert (Hdot : Vector3d.dot unit_x unit_x <> 0) by (rewrite dot_unit_x; lra).
  assert (Hsum : Vector3d.add unit_x
                   (Vector3d.scale unit_x
                      (Vector3d.dot unit_x unit_x / Vector3d.dot unit_x unit_x))
                 = Vector3d.mk 2 0 0).
  { rewrite dot_unit_x. apply vec_eq; simpl; lra. }
  pose proof (ConjugateGradients_direction_from_stored_gradient
                flat_energy uniform_gradient 0 true (FiniteVec Vector3d.Zero)
                (three_atom_minimizer [unit_x; unit_x; unit_x]) 0
                H0 H2 (Nat.lt_0_succ 2) eq_refl eq_refl) as H.
  cbv zeta in H.
  destruct H as [Hold [_ [_ [_ [Hcur [_ [Hupd _]]]]]]].
  pose proof (ConjugateGradients_direction_from_stored_gradient
                flat_energy resting_gradient 0 true (FiniteVec Vector3d.Zero)
                (three_atom_minimizer [unit_x; Vector3d.Zero; unit_x]) 1
                H0 H2 (proj1 (Nat.succ_lt_mono 0 2) (Nat.lt_0_succ 1))
                eq_refl eq_refl) as H.
  cbv zeta in H.
  destruct H as [_ [_ [_ [_ [_ [_ [_ [Hnan _]]]]]]]].
  split.
  { rewrite (Hold eq_refl). cbn [three_atom_minimizer GetGradients GetPositions
                                 m_function m_gradients m_positions d grad1 cstep
                                 List.length nth].
    rewrite CG_atom_direction_update by assumption.
    rewrite Hsum. reflexivity. }
  split.
  { rewrite (Hupd eq_refl Hmod2 Hdot).
    rewrite Hcur.
    cbn [uniform_gradient three_atom_minimizer GetGradients m_function m_gradients nth].
    rewrite Hsum. reflexivity. }
  split.
  { intros E. injection E as Ex _ _. rewrite dot_unit_x in Ex. simpl in Ex. lra. }
  apply (Hnan eq_refl Hmod2).
  cbn [three_atom_minimizer GetGradients m_function m_gradients nth].
  unfold Vector3d.dot; simpl; lra.
Defined.

(** * The energy of the OpenCL electrostatic term *)

Lemma at_cases {A : Type} (v : list A) (i : nat) :
  (Nat.ltb i (List.length v) = true /\ exists a, at_ v i = Returns a)
  \/ (Nat.ltb i (List.length v) = false /\ at_ v i = Throws).
Proof.
  unfold at_. destruct (nth_error v i) as [ a | ] eqn:E.
  - left. split; [ | exists a; reflexivity ].
    apply Nat.ltb_lt. apply nth_error_Some. congruence.
  - right. split; [ | reflexivity ].
    apply Nat.ltb_ge. apply nth_error_None. exact E.
Qed.

(** A pass that reads four entries in range calls [electroEnergy]; any
    other pass throws. *)
Lemma pair_energy_outcome (charges : list R) (positions : list Vec) (E : R)
      (ij : nat * nat) :
  self_pair_energy charges positions E ij
  = (if reads_in_range charges positions ij then Undefined else Throws)
  /\ one_four_pair_energy charges positions E ij
     = (if reads_in_range charges positions ij then Undefined else Throws).
Proof.
  destruct ij as [i j].
  unfold self_pair_energy, one_four_pair_energy, reads_in_range. cbn [fst snd].
  destruct (at_cases positions i) as [ [-> [ai ->]] | [-> ->] ];
    [ | split; reflexivity ].
  destruct (at_cases positions j) as [ [-> [aj ->]] | [-> ->] ];
    [ | split; reflexivity ].
  destruct (at_cases charges i) as [ [-> [qi ->]] | [-> ->] ];
    [ | split; reflexivity ].
  destruct (at_cases charges j) as [ [-> [qj ->]] | [-> ->] ];
    split; reflexivity.
Qed.

Lemma loop_energy_outcome (body : R -> nat * nat -> outcome R)
      (charges : list R) (positions : list Vec) (pairs : list (nat * nat)) (E : R) :
  (forall E' ij, body E' ij
                 = if reads_in_range charges positions ij then Undefined else Throws) ->
  loop_energy body pairs E
  = match pairs with
    | [] => Returns E
    | ij :: _ => if reads_in_range charges positions ij then Undefined else Throws
    end.
Proof.
  intros Hbody. destruct pairs as [ | ij pairs ]; [ reflexivity | ].
  cbn [loop_energy]. rewrite Hbody.
  destruct (reads_in_range charges positions ij); reflexivity.
Qed.

Lemma index_pairs_first (n : nat) :
  exists rest, index_pairs (S n) = (0%nat, 0%nat) :: rest.
Proof.
  unfold index_pairs. cbn [seq flat_map map app]. eexists. reflexivity.
Qed.

(** C10.  [electroEnergy] has no result on any call: it ends without a
    [return] statement.  So neither have the two functions that sum it up,
    once they call it.  [ComputeSelfEnergy] returns, with 0, only when both
    lists of pairs are empty; otherwise its first pass either throws (an
    index past the positions or the charges) or calls [electroEnergy], and
    the behaviour is undefined.  [ComputeTotalEnergy] returns, with 0, only
    when there are no charges.  On the lists that [InitSelfPairs] files for
    a molecule with an atom, the first pair is [(0, 0)] and
    [ComputeSelfEnergy] is undefined. *)
Theorem electroEnergy_has_no_result :
  (forall ai aj qi qj, electroEnergy ai aj qi qj = Undefined)
  /\ (forall term charges positions,
         ComputeSelfEnergy term charges positions
         = match m_selfPairs term ++ m_oneFourPairs term with
           | [] => Returns 0.0
           | ij :: _ =>
               if reads_in_range charges positions ij then Undefined else Throws
           end)
  /\ (forall charges positions,
         ComputeTotalEnergy charges positions
         = match charges with
           | [] => Returns 0.0
           | _ :: _ =>
               if reads_in_range charges positions (0%nat, 0%nat)
               then Undefined else Throws
           end)
  /\ (forall term charges positions E,
         ComputeSelfEnergy term charges positions = Returns E ->
         E = 0.0 /\ m_selfPairs term = [] /\ m_oneFourPairs term = [])
  /\ (forall charges positions E,
         ComputeTotalEnergy charges positions = Returns E ->
         E = 0.0 /\ charges = [])
  /\ (forall mol charges positions,
         (0 < NumAtoms mol)%nat ->
         (0 < List.length charges)%nat ->
         (0 < List.length positions)%nat ->
         ComputeSelfEnergy (InitSelfPairs mol (mkElectroTerm [] [])) charges positions
         = Undefined
         /\ ComputeTotalEnergy charges positions = Undefined).
Proof.
  assert (Hself : forall term charges positions,
             ComputeSelfEnergy term charges positions
             = match m_selfPairs term ++ m_oneFourPairs term with
               | [] => Returns 0.0
               | ij :: _ =>
                   if reads_in_range charges positions ij then Undefined else Throws
               end).
  { intros term charges positions. unfold ComputeSelfEnergy.
    rewrite (loop_energy_outcome _ charges positions)
      by (intros E' ij; apply pair_energy_outcome).
    destruct (m_selfPairs term) as [ | ij pairs ]; cbn [app and_also].
    - apply loop_energy_outcome. intros E' ij; apply pair_energy_outcome.
    - destruct (reads_in_range charges positions ij); reflexivity. }
  assert (Htotal : forall charges positions,
             ComputeTotalEnergy charges positions
             = match charges with
               | [] => Returns 0.0
               | _ :: _ =>
                   if reads_in_range charges positions (0%nat, 0%nat)
                   then Undefined else Throws
               end).
  { intros charges positions. unfold ComputeTotalEnergy. cbv zeta.
    rewrite (loop_energy_outcome _ charges positions)
      by (intros E' ij; apply pair_energy_outcome).
    destruct charges as [ | q charges ]; [ reflexivity | ].
    cbn [List.length].
    destruct (index_pairs_first (List.length charges)) as [rest ->]. reflexivity. }
  assert (Hzero : forall charges positions,
             (0 < List.length charges)%nat -> (0 < List.length positions)%nat ->
             reads_in_range charges positions (0%nat, 0%nat) = true).
  { intros charges positions Hc Hp. unfold reads_in_range. cbn [fst snd].
    apply Nat.ltb_lt in Hc, Hp. rewrite Hc, Hp. reflexivity. }
  split; [ reflexivity | ].
  split; [ exact Hself | ].
  split; [ exact Htotal | ].
  split.
  { intros term charges positions E H. rewrite Hself in H.
    destruct (m_selfPairs term) as [ | ij pairs ];
      [ destruct (m_oneFourPairs term) as [ | ij pairs ] | ]; cbn [app] in H.
    - split; [ congruence | split; reflexivity ].
    - destruct (reads_in_range charges positions ij); discriminate.
    - destruct (reads_in_range charges positions ij); discriminate. }
  split.
  { intros charges positions E H. rewrite Htotal in H.
    destruct charges as [ | q charges ].
    - split; [ congruence | reflexivity ].
    - destruct (reads_in_range _ positions (0%nat, 0%nat)); discriminate. }
  intros mol charges positions Hn Hc Hp. split.
  - rewrite Hself. unfold InitSelfPairs. rewrite InitSelfPairs_fold.
    cbn [m_selfPairs m_oneFourPairs app].
    destruct (NumAtoms mol) as [ | n ]; [ lia | ].
    destruct (index_pairs_first n) as [rest ->].
    cbn [filter self_kind fst snd Nat.eqb orb app].
    rewrite (Hzero charges positions Hc Hp). reflexivity.
  - rewrite Htotal. destruct charges as [ | q charges ]; [ cbn in Hc; lia | ].
    rewrite (Hzero (q :: charges) positions Hc Hp). reflexivity.
Qed.

(** On the butane chain, with its four charges and positions. *)
Lemma electroEnergy_has_no_result_witness :
  ComputeSelfEnergy (InitSelfPairs mol_butane (mkElectroTerm [] []))
                    butane_charges butane_positions = Undefined
  /\ ComputeTotalEnergy butane_charges butane_positions = Undefined.
Proof.
  apply (proj2 (proj2 (proj2 (proj2 (proj2 electroEnergy_has_no_result)))) mol_butane);
    unfold NumAtoms, mol_butane, butane_charges, butane_positions; simpl; lia.
Defined.
